(** * SysMon: sampling-and-derivation engine of the terminal process monitor

    A shallow embedding of [src/main.cpp].  The program reads the pseudo-files
    under /proc, derives CPU and memory percentages from the difference of two
    successive samples, sorts the process list and offers a modal dialogue
    that sends SIGTERM to a pid typed by the user.

    Conventions of the embedding:
    - [long long], [long] (LP64) and [int] are integers of [Z] with the
      two's-complement wrap-around written out ([wrap64], [wrap32]);
    - [double] is IEEE 754 binary64, given by the executable specification
      [spec_float] of the standard library at precision 53 and maximal
      exponent 1024, rounding to nearest even;
    - [std::string] is [string]; a [char] array is a [list ascii];
    - [std::map] is a [gmap]; a [std::vector] is a [list];
    - [std::sort] is the introsort of libstdc++, on lists with offsets for
      iterators;
    - an exception that escapes a function is the [Threw] result. *)

From Stdlib Require Import ZArith Bool Ascii String List Lia Permutation Sorted.
From Stdlib Require Import Floats.SpecFloat Floats.PrimFloat Floats.FloatOps.
From Stdlib Require Import Decimal DecimalFacts DecimalString DecimalPos DecimalN.
From stdpp Require Import base option list sorting gmap strings.

Local Open Scope Z_scope.

(* ===================================================================== *)
(** * Machine integers *)
(* ===================================================================== *)

Module MachineInt.

(** Signed [w]-bit range and the reduction of an exact result into it. *)
Definition smin (w : Z) : Z := - 2 ^ (w - 1).
Definition smax (w : Z) : Z := 2 ^ (w - 1) - 1.
Definition umax (w : Z) : Z := 2 ^ w - 1.

Definition wrap (w : Z) (z : Z) : Z := (z + 2 ^ (w - 1)) mod 2 ^ w - 2 ^ (w - 1).

Definition in_range (w : Z) (z : Z) : Prop := smin w <= z <= smax w.
Definition in_rangeb (w : Z) (z : Z) : bool := (smin w <=? z) && (z <=? smax w).

Definition wrap64 : Z -> Z := wrap 64.
Definition wrap32 : Z -> Z := wrap 32.

Definition LLONG_MAX : Z := smax 64.
Definition LLONG_MIN : Z := smin 64.
Definition INT_MAX : Z := smax 32.
Definition INT_MIN : Z := smin 32.

(** [long long] addition and subtraction as the hardware performs them. *)
Definition add64 (a b : Z) : Z := wrap64 (a + b).
Definition sub64 (a b : Z) : Z := wrap64 (a - b).

End MachineInt.
Import MachineInt.

(* ===================================================================== *)
(** * Doubles *)
(* ===================================================================== *)

Module Double.

Definition double : Type := spec_float.

(** [(double)z] for a 64-bit integer [z]: the nearest binary64 value. *)
Definition of_Z (z : Z) : double := binary_normalize prec emax z 0 false.

Definition mul (x y : double) : double := SFmul prec emax x y.
Definition div (x y : double) : double := SFdiv prec emax x y.

(** The literals [0.0] and [100.0]. *)
Definition zero : double := S754_zero false.
Definition hundred : double := S754_finite false 7036874417766400 (-46).

(** [x > y] and [x >= y]; both are false when either side is a NaN. *)
Definition gtb (x y : double) : bool := SFltb y x.
Definition geb (x y : double) : bool := SFleb y x.
Definition ltb (x y : double) : bool := SFltb x y.

Definition is_nan (x : double) : bool :=
  match x with S754_nan => true | _ => false end.

(** The sign bit of a value that is not a NaN. *)
Definition sign (x : double) : bool :=
  match x with
  | S754_zero s | S754_infinity s | S754_finite s _ _ => s
  | S754_nan => false
  end.

(** A value that is not a NaN and carries the sign bit [s]. *)
Definition has_sign (s : bool) (x : double) : Prop :=
  is_nan x = false /\ sign x = s.

End Double.
Import Double.

(* ===================================================================== *)
(** * Exceptions *)
(* ===================================================================== *)

Inductive exn : Type := invalid_argument | out_of_range.

Inductive result (A : Type) : Type :=
| Returned (a : A)
| Threw (e : exn).
Arguments Returned {A} a.
Arguments Threw {A} e.

(** Sequencing: the first exception thrown ends the computation. *)
Global Instance result_bind : MBind result := fun A B k r =>
  match r with
  | Returned a => k a
  | Threw e => Threw e
  end.

Global Instance result_ret : MRet result := fun A a => Returned a.

(* ===================================================================== *)
(** * Characters, strings and input streams *)
(* ===================================================================== *)

Module Text.

Definition code (c : ascii) : Z := Z.of_nat (nat_of_ascii c).

(** [isspace] and [isdigit] of the C locale, on character codes. *)
Definition isspace_code (n : Z) : bool := (n =? 32) || ((9 <=? n) && (n <=? 13)).
Definition isdigit_code (n : Z) : bool := (48 <=? n) && (n <=? 57).

Definition isspace (c : ascii) : bool := isspace_code (code c).
Definition isdigit (c : ascii) : bool := isdigit_code (code c).
Definition digit_value (c : ascii) : Z := code c - 48.

Definition newline : ascii := ascii_of_nat 10.
Definition NUL : ascii := ascii_of_nat 0.

Fixpoint skipws (s : string) : string :=
  match s with
  | String c s' => if isspace c then skipws s' else s
  | EmptyString => EmptyString
  end.

(** The longest prefix without white space, and what follows it. *)
Fixpoint take_word (s : string) : string * string :=
  match s with
  | String c s' =>
      if isspace c then (EmptyString, s)
      else let (w, r) := take_word s' in (String c w, r)
  | EmptyString => (EmptyString, EmptyString)
  end.

(** Decimal digits accumulated from the left, and what follows them;
    [None] when the first character is not a digit. *)
Fixpoint take_digits (acc : Z) (seen : bool) (s : string) : option Z * string :=
  match s with
  | String c s' =>
      if isdigit c then take_digits (acc * 10 + digit_value c) true s'
      else (if seen then Some acc else None, s)
  | EmptyString => (if seen then Some acc else None, EmptyString)
  end.

(** An optional sign followed by decimal digits: the sign, the magnitude
    ([None] when no digit follows) and the rest of the input. *)
Definition scan_integer (s : string) : bool * option Z * string :=
  match s with
  | String c s' =>
      if Ascii.eqb c "-"%char then let (m, r) := take_digits 0 false s' in (true, m, r)
      else if Ascii.eqb c "+"%char then let (m, r) := take_digits 0 false s' in (false, m, r)
      else let (m, r) := take_digits 0 false s in (false, m, r)
  | EmptyString => (false, None, EmptyString)
  end.

(** [std::stoi] / [std::stol]: [strtol] in base 10 on the whole string;
    leading white space and an optional sign are accepted, whatever follows
    the digits is ignored. *)
Definition sto_signed (w : Z) (s : string) : result Z :=
  match scan_integer (skipws s) with
  | (_, None, _) => Threw invalid_argument
  | (neg, Some m, _) =>
      let v := if neg then - m else m in
      if in_rangeb w v then Returned v else Threw out_of_range
  end.

Definition stoi : string -> result Z := sto_signed 32.
Definition stol : string -> result Z := sto_signed 64.

(** [s.rfind(p, 0) == 0]: [s] starts with [p]. *)
Definition starts_with (p s : string) : bool := String.prefix p s.

(** [s.substr(pos)]: throws when [pos] is beyond the end. *)
Fixpoint substr_from (pos : nat) (s : string) : result string :=
  match pos, s with
  | O, _ => Returned s
  | S _, EmptyString => Threw out_of_range
  | S pos', String _ s' => substr_from pos' s'
  end.

(** [s.erase(s.find_last_not_of(" \n\r\t") + 1)]: drop the trailing blanks. *)
Definition is_trim_char (c : ascii) : bool :=
  let n := code c in (n =? 32) || (n =? 10) || (n =? 13) || (n =? 9).

Fixpoint rtrim (s : string) : string :=
  match s with
  | String c s' =>
      match rtrim s' with
      | EmptyString => if is_trim_char c then EmptyString else String c EmptyString
      | t => String c t
      end
  | EmptyString => EmptyString
  end.

(** The lines [std::getline] delivers one after the other until it fails. *)
Fixpoint lines (s : string) : list string :=
  match s with
  | EmptyString => []
  | String c s' =>
      if Ascii.eqb c newline then EmptyString :: lines s'
      else match lines s' with
           | [] => [String c EmptyString]
           | l :: ls => String c l :: ls
           end
  end.

(** One [std::getline] into an empty string: the first line, or the string
    left empty when nothing can be read. *)
Definition first_line (content : option string) : string :=
  match content with
  | Some s => hd EmptyString (lines s)
  | None => EmptyString
  end.

(** ** [std::stringstream] read with [operator>>]

    The unread characters and the fail bit.  Every extraction first checks
    the stream: once it has failed, or when only white space is left, the
    extraction sets the fail bit and leaves its target untouched ([None]). *)
Record istream : Type := { unread : string; failbit : bool }.

Definition stream_of (s : string) : istream := {| unread := s; failbit := false |}.
Definition failed_at (s : string) : istream := {| unread := s; failbit := true |}.

(** [ss >> word] *)
Definition extract_string (ss : istream) : istream * option string :=
  if failbit ss then (ss, None)
  else match skipws (unread ss) with
       | EmptyString => (failed_at EmptyString, None)
       | s => let (w, r) := take_word s in (stream_of r, Some w)
       end.

(** [ss >> n] for a signed [w]-bit integer: without digits the target
    becomes 0; out of range it becomes the nearest bound; both set the
    fail bit. *)
Definition extract_signed (w : Z) (ss : istream) : istream * option Z :=
  if failbit ss then (ss, None)
  else match skipws (unread ss) with
       | EmptyString => (failed_at EmptyString, None)
       | s =>
           match scan_integer s with
           | (_, None, r) => (failed_at r, Some 0)
           | (true, Some m, r) =>
               if m <=? - smin w then (stream_of r, Some (- m))
               else (failed_at r, Some (smin w))
           | (false, Some m, r) =>
               if m <=? smax w then (stream_of r, Some m)
               else (failed_at r, Some (smax w))
           end
       end.

(** [ss >> n] for an unsigned [w]-bit integer: a minus sign negates
    modulo [2^w]. *)
Definition extract_unsigned (w : Z) (ss : istream) : istream * option Z :=
  if failbit ss then (ss, None)
  else match skipws (unread ss) with
       | EmptyString => (failed_at EmptyString, None)
       | s =>
           match scan_integer s with
           | (_, None, r) => (failed_at r, Some 0)
           | (neg, Some m, r) =>
               if m <=? umax w
               then (stream_of r, Some (if neg then (- m) mod 2 ^ w else m))
               else (failed_at r, Some (umax w))
           end
       end.

(** The value of a variable after an extraction aimed at it. *)
Definition stored {A : Type} (old : A) (written : option A) : A :=
  match written with
  | Some v => v
  | None => old
  end.

End Text.
Import Text.

(* ===================================================================== *)
(** * Data structures *)
(* ===================================================================== *)

(** Overall system CPU times from /proc/stat. *)
Module SysCpu.
Record SysCpuTimes : Type := {
  user : Z; nice : Z; system : Z; idle : Z;
  iowait : Z; irq : Z; softirq : Z; steal : Z;
  total : Z
}.

(** [SysCpuTimes t = {0};] *)
Definition zeros : SysCpuTimes :=
  {| user := 0; nice := 0; system := 0; idle := 0;
     iowait := 0; irq := 0; softirq := 0; steal := 0; total := 0 |}.
End SysCpu.
Abbreviation SysCpuTimes := SysCpu.SysCpuTimes.

(** All information for a single process. *)
Record Process : Type := {
  pid : Z;
  user : string;
  name : string;
  cpuPercent : double;
  memPercent : double;
  memRssKb : Z;
  utime : Z;
  stime : Z
}.

Inductive SortMode : Type := BY_CPU | BY_MEM | BY_PID.

(** What the operating system answers to the reads of one scan of /proc.
    The process table changes while it is scanned, so every [open] is an
    observation of its own: the status file of a pid is opened once by
    [getProcesses] and once more by [getUsername]. *)
Record ProcFS : Type := {
  proc_entries : option (list string);   (* readdir of /proc; None: opendir fails *)
  stat_file : Z -> option string;        (* /proc/[pid]/stat *)
  status_file : Z -> option string;      (* /proc/[pid]/status, opened by getProcesses *)
  status_reopened : Z -> option string   (* /proc/[pid]/status, opened by getUsername *)
}.

(* ===================================================================== *)
(** * Parsing functions *)
(* ===================================================================== *)

Section Sampling.

(** The global maps: UID -> user name, and pid -> (utime, stime) of the
    previous sample. *)
Variable usernameCache : gmap Z string.
Variable prevProcessTimes : gmap Z (Z * Z).

(** The loop of [getUsername] over the lines of the status file. *)
Fixpoint scan_uid (ls : list string) (uid : Z) : Z :=
  match ls with
  | [] => uid
  | line :: ls' =>
      if starts_with "Uid:" line then
        let ss := stream_of line in
        let (ss, key) := extract_string ss in
        let (ss, w) := extract_unsigned 32 ss in
        stored uid w
      else scan_uid ls' uid
  end.

Definition getUsername (fs : ProcFS) (pid : Z) : string :=
  match status_reopened fs pid with
  | None => "n/a"%string
  | Some content =>
      let uid := scan_uid (lines content) 0 in
      match usernameCache !! uid with
      | Some n => n
      | None => "unknown"%string
      end
  end.

(** The loop of [getMemoryInfo].  [value] is declared in the body of the
    loop without an initialiser; the compiled code keeps it in one stack
    slot, so that an extraction which stores nothing leaves in it what the
    previous iteration stored.  [slot] is the content of that slot when the
    iteration begins: for the first line, whatever the function finds
    there. *)
Fixpoint scan_meminfo (slot : Z) (ls : list string) (memTotal memAvailable : Z) : Z * Z :=
  match ls with
  | [] => (memTotal, memAvailable)
  | line :: ls' =>
      let ss := stream_of line in
      let (ss, k) := extract_string ss in
      let key := stored EmptyString k in
      let (ss, w) := extract_signed 64 ss in
      let value := stored slot w in
      let memTotal := if String.eqb key "MemTotal:" then value else memTotal in
      let memAvailable :=
        if String.eqb key "MemTotal:" then memAvailable
        else if String.eqb key "MemAvailable:" then value else memAvailable in
      if (0 <? memTotal) && (0 <? memAvailable) then (memTotal, memAvailable)
      else scan_meminfo value ls' memTotal memAvailable
  end.

Definition getMemoryInfo (junk : Z) (meminfo : option string) : Z * Z :=
  match meminfo with
  | None => (0, 0)
  | Some content => scan_meminfo junk (lines content) 0 0
  end.

(** Reads the first line of /proc/stat. *)
Definition getSystemCpuTimes (proc_stat : option string) : SysCpuTimes :=
  let line := first_line proc_stat in
  if starts_with "cpu" line then
    let ss := stream_of line in
    let (ss, cpu) := extract_string ss in
    let (ss, w) := extract_signed 64 ss in let user := stored 0 w in
    let (ss, w) := extract_signed 64 ss in let nice := stored 0 w in
    let (ss, w) := extract_signed 64 ss in let system := stored 0 w in
    let (ss, w) := extract_signed 64 ss in let idle := stored 0 w in
    let (ss, w) := extract_signed 64 ss in let iowait := stored 0 w in
    let (ss, w) := extract_signed 64 ss in let irq := stored 0 w in
    let (ss, w) := extract_signed 64 ss in let softirq := stored 0 w in
    let (ss, w) := extract_signed 64 ss in let steal := stored 0 w in
    {| SysCpu.user := user; SysCpu.nice := nice; SysCpu.system := system;
       SysCpu.idle := idle; SysCpu.iowait := iowait; SysCpu.irq := irq;
       SysCpu.softirq := softirq; SysCpu.steal := steal;
       SysCpu.total :=
         add64 (add64 (add64 (add64 (add64 (add64 (add64 user nice) system) idle)
                                    iowait) irq) softirq) steal |}
  else SysCpu.zeros.

(** [for (int i = 1; i < 14; ++i) ss >> value;] *)
Fixpoint skip_fields (n : nat) (ss : istream) : istream :=
  match n with
  | O => ss
  | S n' => skip_fields n' (fst (extract_string ss))
  end.

(** The loop of [getProcesses] over the lines of the status file. *)
Fixpoint scan_status (ls : list string) (name : string) (memRssKb : Z)
  : result (string * Z) :=
  match ls with
  | [] => Returned (name, memRssKb)
  | line :: ls' =>
      if starts_with "Name:" line then
        v ← substr_from 6 line;
        scan_status ls' (rtrim v) memRssKb
      else if starts_with "VmRSS:" line then
        v ← substr_from 7 line;
        kb ← stol v;
        scan_status ls' name kb
      else scan_status ls' name memRssKb
  end.

(** Step 4 of the loop body: the CPU time the process used since the
    previous sample. *)
Definition processTimeDelta (pid utime stime : Z) : Z :=
  let currentProcessTotalTime := add64 utime stime in
  let prevProcessTotalTime :=
    match prevProcessTimes !! pid with
    | Some (u, s) => add64 u s
    | None => 0
    end in
  sub64 currentProcessTotalTime prevProcessTotalTime.

(** One iteration of the [readdir] loop: [None] is a [continue], [Some p]
    a [push_back]. *)
Definition sample_entry (fs : ProcFS) (totalSystemMemKb totalCpuTimeDelta : Z)
    (d_name : string) : result (option Process) :=
  match stoi d_name with
  | Threw _ => Returned None
  | Returned pid =>
      match stat_file fs pid with
      | None => Returned None
      | Some content =>
          let statLine := first_line (Some content) in
          let ss := skip_fields 13 (stream_of statLine) in
          let (ss, w) := extract_signed 64 ss in let utime := stored 0 w in
          let (ss, w) := extract_signed 64 ss in let stime := stored 0 w in
          match status_file fs pid with
          | None => Returned None
          | Some status =>
              '(name, memRssKb) ← scan_status (lines status) EmptyString 0;
              if String.eqb name EmptyString then Returned None
              else
                let user := getUsername fs pid in
                let processTimeDelta := processTimeDelta pid utime stime in
                let cpuPercent :=
                  if 0 <? totalCpuTimeDelta
                  then div (mul hundred (of_Z processTimeDelta)) (of_Z totalCpuTimeDelta)
                  else zero in
                let memPercent :=
                  if 0 <? totalSystemMemKb
                  then div (mul hundred (of_Z memRssKb)) (of_Z totalSystemMemKb)
                  else zero in
                Returned (Some
                  {| pid := pid; user := user; name := name;
                     cpuPercent := cpuPercent; memPercent := memPercent;
                     memRssKb := memRssKb; utime := utime; stime := stime |})
          end
      end
  end.

Fixpoint scan_entries (fs : ProcFS) (totalSystemMemKb totalCpuTimeDelta : Z)
    (entries : list string) (processes : list Process) : result (list Process) :=
  match entries with
  | [] => Returned processes
  | d_name :: entries' =>
      r ← sample_entry fs totalSystemMemKb totalCpuTimeDelta d_name;
      scan_entries fs totalSystemMemKb totalCpuTimeDelta entries'
        (match r with Some p => processes ++ [p] | None => processes end)
  end.

(** Gets all running processes by scanning /proc. *)
Definition getProcesses (fs : ProcFS) (totalSystemMemKb totalCpuTimeDelta : Z)
  : result (list Process) :=
  match proc_entries fs with
  | None => Returned []
  | Some entries => scan_entries fs totalSystemMemKb totalCpuTimeDelta entries []
  end.

End Sampling.

(* ===================================================================== *)
(** * Process killing *)
(* ===================================================================== *)

Module Kill.

Definition KEY_ESC : Z := 27.
Definition KEY_ENTER : Z := 10.
Definition KEY_BACKSPACE : Z := 263.
Definition KEY_DEL : Z := 127.
Definition SIGTERM : Z := 15.

(** [(char)ch] *)
Definition char_of (ch : Z) : ascii := ascii_of_nat (Z.to_nat ch).

(** The string a [char] array holds: the characters before the first NUL. *)
Fixpoint c_string (a : list ascii) : string :=
  match a with
  | [] => EmptyString
  | c :: a' => if Ascii.eqb c NUL then EmptyString else String c (c_string a')
  end.

(** The state of the input loop: still reading keys, or left by [break]. *)
Inductive loop_state : Type :=
| Reading (pidStr : list ascii) (i : Z)
| Broke (pidStr : list ascii) (i : Z).

(** The input loop of [killProcessWindow] run on the keys that [wgetch]
    delivers; when they are used up the loop waits in [wgetch]. *)
Fixpoint input_loop (keys : list Z) (pidStr : list ascii) (i : Z) : loop_state :=
  match keys with
  | [] => Reading pidStr i
  | ch :: keys' =>
      if ch =? KEY_ESC then Broke pidStr (-1)
      else if ch =? KEY_ENTER then Broke (<[Z.to_nat i := NUL]> pidStr) i
      else if (ch =? KEY_BACKSPACE) || (ch =? KEY_DEL) then
        if 0 <? i then input_loop keys' pidStr (i - 1)
        else input_loop keys' pidStr i
      else if isdigit_code ch && (i <? 19) then
        input_loop keys' (<[Z.to_nat i := char_of ch]> pidStr) (i + 1)
      else input_loop keys' pidStr i
  end.

(** What follows the loop: the signals sent, as (pid, signal) pairs. *)
Definition after_loop (pidStr : list ascii) (i : Z) : list (Z * Z) :=
  if i =? -1 then []
  else match stoi (c_string pidStr) with
       | Returned pid => [(pid, SIGTERM)]
       | Threw _ => []
       end.

(** [killProcessWindow] on the keys typed into the window; [pidStr] is the
    uninitialised array [char pidStr[20]].  [None]: the window is still
    waiting for a key. *)
Definition killProcessWindow (keys : list Z) (pidStr : list ascii) : option (list (Z * Z)) :=
  match input_loop keys pidStr 0 with
  | Reading _ _ => None
  | Broke pidStr' i => Some (after_loop pidStr' i)
  end.

End Kill.
Import Kill.

(* ===================================================================== *)
(** * Sorting comparators *)
(* ===================================================================== *)

Definition compareByCpu (a b : Process) : bool := gtb (cpuPercent a) (cpuPercent b).
Definition compareByMem (a b : Process) : bool := gtb (memPercent a) (memPercent b).
Definition compareByPid (a b : Process) : bool := pid a <? pid b.

(** [std::sort(first, last, comp)] as the C++ library of GCC implements
    it ([bits/stl_algo.h] and [bits/stl_heap.h] of libstdc++): an introsort,
    that is a quicksort on the median of three elements down to ranges of
    16 elements, with a heap sort when the recursion gets deeper than twice
    the binary logarithm of the length, followed by one insertion sort.
    Among elements that [comp] does not order it need not keep the order
    of the input, and sorting its own result can change their order again.

    The array is a list and an iterator is an offset from [begin()].  To
    read [*i] outside the array is undefined; the loops of the model stop
    there, which the library never reaches with a comparator that is a
    strict weak ordering.  A loop that is not a recursion on one of its
    variables takes a [fuel] that it cannot use up: the length of the
    array, or the index that it lowers. *)
Section StdSort.
Context {A : Type} (comp : A -> A -> bool).
Local Open Scope nat_scope.

(** [__comp(i, j)] on the elements at offsets [i] and [j] of the array. *)
Definition comp_at (a : list A) (i j : nat) : bool :=
  match a !! i, a !! j with
  | Some x, Some y => comp x y
  | _, _ => false
  end.

(** [std::iter_swap(i, j)] *)
Definition iter_swap (a : list A) (i j : nat) : list A :=
  match a !! i, a !! j with
  | Some x, Some y => <[j := x]> (<[i := y]> a)
  | _, _ => a
  end.

(** Swaps the median of [*x], [*y] and [*z] to [*result]. *)
Definition move_median_to_first (a : list A) (result x y z : nat) : list A :=
  if comp_at a x y then
    if comp_at a y z then iter_swap a result y
    else if comp_at a x z then iter_swap a result z
    else iter_swap a result x
  else if comp_at a x z then iter_swap a result x
  else if comp_at a y z then iter_swap a result z
  else iter_swap a result y.

(** [while (__comp(__first, __pivot)) ++__first;] *)
Fixpoint skip_up (fuel : nat) (a : list A) (first pivot : nat) : nat :=
  match fuel with
  | O => first
  | S fuel' => if comp_at a first pivot then skip_up fuel' a (S first) pivot else first
  end.

(** [while (__comp(__pivot, __last)) --__last;] *)
Fixpoint skip_down (a : list A) (pivot last : nat) : nat :=
  match last with
  | O => O
  | S last' => if comp_at a pivot last then skip_down a pivot last' else last
  end.

(** [__unguarded_partition]: the array and the cut that it returns. *)
Fixpoint unguarded_partition (fuel : nat) (a : list A) (first last pivot : nat)
  : list A * nat :=
  match fuel with
  | O => (a, first)
  | S fuel' =>
      let first := skip_up (length a) a first pivot in
      let last := skip_down a pivot (last - 1) in
      if decide (first < last)
      then unguarded_partition fuel' (iter_swap a first last) (S first) last pivot
      else (a, first)
  end.

Definition unguarded_partition_pivot (a : list A) (first last : nat) : list A * nat :=
  let mid := first + (last - first) / 2 in
  let a := move_median_to_first a first (first + 1) mid (last - 1) in
  unguarded_partition (length a) a (first + 1) last first.

(** The heap functions of [bits/stl_heap.h]. *)
Fixpoint push_heap (fuel : nat) (a : list A) (first holeIndex topIndex : nat) (value : A)
  : list A :=
  let parent := (holeIndex - 1) / 2 in
  match fuel with
  | O => <[first + holeIndex := value]> a
  | S fuel' =>
      if decide (topIndex < holeIndex) then
        match a !! (first + parent) with
        | Some x =>
            if comp x value
            then push_heap fuel' (<[first + holeIndex := x]> a) first parent topIndex value
            else <[first + holeIndex := value]> a
        | None => <[first + holeIndex := value]> a
        end
      else <[first + holeIndex := value]> a
  end.

Fixpoint adjust_heap_loop (fuel : nat) (a : list A) (first holeIndex secondChild len : nat)
  : list A * nat * nat :=
  match fuel with
  | O => (a, holeIndex, secondChild)
  | S fuel' =>
      if decide (secondChild < (len - 1) / 2) then
        let secondChild := 2 * (secondChild + 1) in
        let secondChild :=
          if comp_at a (first + secondChild) (first + (secondChild - 1))
          then secondChild - 1 else secondChild in
        match a !! (first + secondChild) with
        | Some x =>
            adjust_heap_loop fuel' (<[first + holeIndex := x]> a) first
              secondChild secondChild len
        | None => (a, holeIndex, secondChild)
        end
      else (a, holeIndex, secondChild)
  end.

Definition adjust_heap (a : list A) (first holeIndex len : nat) (value : A) : list A :=
  let topIndex := holeIndex in
  let '(a, holeIndex, secondChild) := adjust_heap_loop len a first holeIndex holeIndex len in
  let '(a, holeIndex) :=
    if Nat.even len && (secondChild =? (len - 2) / 2)%nat then
      let secondChild := 2 * (secondChild + 1) in
      match a !! (first + (secondChild - 1)) with
      | Some x => (<[first + holeIndex := x]> a, secondChild - 1)
      | None => (a, holeIndex)
      end
    else (a, holeIndex) in
  push_heap holeIndex a first holeIndex topIndex value.

(** [value = *result; *result = *first; __adjust_heap(first, 0, last - first, value)] *)
Definition pop_heap (a : list A) (first last result : nat) : list A :=
  match a !! result, a !! first with
  | Some value, Some top => adjust_heap (<[result := top]> a) first 0 (last - first) value
  | _, _ => a
  end.

Fixpoint make_heap_loop (a : list A) (first len parent : nat) : list A :=
  let a :=
    match a !! (first + parent) with
    | Some value => adjust_heap a first parent len value
    | None => a
    end in
  match parent with
  | O => a
  | S parent' => make_heap_loop a first len parent'
  end.

Definition make_heap (a : list A) (first last : nat) : list A :=
  if decide (last - first < 2) then a
  else let len := last - first in make_heap_loop a first len ((len - 2) / 2).

Fixpoint sort_heap (a : list A) (first last : nat) : list A :=
  match last with
  | O => a
  | S last' =>
      if decide (1 < last - first) then sort_heap (pop_heap a first last' last') first last'
      else a
  end.

Fixpoint heap_select_loop (todo : nat) (a : list A) (first middle i : nat) : list A :=
  match todo with
  | O => a
  | S todo' =>
      let a := if comp_at a i first then pop_heap a first middle i else a in
      heap_select_loop todo' a first middle (S i)
  end.

Definition heap_select (a : list A) (first middle last : nat) : list A :=
  heap_select_loop (last - middle) (make_heap a first middle) first middle middle.

Definition partial_sort (a : list A) (first middle last : nat) : list A :=
  sort_heap (heap_select a first middle last) first middle.

(** [enum { _S_threshold = 16 }] *)
Definition S_threshold : nat := 16.

Fixpoint introsort_loop (depth_limit : nat) (a : list A) (first last : nat) : list A :=
  if decide (S_threshold < last - first) then
    match depth_limit with
    | O => partial_sort a first last last
    | S depth_limit =>
        let '(a, cut) := unguarded_partition_pivot a first last in
        let a := introsort_loop depth_limit a cut last in
        introsort_loop depth_limit a first cut
    end
  else a.

(** The loop of [__unguarded_linear_insert]: the hole is at [last], and
    [next] is the element before it. *)
Fixpoint unguarded_linear_insert_loop (val : A) (a : list A) (last : nat) : list A :=
  match last with
  | O => <[last := val]> a
  | S next =>
      match a !! next with
      | Some x =>
          if comp val x then unguarded_linear_insert_loop val (<[last := x]> a) next
          else <[last := val]> a
      | None => <[last := val]> a
      end
  end.

Definition unguarded_linear_insert (a : list A) (last : nat) : list A :=
  match a !! last with
  | Some val => unguarded_linear_insert_loop val a last
  | None => a
  end.

(** [val = *i; move_backward(first, i, i + 1); *first = val] *)
Definition move_to_first (a : list A) (first i : nat) : list A :=
  match a !! i with
  | Some val => take first a ++ val :: take (i - first) (drop first a) ++ drop (S i) a
  | None => a
  end.

Fixpoint insertion_sort_loop (todo : nat) (a : list A) (first i : nat) : list A :=
  match todo with
  | O => a
  | S todo' =>
      let a := if comp_at a i first then move_to_first a first i
               else unguarded_linear_insert a i in
      insertion_sort_loop todo' a first (S i)
  end.

Definition insertion_sort (a : list A) (first last : nat) : list A :=
  if decide (first = last) then a
  else insertion_sort_loop (last - (first + 1)) a first (first + 1).

Fixpoint unguarded_insertion_sort_loop (todo : nat) (a : list A) (i : nat) : list A :=
  match todo with
  | O => a
  | S todo' => unguarded_insertion_sort_loop todo' (unguarded_linear_insert a i) (S i)
  end.

Definition unguarded_insertion_sort (a : list A) (first last : nat) : list A :=
  unguarded_insertion_sort_loop (last - first) a first.

Definition final_insertion_sort (a : list A) (first last : nat) : list A :=
  if decide (S_threshold < last - first) then
    unguarded_insertion_sort (insertion_sort a first (first + S_threshold))
      (first + S_threshold) last
  else insertion_sort a first last.

(** [std::sort(v.begin(), v.end(), comp)]; [Nat.log2] is [std::__lg]. *)
Definition std_sort (l : list A) : list A :=
  match l with
  | [] => []
  | _ =>
      let last := length l in
      final_insertion_sort (introsort_loop (Nat.log2 last * 2) l 0 last) 0 last
  end.

(** The place that the linear insertion gives to [x] among the elements
    before it, the list being read from the last of them backwards. *)
Fixpoint insert_sorted (x : A) (l : list A) : list A :=
  match l with
  | [] => [x]
  | y :: l' => if comp y x then y :: insert_sorted x l' else x :: l
  end.

Definition asymmetric : Prop := forall x y, comp x y = true -> comp y x = false.

(** The result of [std::sort]: each element is followed only by elements
    that [comp] does not put before it. *)
Definition ordered_by (l : list A) : Prop :=
  StronglySorted (fun a b => comp b a = false) l.

Definition sort_result (l l' : list A) : Prop :=
  Permutation l l' /\ ordered_by l'.
End StdSort.

(* ===================================================================== *)
(** * Drawing functions *)
(* ===================================================================== *)

(** [drawSystemInfo] computes the memory percentage of the summary line as
    [100.0 * (double)memUsed / (double)memTotal]. *)
Definition drawSystemInfo_memPercent (memUsed memTotal : Z) : double :=
  div (mul hundred (of_Z memUsed)) (of_Z memTotal).

(* ===================================================================== *)
(** * Main function *)
(* ===================================================================== *)

(** The global variables. *)
Record Monitor : Type := {
  currentSortMode : SortMode;
  prevProcessTimes : gmap Z (Z * Z);
  prevSysCpuTimes : SysCpuTimes;
  usernameCache : gmap Z string
}.

(** What the pseudo-files hold when one iteration of the main loop reads
    them. *)
Record Sources : Type := {
  meminfo : option string;      (* /proc/meminfo *)
  meminfo_junk : Z;             (* what the slot of [value] holds on entry *)
  proc_stat : option string;    (* /proc/stat *)
  procfs : ProcFS
}.

(** What one iteration hands to the drawing functions. *)
Record Frame : Type := {
  sysCpuUsage : double;
  memUsed : Z;
  memTotal : Z;
  processes : list Process
}.

Definition sort_processes (mode : SortMode) (processes : list Process) : list Process :=
  match mode with
  | BY_CPU => std_sort compareByCpu processes
  | BY_MEM => std_sort compareByMem processes
  | BY_PID => std_sort compareByPid processes
  end.

(** [for (const auto &p : processes) prevProcessTimes[p.pid] = {p.utime, p.stime};] *)
Definition record_times (table : gmap Z (Z * Z)) (processes : list Process)
  : gmap Z (Z * Z) :=
  foldl (fun m p => <[pid p := (utime p, stime p)]> m) table processes.

(** Step 2 of [main], the initial data load. *)
Definition initial_load (cache : gmap Z string) (proc_stat : option string) (fs : ProcFS)
  : result Monitor :=
  let prevSys := getSystemCpuTimes proc_stat in
  tempProcs ← getProcesses cache ∅ fs 1 1;
  Returned {| currentSortMode := BY_CPU;
              prevProcessTimes := record_times ∅ tempProcs;
              prevSysCpuTimes := prevSys;
              usernameCache := cache |}.

(** Parts B and C of the main loop: gather, derive, sort, and keep the
    current counters for the next iteration. *)
Definition tick (src : Sources) (st : Monitor) : result (Monitor * Frame) :=
  let memInfo := getMemoryInfo (meminfo_junk src) (meminfo src) in
  let memTotal := fst memInfo in
  let memAvailable := snd memInfo in
  let memUsed := sub64 memTotal memAvailable in
  let currentSysCpuTimes := getSystemCpuTimes (proc_stat src) in
  let totalDelta := sub64 (SysCpu.total currentSysCpuTimes) (SysCpu.total (prevSysCpuTimes st)) in
  let idleDelta := sub64 (SysCpu.idle currentSysCpuTimes) (SysCpu.idle (prevSysCpuTimes st)) in
  let sysCpuUsage :=
    if 0 <? totalDelta
    then div (mul hundred (of_Z (sub64 totalDelta idleDelta))) (of_Z totalDelta)
    else zero in
  processes ← getProcesses (usernameCache st) (prevProcessTimes st) (procfs src)
                           memTotal totalDelta;
  let processes := sort_processes (currentSortMode st) processes in
  Returned ({| currentSortMode := currentSortMode st;
               prevProcessTimes := record_times ∅ processes;
               prevSysCpuTimes := currentSysCpuTimes;
               usernameCache := usernameCache st |},
            {| sysCpuUsage := sysCpuUsage; memUsed := memUsed; memTotal := memTotal;
               processes := processes |}).

(** Part A of the main loop: the key read by [getch]. *)
Definition select_mode (ch : Z) (mode : SortMode) : SortMode :=
  if ch =? 99 then BY_CPU          (* 'c' *)
  else if ch =? 109 then BY_MEM    (* 'm' *)
  else if ch =? 112 then BY_PID    (* 'p' *)
  else mode.

Inductive iteration : Type :=
| Quit
| Waiting                                   (* the kill window waits for a key *)
| Drawn (st : Monitor) (signals : list (Z * Z)) (frame : Frame).

(** One iteration of the main loop on the key [ch]; [modal_keys] and [pidStr]
    are the keys typed into the kill window and its uninitialised buffer. *)
Definition main_iteration (ch : Z) (modal_keys : list Z) (pidStr : list ascii)
    (src : Sources) (st : Monitor) : result iteration :=
  if ch =? 113 then Returned Quit    (* 'q' *)
  else
    let st' := {| currentSortMode := select_mode ch (currentSortMode st);
                  prevProcessTimes := prevProcessTimes st;
                  prevSysCpuTimes := prevSysCpuTimes st;
                  usernameCache := usernameCache st |} in
    let modal := if ch =? 107 then killProcessWindow modal_keys pidStr else Some [] in
    match modal with
    | None => Returned Waiting
    | Some signals =>
        r ← tick src st';
        Returned (Drawn (fst r) signals (snd r))
    end.

(* ===================================================================== *)
(** * The formulas of the specification *)
(* ===================================================================== *)

(** [100 x part / whole] when [whole > 0], else [0], evaluated in binary64
    as the program writes it: [100.0 * (double)part / (double)whole]. *)
Definition percent (part whole : Z) : double :=
  if 0 <? whole then div (mul hundred (of_Z part)) (of_Z whole) else zero.

(** The directory entries that [std::stoi] accepts as a pid. *)
Definition is_pid_name (d_name : string) : bool :=
  match stoi d_name with
  | Returned _ => true
  | Threw _ => false
  end.

(** The local variables [totalDelta], [idleDelta] and [memTotal] of an
    iteration of the main loop, as functions of what the iteration reads and
    of the globals it starts from. *)
Definition totalCpuDelta (src : Sources) (st : Monitor) : Z :=
  sub64 (SysCpu.total (getSystemCpuTimes (proc_stat src)))
        (SysCpu.total (prevSysCpuTimes st)).

Definition idleDelta (src : Sources) (st : Monitor) : Z :=
  sub64 (SysCpu.idle (getSystemCpuTimes (proc_stat src)))
        (SysCpu.idle (prevSysCpuTimes st)).

Definition totalSystemMemKb (src : Sources) : Z :=
  fst (getMemoryInfo (meminfo_junk src) (meminfo src)).

(** The exact sum of the eight counters of a sample. *)
Definition sum_of_fields (t : SysCpuTimes) : Z :=
  SysCpu.user t + SysCpu.nice t + SysCpu.system t + SysCpu.idle t
  + SysCpu.iowait t + SysCpu.irq t + SysCpu.softirq t + SysCpu.steal t.

(* ===================================================================== *)
(** * A concrete machine *)
(* ===================================================================== *)

(** One process, pid 7, owned by uid 1000, between two samples of the
    counters; used to run the definitions on actual file contents. *)
Module Scenario.

Definition nl : string := String newline EmptyString.
Definition tab : string := String (ascii_of_nat 9) EmptyString.

Definition cpu_line_1 : string := "cpu 100 0 50 850 0 0 0 0".
Definition cpu_line_2 : string := "cpu 110 0 60 870 0 0 0 0".

Definition meminfo_text : string :=
  ("MemTotal:        8000000 kB" ++ nl ++
   "MemFree:          500000 kB" ++ nl ++
   "MemAvailable:    2000000 kB" ++ nl ++
   "Buffers:           10000 kB" ++ nl)%string.

(** /proc/7/stat with the given fields 14 and 15. *)
Definition stat_text (utime stime : string) : string :=
  ("7 (cat) S 1 7 7 0 -1 4194304 100 0 0 0 " ++ utime ++ " " ++ stime
   ++ " 0 0 20 0 1 0 100 1000 50" ++ nl)%string.

Definition status_text : string :=
  ("Name:" ++ tab ++ "cat" ++ nl ++
   "Umask:" ++ tab ++ "0022" ++ nl ++
   "Uid:" ++ tab ++ "1000" ++ tab ++ "1000" ++ tab ++ "1000" ++ tab ++ "1000" ++ nl ++
   "VmRSS:" ++ tab ++ "  100000 kB" ++ nl)%string.

(** The directory holds [entries]; the files of [the_pid] exist, and its
    status file is still there at the second open iff [still_there]. *)
Definition fs (entries : list string) (the_pid : Z) (utime stime : string)
    (still_there : bool) : ProcFS :=
  {| proc_entries := Some entries;
     stat_file := fun p => if p =? the_pid then Some (stat_text utime stime) else None;
     status_file := fun p => if p =? the_pid then Some status_text else None;
     status_reopened := fun p =>
       if (p =? the_pid) && still_there then Some status_text else None |}.

Definition src (procfs : ProcFS) : Sources :=
  {| meminfo := Some meminfo_text; meminfo_junk := 0;
     proc_stat := Some cpu_line_2; procfs := procfs |}.

(** The globals after a sample that saw pid 7 with the given counters. *)
Definition st (mode : SortMode) (utime stime : Z) : Monitor :=
  {| currentSortMode := mode;
     prevProcessTimes := {[ 7 := (utime, stime) ]};
     prevSysCpuTimes := getSystemCpuTimes (Some cpu_line_1);
     usernameCache := {[ 0 := "root"%string; 1000 := "alice"%string ]} |}.

Definition proc (pid : Z) (user : string) (cpu : double) (utime stime : Z) : Process :=
  {| pid := pid; user := user; name := "cat";
     cpuPercent := cpu; memPercent := Prim2SF 1.25%float;
     memRssKb := 100000; utime := utime; stime := stime |}.

Definition frame (ps : list Process) : Frame :=
  {| sysCpuUsage := Prim2SF 50%float; memUsed := 6000000; memTotal := 8000000;
     processes := ps |}.

Definition st' (mode : SortMode) (ps : list Process) : Monitor :=
  {| currentSortMode := mode;
     prevProcessTimes := record_times ∅ ps;
     prevSysCpuTimes := getSystemCpuTimes (Some cpu_line_2);
     usernameCache := {[ 0 := "root"%string; 1000 := "alice"%string ]} |}.

(** The usual directory, and pid 7 having used 10 ticks in each mode
    since the previous sample. *)
Definition entries : list string := ["."; ".."; "self"; "7"; "uptime"]%string.
Definition fs_1 : ProcFS := fs entries 7 "20" "15" true.
Definition p_1 : Process := proc 7 "alice" (Prim2SF 50%float) 20 15.

End Scenario.

(** What holds of a process [p] that the iteration of the [readdir] loop on
    the entry [d_name] pushes. *)
Record pushed_from (cache : gmap Z string) (prev : gmap Z (Z * Z)) (fs : ProcFS)
    (memKb cpuDelta : Z) (d_name : string) (p : Process) : Prop := {
  pushed_pid : stoi d_name = Returned (pid p);
  pushed_stat : is_Some (stat_file fs (pid p));
  pushed_status : is_Some (status_file fs (pid p));
  pushed_name : name p <> EmptyString;
  pushed_user : user p = getUsername cache fs (pid p);
  pushed_cpu :
    cpuPercent p = percent (processTimeDelta prev (pid p) (utime p) (stime p)) cpuDelta;
  pushed_mem : memPercent p = percent (memRssKb p) memKb;
  pushed_utime : in_range 64 (utime p);
  pushed_stime : in_range 64 (stime p);
  pushed_rss : in_range 64 (memRssKb p)
}.

(** What a completed iteration has computed. *)
Record tick_done (src : Sources) (st st' : Monitor) (frame : Frame) : Prop := {
  done_sampled : exists sampled,
    getProcesses (usernameCache st) (prevProcessTimes st) (procfs src)
      (totalSystemMemKb src) (totalCpuDelta src st) = Returned sampled
    /\ processes frame = sort_processes (currentSortMode st) sampled;
  done_table : prevProcessTimes st' = record_times ∅ (processes frame);
  done_sys : prevSysCpuTimes st' = getSystemCpuTimes (proc_stat src);
  done_usage :
    sysCpuUsage frame
    = percent (sub64 (totalCpuDelta src st) (idleDelta src st)) (totalCpuDelta src st);
  done_memTotal : memTotal frame = totalSystemMemKb src
}.

(** The user name that the username cache gives for the owner of [pid]:
    [None] when the status file cannot be read or its uid is not cached. *)
Definition resolved_user (cache : gmap Z string) (fs : ProcFS) (pid : Z) : option string :=
  content ← status_reopened fs pid;
  cache !! scan_uid (lines content) 0.

Definition cpu_not_nan (p : Process) : Prop := is_nan (cpuPercent p) = false.

(** The input buffer of the kill window: the first [i] characters of
    [pidStr]. *)
Definition buffer (pidStr : list ascii) (i : Z) : list ascii := take (Z.to_nat i) pidStr.

Definition all_digits (s : list ascii) : Prop := Forall (fun c => isdigit c = true) s.

(** What the loop maintains: the array keeps its 20 cells, the index stays
    within 0..19 and the buffer holds digits only. *)
Definition buffer_ok (pidStr : list ascii) (i : Z) : Prop :=
  length pidStr = 20%nat /\ 0 <= i <= 19 /\ all_digits (buffer pidStr i).

(* ===================================================================== *)
(** * Text as the kernel writes it *)
(* ===================================================================== *)

(** The decimal numeral of a non-negative integer, as the pseudo-files print
    counters and the process directory names pids. *)
Definition decimal (n : Z) : string := NilEmpty.string_of_uint (N.to_uint (Z.to_N n)).

(** The value of the digits [d] read after the value [acc]. *)
Fixpoint uint_value (acc : Z) (d : Decimal.uint) : Z :=
  match d with
  | Decimal.Nil => acc
  | Decimal.D0 l => uint_value (acc * 10 + 0) l
  | Decimal.D1 l => uint_value (acc * 10 + 1) l
  | Decimal.D2 l => uint_value (acc * 10 + 2) l
  | Decimal.D3 l => uint_value (acc * 10 + 3) l
  | Decimal.D4 l => uint_value (acc * 10 + 4) l
  | Decimal.D5 l => uint_value (acc * 10 + 5) l
  | Decimal.D6 l => uint_value (acc * 10 + 6) l
  | Decimal.D7 l => uint_value (acc * 10 + 7) l
  | Decimal.D8 l => uint_value (acc * 10 + 8) l
  | Decimal.D9 l => uint_value (acc * 10 + 9) l
  end.

(** Every character of [s] satisfies [f]. *)
Fixpoint string_all (f : ascii -> bool) (s : string) : bool :=
  match s with
  | EmptyString => true
  | String c s' => f c && string_all f s'
  end.

(** [s] is empty or begins with a character that satisfies [f]. *)
Definition stops_at (f : ascii -> bool) (s : string) : Prop :=
  match s with
  | EmptyString => True
  | String c _ => f c = true
  end.

Definition blanks (s : string) : Prop := string_all isspace s = true.
Definition word (s : string) : Prop :=
  s <> EmptyString /\ string_all (fun c => negb (isspace c)) s = true.
Definition one_line (s : string) : Prop :=
  string_all (fun c => negb (Ascii.eqb c newline)) s = true.

(** A separator between two fields of a line: spaces and tabs, at least
    one. *)
Definition is_blank (c : ascii) : bool := Ascii.eqb c " " || Ascii.eqb c (ascii_of_nat 9).
Definition gap (s : string) : Prop := s <> EmptyString /\ string_all is_blank s = true.

(** Numbers, each after its separator. *)
Fixpoint fields_text (fs : list (string * Z)) : string :=
  match fs with
  | [] => EmptyString
  | (sp, n) :: fs' => (sp ++ decimal n ++ fields_text fs')%string
  end.

(** Words, each after its separator. *)
Fixpoint words_text (ws : list (string * string)) : string :=
  match ws with
  | [] => EmptyString
  | (sp, w) :: ws' => (sp ++ w ++ words_text ws')%string
  end.

(** The eight counters of a sample, in the order of the line. *)
Definition cpu_fields (t : SysCpuTimes) : list Z :=
  [SysCpu.user t; SysCpu.nice t; SysCpu.system t; SysCpu.idle t;
   SysCpu.iowait t; SysCpu.irq t; SysCpu.softirq t; SysCpu.steal t].

(** The values that [k] successive extractions [ss >> n] leave in
    zero-initialised [long long] targets. *)
Fixpoint read_numbers (k : nat) (ss : istream) : list Z :=
  match k with
  | O => []
  | S k' => let (ss', w) := extract_signed 64 ss in stored 0 w :: read_numbers k' ss'
  end.

(** The first word of a line, as [ss >> key] reads it into an empty
    string. *)
Definition first_word (line : string) : string :=
  stored EmptyString (snd (extract_string (stream_of line))).

(** Reads the account database and caches UID -> user name; [passwd] is the
    sequence of entries ([pw_uid], [pw_name]) that [getpwent] delivers. *)
Definition loadUsernames (passwd : list (Z * string)) : gmap Z string :=
  foldl (fun cache pw => <[fst pw := snd pw]> cache) ∅ passwd.

(** What the scan of one directory entry adds to the result. *)
Definition pushed_by (cache : gmap Z string) (prev : gmap Z (Z * Z)) (fs : ProcFS)
    (memKb cpuDelta : Z) (d_name : string) : list Process :=
  match sample_entry cache prev fs memKb cpuDelta d_name with
  | Returned (Some p) => [p]
  | _ => []
  end.

Definition throws {A : Type} (r : result A) : Prop :=
  match r with
  | Threw _ => True
  | Returned _ => False
  end.

(** A line of a status file that [getProcesses] passes over. *)
Definition passed_over (line : string) : Prop :=
  starts_with "Name:" line = false /\ starts_with "VmRSS:" line = false.

Definition mem_not_nan (p : Process) : Prop := is_nan (memPercent p) = false.

(** The change that one key makes to the text typed into the kill window:
    backspace removes the last character, a digit is appended while fewer
    than 19 characters are held, any other key changes nothing. *)
Definition edit (text : list ascii) (ch : Z) : list ascii :=
  if (ch =? KEY_BACKSPACE) || (ch =? KEY_DEL) then take (length text - 1) text
  else if isdigit_code ch && (Z.of_nat (length text) <? 19) then text ++ [char_of ch]
  else text.

Definition typed (keys : list Z) : list ascii := foldl edit [] keys.

(** The keys that type the characters of [s]. *)
Definition keys_of (s : string) : list Z := code <$> list_ascii_of_string s.

(* ===================================================================== *)
(** * Drawing functions, continued *)
(* ===================================================================== *)

(** [(size_t)n] of an [int] [n] (LP64). *)
Definition to_size_t (n : Z) : Z := n mod 2 ^ 64.

(** [s.substr(0, count)]: the first [count] characters, or all of them. *)
Fixpoint take_chars (count : Z) (s : string) : string :=
  match s with
  | EmptyString => EmptyString
  | String c s' => if 0 <? count then String c (take_chars (count - 1) s') else EmptyString
  end.

(** The string [name] that [drawProcessList] hands to the formatting of a
    row on a screen [x] columns wide; [name.length() > maxNameLen] compares
    a [size_t] with an [int], and the count of [substr] is a [size_t].
    ([snprintf] then cuts the whole row to x - 1 characters; the formatted
    row is not part of the model.) *)
Definition display_name (x : Z) (name : string) : string :=
  let maxNameLen := wrap32 (x - 33) in
  if to_size_t maxNameLen <? Z.of_nat (String.length name)
  then (take_chars (to_size_t (wrap32 (maxNameLen - 3))) name ++ "...")%string
  else name.

(** The loop of [drawProcessList] from index [i] on: the screen row, the
    process and the name handed to [snprintf] for each row that is drawn. *)
Fixpoint draw_rows (x maxRows i : Z) (processes : list Process)
  : list (Z * Process * string) :=
  match processes with
  | [] => []
  | p :: rest =>
      if i <? maxRows
      then (5 + i, p, display_name x (name p)) :: draw_rows x maxRows (i + 1) rest
      else []
  end.

Definition drawProcessList (y x : Z) (processes : list Process)
  : list (Z * Process * string) :=
  let maxRows := wrap32 (y - 5) in
  draw_rows x maxRows 0 processes.

(** The loop that builds a bar of [drawSystemInfo]:
    [for (i = 0; i < barWidth; ++i) bar += (i < blocks) ? "|" : " ";] *)
Fixpoint bar_from (todo : nat) (i blocks : Z) (bar : string) : string :=
  match todo with
  | O => bar
  | S todo' =>
      bar_from todo' (i + 1) blocks
        (bar ++ (if (i <? blocks)%Z then "|"%string else " "%string))%string
  end.

Definition barWidth : nat := 20.
Definition draw_bar (blocks : Z) : string := bar_from barWidth 0 blocks EmptyString.

(** A bar of [width] cells of which the first [filled] are drawn. *)
Definition bar_cells (filled width : nat) : string :=
  string_of_list_ascii (replicate filled "|"%char ++ replicate (width - filled) " "%char).


(* ===================================================================== *)
(** * Facts about binary64 arithmetic *)
(* ===================================================================== *)

Module DoubleFacts.

Lemma fexp_unfold x : fexp prec emax x = Z.max (x - 53) (-1074).
Proof. reflexivity. Qed.

Lemma Zdigits2_pos_log2 p : Zpos (digits2_pos p) = Z.log2 (Zpos p) + 1.
Proof.
  assert (Hs : forall q, digits2_pos q = Pos.size q) by (induction q; simpl; congruence).
  rewrite Hs. destruct p; simpl; lia.
Qed.

Lemma shr_1_mantissa r : 0 <= shr_m r -> shr_m (shr_1 r) = shr_m r / 2.
Proof.
  destruct r as [m rb sb]; simpl. intros Hm.
  destruct m as [|[p|p|]|p]; cbn [shr_1 shr_m]; try lia; try reflexivity.
  - apply Z.div_unique with (r := 1); lia.
  - apply Z.div_unique with (r := 0); lia.
Qed.

Lemma iter_shr_1_mantissa k : forall r,
  0 <= shr_m r -> shr_m (SpecFloat.iter_pos shr_1 k r) = shr_m r / 2 ^ Zpos k.
Proof.
  induction k as [k IH|k IH|]; intros r Hr; simpl SpecFloat.iter_pos.
  - assert (Hp : 0 < 2 ^ Z.pos k) by (apply Z.pow_pos_nonneg; lia).
    assert (H1 : 0 <= shr_m (shr_1 r)) by (rewrite shr_1_mantissa by done; apply Z.div_pos; lia).
    assert (H2 : 0 <= shr_m (SpecFloat.iter_pos shr_1 k (shr_1 r)))
      by (rewrite IH by done; apply Z.div_pos; lia).
    rewrite IH, IH, shr_1_mantissa by done.
    rewrite !Z.div_div by lia. f_equal.
    rewrite Pos2Z.inj_xI, Z.pow_add_r, Z.pow_mul_r by lia.
    change (2 ^ 2) with 4. change (2 ^ 1) with 2.
    replace 4 with (2 * 2) by lia. rewrite Z.pow_mul_l. lia.
  - assert (Hp : 0 < 2 ^ Z.pos k) by (apply Z.pow_pos_nonneg; lia).
    assert (H2 : 0 <= shr_m (SpecFloat.iter_pos shr_1 k r))
      by (rewrite IH by done; apply Z.div_pos; lia).
    rewrite IH, IH by done.
    rewrite Z.div_div by lia. f_equal.
    rewrite Pos2Z.inj_xO, <- Z.pow_add_r by lia. f_equal. lia.
  - rewrite shr_1_mantissa by done. reflexivity.
Qed.

Lemma shr_record_of_loc_mantissa m l : shr_m (shr_record_of_loc m l) = m.
Proof. destruct l as [|[]]; reflexivity. Qed.

(** Shifting a non-negative mantissa keeps it non-negative. *)
Lemma shr_fexp_nonneg m e l :
  0 <= m -> 0 <= shr_m (fst (shr_fexp prec emax m e l)).
Proof.
  intros Hm. unfold shr_fexp, shr.
  destruct (fexp prec emax (Zdigits2 m + e) - e) as [|k|k]; simpl;
    rewrite ?iter_shr_1_mantissa, shr_record_of_loc_mantissa;
    rewrite ?shr_record_of_loc_mantissa; try done.
  apply Z.div_pos; [done | apply Z.pow_pos_nonneg; lia].
Qed.

(** Shifting a positive mantissa at an exponent not below the least one
    leaves a positive mantissa, and raises the exponent by less than the
    number of digits. *)
Lemma shr_fexp_pos p e l :
  -1074 <= e ->
  exists q, shr_m (fst (shr_fexp prec emax (Zpos p) e l)) = Zpos q
            /\ Zpos q <= Zpos p
            /\ e <= snd (shr_fexp prec emax (Zpos p) e l) <= e + Z.log2 (Zpos p).
Proof.
  intros He. unfold shr_fexp, shr. rewrite fexp_unfold.
  cbn [Zdigits2]. rewrite Zdigits2_pos_log2.
  pose proof (Z.log2_nonneg (Zpos p)) as Hl.
  destruct (Z.max (Z.log2 (Z.pos p) + 1 + e - 53) (-1074) - e) as [|k|k] eqn:Hn;
    cbn [fst snd]; rewrite ?shr_record_of_loc_mantissa.
  - exists p. lia.
  - rewrite iter_shr_1_mantissa, shr_record_of_loc_mantissa
      by (rewrite shr_record_of_loc_mantissa; lia).
    assert (Hk : Zpos k <= Z.log2 (Zpos p)) by lia.
    assert (Hp : 0 < 2 ^ Zpos k) by (apply Z.pow_pos_nonneg; lia).
    assert (Hle : 2 ^ Zpos k <= Zpos p).
    { transitivity (2 ^ Z.log2 (Zpos p)).
      - apply Z.pow_le_mono_r; lia.
      - apply Z.log2_spec; lia. }
    assert (Hq : 0 < Zpos p / 2 ^ Zpos k) by (apply Z.div_str_pos; lia).
    destruct (Zpos p / 2 ^ Zpos k) as [|q|q] eqn:Hd; try lia.
    exists q. repeat split; try lia.
    rewrite <- Hd. apply Z.div_le_upper_bound; nia.
  - exists p. lia.
Qed.

Lemma round_nearest_even_cases m l :
  round_nearest_even m l = m \/ round_nearest_even m l = m + 1.
Proof. destruct l as [|[]]; simpl; try destruct (Z.even m); auto. Qed.

(** Rounding a non-negative mantissa never yields a NaN and keeps the
    sign it is given. *)
Lemma binary_round_aux_sign s m e l :
  0 <= m -> has_sign s (binary_round_aux prec emax s m e l).
Proof.
  intros Hm. unfold binary_round_aux.
  pose proof (shr_fexp_nonneg m e l Hm) as H1.
  destruct (shr_fexp prec emax m e l) as [r1 e1]. cbn [fst] in H1.
  set (m2 := round_nearest_even (shr_m r1) (loc_of_shr_record r1)).
  assert (H2 : 0 <= m2)
    by (subst m2; destruct (round_nearest_even_cases (shr_m r1) (loc_of_shr_record r1)); lia).
  pose proof (shr_fexp_nonneg m2 e1 loc_Exact H2) as H3.
  destruct (shr_fexp prec emax m2 e1 loc_Exact) as [r3 e3]. cbn [fst] in H3.
  destruct (shr_m r3); try lia; [done|].
  destruct (e3 <=? emax - prec); done.
Qed.

(** Rounding a positive mantissa of moderate size yields a finite,
    non-zero value. *)
Lemma binary_round_aux_finite s p e l :
  -1074 <= e -> e + 2 * (Z.log2 (Zpos p) + 1) <= 971 ->
  exists m' e', binary_round_aux prec emax s (Zpos p) e l = S754_finite s m' e'.
Proof.
  intros He Hb. unfold binary_round_aux.
  destruct (shr_fexp_pos p e l He) as (q & Hq & Hqp & He1).
  destruct (shr_fexp prec emax (Zpos p) e l) as [r1 e1]. cbn [fst snd] in *.
  rewrite Hq.
  set (m2 := round_nearest_even (Zpos q) (loc_of_shr_record r1)).
  assert (H2 : Zpos q <= m2 <= Zpos q + 1)
    by (subst m2; destruct (round_nearest_even_cases (Zpos q) (loc_of_shr_record r1)); lia).
  destruct m2 as [|p2|p2]; try lia.
  destruct (shr_fexp_pos p2 e1 loc_Exact ltac:(lia)) as (q3 & Hq3 & _ & He3).
  destruct (shr_fexp prec emax (Zpos p2) e1 loc_Exact) as [r3 e3]. cbn [fst snd] in *.
  rewrite Hq3.
  assert (Hl2 : Z.log2 (Zpos p2) <= Z.log2 (Zpos p) + 1).
  { transitivity (Z.log2 (2 * Zpos p)).
    - apply Z.log2_le_mono. lia.
    - rewrite Z.log2_double; lia. }
  replace (e3 <=? emax - prec) with true.
  - eauto.
  - symmetry. apply Z.leb_le. change (emax - prec) with 971. lia.
Qed.

Lemma iter_xO_value p d : Zpos (Pos.iter xO p d) = Zpos p * 2 ^ Zpos d.
Proof.
  rewrite <- Z.shiftl_mul_pow2 by lia. cbn [Z.shiftl].
  apply Pos.iter_swap_gen. reflexivity.
Qed.

(** [(double)z] is never a NaN and has the sign of [z]. *)
Lemma of_Z_sign z : has_sign (z <? 0) (of_Z z).
Proof.
  unfold of_Z, binary_normalize, binary_round.
  destruct z as [|p|p]; [done| |];
    destruct (shl_align p 0 _) as [mz ez]; by apply binary_round_aux_sign.
Qed.

(** [(double)z] of a positive 64-bit integer is finite and not zero. *)
Lemma of_Z_finite z :
  0 < z <= LLONG_MAX -> exists m e, of_Z z = S754_finite false m e.
Proof.
  intros [Hz Hmax]. destruct z as [|p|p]; try lia.
  unfold of_Z, binary_normalize, binary_round, shl_align.
  rewrite fexp_unfold, Zdigits2_pos_log2.
  assert (Hl : 0 <= Z.log2 (Zpos p) < 63).
  { split; [apply Z.log2_nonneg|]. apply Z.log2_lt_pow2; [lia|].
    change LLONG_MAX with (2 ^ 63 - 1) in Hmax. lia. }
  destruct (Z.max (Z.log2 (Z.pos p) + 1 + 0 - 53) (-1074) - 0) as [|d|d] eqn:Hd.
  - apply binary_round_aux_finite; lia.
  - apply binary_round_aux_finite; lia.
  - apply binary_round_aux_finite; [lia|].
    rewrite iter_xO_value, Z.log2_mul_pow2 by lia. lia.
Qed.

Lemma mul_hundred_sign s x : has_sign s x -> has_sign s (mul hundred x).
Proof.
  intros [Hn Hs]. destruct x as [sx|sx| |sx mx ex]; try done; simpl in Hs; subst sx.
  unfold mul, hundred, SFmul. by apply binary_round_aux_sign.
Qed.

Lemma div_finite_sign s x m e :
  has_sign s x -> has_sign s (div x (S754_finite false m e)).
Proof.
  intros [Hn Hs]. destruct x as [sx|sx| |sx mx ex]; try done; simpl in Hs; subst sx;
    unfold div, SFdiv; rewrite ?xorb_false_r; try done.
  unfold SFdiv_core_binary.
  set (m' := match _ - _ with Z0 => _ | Zpos _ => _ | Zneg _ => _ end).
  assert (Hm' : 0 <= m').
  { subst m'. destruct (_ - _); try lia. apply Z.shiftl_nonneg. lia. }
  pose proof (Z.div_pos m' (Zpos m) Hm' ltac:(lia)) as Hq.
  unfold Z.div in Hq. destruct (Z.div_eucl m' (Zpos m)) as [q r].
  by apply binary_round_aux_sign.
Qed.

(** A value with a clear sign bit that is not a NaN compares [>= 0.0]. *)
Lemma has_sign_false_geb x : has_sign false x -> geb x zero = true.
Proof. intros [Hn Hs]. destruct x as [sx|sx| |sx mx ex]; simpl in *; by subst. Qed.

Lemma has_sign_true_not_geb x : has_sign true x -> gtb x zero = false.
Proof. intros [Hn Hs]. destruct x as [sx|sx| |sx mx ex]; simpl in *; by subst. Qed.

(** ** The percentage formula *)

Lemma percent_sign part whole :
  0 < whole <= LLONG_MAX -> has_sign (part <? 0) (percent part whole).
Proof.
  intros Hw. unfold percent. replace (0 <? whole) with true by (symmetry; apply Z.ltb_lt; lia).
  destruct (of_Z_finite whole Hw) as (m & e & ->).
  apply div_finite_sign, mul_hundred_sign, of_Z_sign.
Qed.

Lemma percent_not_nan part whole :
  whole <= LLONG_MAX -> is_nan (percent part whole) = false.
Proof.
  intros Hw. destruct (Z.ltb_spec 0 whole) as [Hpos|Hle].
  - apply (percent_sign part whole). lia.
  - unfold percent. replace (0 <? whole) with false by (symmetry; apply Z.ltb_ge; lia). done.
Qed.

Lemma percent_nonneg part whole :
  0 <= part -> 0 < whole <= LLONG_MAX -> geb (percent part whole) zero = true.
Proof.
  intros Hp Hw. apply has_sign_false_geb.
  replace false with (part <? 0) by (apply Z.ltb_ge; lia).
  by apply percent_sign.
Qed.

Lemma percent_zero part whole : whole <= 0 -> percent part whole = zero.
Proof. intros Hw. unfold percent. by replace (0 <? whole) with false by (symmetry; apply Z.ltb_ge; lia). Qed.

End DoubleFacts.
Import DoubleFacts.
(* ===================================================================== *)
(** * Facts about machine integers *)
(* ===================================================================== *)

Module MachineIntFacts.

Lemma wrap64_range z : in_range 64 (wrap64 z).
Proof.
  unfold in_range, wrap64, wrap, smin, smax.
  pose proof (Z.mod_pos_bound (z + 2 ^ (64 - 1)) (2 ^ 64) ltac:(lia)). lia.
Qed.

Lemma wrap64_id z : in_range 64 z -> wrap64 z = z.
Proof.
  unfold in_range, wrap64, wrap, smin, smax. intros Hz.
  rewrite Z.mod_small; lia.
Qed.

Lemma wrap64_add_l a b : wrap64 (wrap64 a + b) = wrap64 (a + b).
Proof.
  unfold wrap64, wrap. f_equal.
  replace ((a + 2 ^ (64 - 1)) mod 2 ^ 64 - 2 ^ (64 - 1) + b + 2 ^ (64 - 1))
    with ((a + 2 ^ (64 - 1)) mod 2 ^ 64 + b) by lia.
  rewrite Zplus_mod_idemp_l. f_equal. lia.
Qed.

Lemma in_rangeb_spec w z : in_rangeb w z = true <-> in_range w z.
Proof. unfold in_rangeb, in_range. rewrite andb_true_iff, !Z.leb_le. tauto. Qed.

Lemma sub64_zero_r z : in_range 64 z -> sub64 z 0 = z.
Proof. intros Hz. unfold sub64. rewrite Z.sub_0_r. by apply wrap64_id. Qed.

Lemma add64_range a b : in_range 64 (add64 a b).
Proof. apply wrap64_range. Qed.

Lemma sub64_range a b : in_range 64 (sub64 a b).
Proof. apply wrap64_range. Qed.

Lemma in_range_64_max z : in_range 64 z -> z <= LLONG_MAX.
Proof. unfold in_range, LLONG_MAX. lia. Qed.

End MachineIntFacts.
Import MachineIntFacts.

(* ===================================================================== *)
(** * Facts about parsing *)
(* ===================================================================== *)

Module TextFacts.

Lemma digit_value_nonneg c : isdigit c = true -> 0 <= digit_value c <= 9.
Proof.
  unfold isdigit, isdigit_code, digit_value. intros H.
  apply andb_true_iff in H as [H1 H2]. apply Z.leb_le in H1, H2. lia.
Qed.

Lemma take_digits_nonneg s : forall acc seen m,
  0 <= acc -> fst (take_digits acc seen s) = Some m -> 0 <= m.
Proof.
  induction s as [|c s IH]; intros acc seen m Hacc; simpl.
  - destruct seen; [|done]. intros [= <-]. done.
  - destruct (isdigit c) eqn:Hc.
    + apply IH. pose proof (digit_value_nonneg c Hc). lia.
    + simpl. destruct seen; [|done]. intros [= <-]. done.
Qed.

Lemma scan_integer_nonneg s neg m r :
  scan_integer s = (neg, Some m, r) -> 0 <= m.
Proof.
  unfold scan_integer. destruct s as [|c s]; [done|].
  destruct (Ascii.eqb c "-"); [|destruct (Ascii.eqb c "+")];
    match goal with |- context [take_digits 0 false ?x] =>
      pose proof (take_digits_nonneg x 0 false m ltac:(lia));
      destruct (take_digits 0 false x) as [m' r'] end;
    intros [= ? ? ?]; subst; auto.
Qed.

(** Whatever [ss >> n] writes into a 64-bit target fits into it. *)
Lemma extract_signed_range ss v :
  snd (extract_signed 64 ss) = Some v -> in_range 64 v.
Proof.
  unfold extract_signed. destruct (failbit ss); [done|].
  destruct (skipws (unread ss)) as [|c s] eqn:Hs; [done|].
  destruct (scan_integer (String c s)) as [[neg [m|]] r] eqn:Hscan.
  - pose proof (scan_integer_nonneg _ _ _ _ Hscan) as Hm.
    destruct neg.
    + destruct (Z.leb_spec m (- smin 64)); simpl; intros [= <-];
        unfold in_range, smin, smax in *; lia.
    + destruct (Z.leb_spec m (smax 64)); simpl; intros [= <-];
        unfold in_range, smin, smax in *; lia.
  - destruct neg; simpl; intros [= <-]; unfold in_range, smin, smax; lia.
Qed.

Lemma stored_range old w :
  in_range 64 old -> (forall v, w = Some v -> in_range 64 v) -> in_range 64 (stored old w).
Proof. intros Ho Hw. destruct w; simpl; auto. Qed.

Lemma sto_signed_range w s v : sto_signed w s = Returned v -> in_range w v.
Proof.
  unfold sto_signed. destruct (scan_integer (skipws s)) as [[neg [m|]] r]; [|done].
  destruct (in_rangeb w _) eqn:Hr; [|done].
  intros [= <-]. by apply in_rangeb_spec.
Qed.

(** A name without a leading integer is refused by [std::stoi]. *)
Lemma stoi_self : stoi "self" = Threw invalid_argument.
Proof. reflexivity. Qed.

End TextFacts.
Import TextFacts.

(* ===================================================================== *)
(** * Facts about the sampler *)
(* ===================================================================== *)

(** Reduce a sequencing step once its first computation is known. *)
Ltac step_result := cbn [mbind result_bind mret result_ret].

Section SamplerFacts.
Context (cache : gmap Z string) (prev : gmap Z (Z * Z)) (fs : ProcFS).
Context (memKb cpuDelta : Z).

Local Abbreviation pushed := (pushed_from cache prev fs memKb cpuDelta).

Lemma scan_status_range ls : forall nm kb nm' kb',
  in_range 64 kb ->
  scan_status ls nm kb = Returned (nm', kb') -> in_range 64 kb'.
Proof.
  induction ls as [|line ls IH]; intros nm kb nm' kb' Hkb; cbn [scan_status].
  - by intros [= _ <-].
  - destruct (starts_with "Name:" line).
    + destruct (substr_from 6 line) as [v|e]; step_result; [apply IH; done | done].
    + destruct (starts_with "VmRSS:" line); [|by apply IH].
      destruct (substr_from 7 line) as [v|e]; step_result; [|done].
      destruct (stol v) as [n|e] eqn:Hn; step_result; [|done].
      apply IH. by apply sto_signed_range in Hn.
Qed.

Lemma sample_entry_pushed d_name p :
  sample_entry cache prev fs memKb cpuDelta d_name
    = Returned (Some p) ->
  pushed d_name p.
Proof.
  unfold sample_entry.
  destruct (stoi d_name) as [n|e] eqn:Hpid; [|done].
  destruct (stat_file fs n) as [content|] eqn:Hstat; [|done].
  destruct (extract_signed 64 (skip_fields 13 _)) as [ss1 w1] eqn:E1.
  destruct (extract_signed 64 ss1) as [ss2 w2] eqn:E2.
  destruct (status_file fs n) as [status|] eqn:Hstatus; [|done].
  destruct (scan_status (lines status) EmptyString 0) as [[nm kb]|e] eqn:Hscan;
    step_result; [|done].
  destruct (String.eqb nm EmptyString) eqn:Hnm; [done|].
  intros [= <-]. split; simpl; try done.
  - intros ->. by rewrite String.eqb_refl in Hnm.
  - apply stored_range; [done|]. intros v Hv. apply (extract_signed_range (skip_fields 13 (stream_of (first_line (Some content))))).
    by rewrite E1.
  - apply stored_range; [done|]. intros v Hv. apply (extract_signed_range ss1).
    by rewrite E2.
  - eapply scan_status_range; [|exact Hscan]. done.
Qed.

(** An entry whose name [std::stoi] refuses is skipped: nothing is pushed
    and nothing is thrown. *)
Lemma sample_entry_not_numeric d_name e :
  stoi d_name = Threw e ->
  sample_entry cache prev fs memKb cpuDelta d_name = Returned None.
Proof. intros H. unfold sample_entry. by rewrite H. Qed.

Lemma scan_entries_elem entries : forall acc processes p,
  scan_entries cache prev fs memKb cpuDelta entries acc
    = Returned processes ->
  p ∈ processes ->
  p ∈ acc \/ exists d_name, d_name ∈ entries /\ pushed d_name p.
Proof.
  induction entries as [|d entries IH]; intros acc processes p; cbn [scan_entries].
  - intros [= <-]. auto.
  - destruct (sample_entry _ _ _ _ _ d) as [[q|]|e] eqn:Hd; step_result; [| |done].
    + intros Hscan Hp. destruct (IH _ _ _ Hscan Hp) as [Hacc|(d' & Hd' & Hfrom)].
      * apply elem_of_app in Hacc as [Hacc|Hq]; [by left|].
        apply list_elem_of_singleton in Hq as ->.
        right. exists d. split; [left | by apply sample_entry_pushed].
      * right. exists d'. split; [by right | done].
    + intros Hscan Hp. destruct (IH _ _ _ Hscan Hp) as [Hacc|(d' & Hd' & Hfrom)].
      * by left.
      * right. exists d'. split; [by right | done].
Qed.

(** Every process that [getProcesses] returns was pushed for some entry
    of the directory. *)
Lemma getProcesses_elem processes p :
  getProcesses cache prev fs memKb cpuDelta = Returned processes ->
  p ∈ processes ->
  exists entries d_name,
    proc_entries fs = Some entries /\ d_name ∈ entries /\ pushed d_name p.
Proof.
  unfold getProcesses. destruct (proc_entries fs) as [entries|].
  - intros Hscan Hp. destruct (scan_entries_elem _ _ _ _ Hscan Hp) as [Hnil|(d & Hd & Hfrom)].
    + by apply elem_of_nil in Hnil.
    + eauto.
  - intros [= <-] Hp. by apply elem_of_nil in Hp.
Qed.

(** Entries that [std::stoi] refuses can be dropped from the directory
    without changing the outcome of the scan. *)
Lemma scan_entries_numeric entries : forall acc,
  scan_entries cache prev fs memKb cpuDelta entries acc
  = scan_entries cache prev fs memKb cpuDelta
      (List.filter is_pid_name entries) acc.
Proof.
  induction entries as [|d entries IH]; intros acc; [done|].
  cbn [List.filter]. unfold is_pid_name at 1.
  destruct (stoi d) as [n|e] eqn:Hd.
  - cbn [scan_entries].
    destruct (sample_entry _ _ _ _ _ d) as [r|e]; step_result; [apply IH | done].
  - cbn [scan_entries]. rewrite (sample_entry_not_numeric d e Hd). step_result. apply IH.
Qed.

End SamplerFacts.

(* ===================================================================== *)
(** * Facts about the order of doubles *)
(* ===================================================================== *)

Module OrderFacts.

Ltac by_compare :=
  repeat match goal with
  | |- context [Z.compare ?a ?b] => destruct (Z.compare_spec a b)
  | H : context [Z.compare ?a ?b] |- _ => destruct (Z.compare_spec a b)
  | |- context [Pos.compare_cont Eq ?a ?b] =>
      change (Pos.compare_cont Eq a b) with (Pos.compare a b);
      destruct (Pos.compare_spec a b)
  | H : context [Pos.compare_cont Eq ?a ?b] |- _ =>
      change (Pos.compare_cont Eq a b) with (Pos.compare a b) in H;
      destruct (Pos.compare_spec a b)
  end.

Lemma SFleb_refl x : is_nan x = false -> SFleb x x = true.
Proof.
  destruct x as [[]|[]| |[] m e]; try done; intros _;
    unfold SFleb, SFcompare; by_compare; simpl; try done; lia.
Qed.

Lemma SFleb_trans x y z : SFleb x y = true -> SFleb y z = true -> SFleb x z = true.
Proof.
  destruct x as [[]|[]| |[] mx ex], y as [[]|[]| |[] my ey], z as [[]|[]| |[] mz ez];
    try done; unfold SFleb, SFcompare;
    by_compare; simpl; try done; try lia.
Qed.

Lemma SFltb_false_leb x y :
  is_nan x = false -> is_nan y = false -> SFltb x y = false -> SFleb y x = true.
Proof.
  destruct x as [[]|[]| |[] mx ex], y as [[]|[]| |[] my ey];
    try done; intros _ _; unfold SFleb, SFltb, SFcompare;
    by_compare; simpl; try done; try lia.
Qed.

Lemma SFleb_not_ltb x y : SFleb y x = true -> SFltb x y = false.
Proof.
  destruct x as [[]|[]| |[] mx ex], y as [[]|[]| |[] my ey];
    try done; unfold SFleb, SFltb, SFcompare;
    by_compare; simpl; try done; try lia.
Qed.

Lemma SFltb_asym x y : SFltb x y = true -> SFltb y x = false.
Proof.
  destruct x as [[]|[]| |[] mx ex], y as [[]|[]| |[] my ey];
    try done; unfold SFltb, SFcompare;
    by_compare; simpl; try done; try lia.
Qed.

End OrderFacts.
Import OrderFacts.

(* ===================================================================== *)
(** * Facts about sorting *)
(* ===================================================================== *)

Section ArrayFacts.
Context {A : Type}.
Local Open Scope nat_scope.
Implicit Types a : list A.

Lemma insert_pops a j x y :
  a !! j = Some y -> Permutation (x :: a) (y :: <[j := x]> a).
Proof.
  revert j. induction a as [|h a IH]; intros [|j] Hj; simplify_eq/=.
  - apply perm_swap.
  - rewrite (perm_swap h x), (IH j Hj). apply perm_swap.
Qed.

Lemma insert_swap_perm a i j x y :
  a !! i = Some x -> a !! j = Some y -> Permutation (<[j := x]> (<[i := y]> a)) a.
Proof.
  revert i j. induction a as [|h a IH]; intros [|i] [|j] Hi Hj; simplify_eq/=; try done.
  - symmetry. by apply insert_pops.
  - by rewrite <- (insert_pops a i y x).
  - constructor. by apply IH.
Qed.

(** Moving the element at [k] into the hole at [h] and leaving the hole at
    [k] permutes the array that the value [v] completes. *)
Lemma hole_step a h k x v :
  a !! k = Some x -> h < length a ->
  Permutation (<[k := v]> (<[h := x]> a)) (<[h := v]> a).
Proof.
  intros Hk Hh. destruct (decide (h = k)) as [->|Hne].
  - by rewrite !list_insert_insert_eq.
  - rewrite <- (list_insert_insert_eq a h x v).
    apply insert_swap_perm.
    + by apply list_lookup_insert_eq.
    + by rewrite list_lookup_insert_ne.
Qed.
End ArrayFacts.

Section PermFacts.
Context {A : Type} (comp : A -> A -> bool).
Local Open Scope nat_scope.
Implicit Types a : list A.

Lemma iter_swap_perm a i j : Permutation (iter_swap a i j) a.
Proof.
  unfold iter_swap. destruct (a !! i) as [x|] eqn:Hi; [|done].
  destruct (a !! j) as [y|] eqn:Hj; [|done]. by apply insert_swap_perm.
Qed.

Lemma move_median_to_first_perm a result x y z :
  Permutation (move_median_to_first comp a result x y z) a.
Proof. unfold move_median_to_first. repeat case_match; apply iter_swap_perm. Qed.

Lemma unguarded_partition_perm fuel : forall a first last pivot,
  Permutation (unguarded_partition comp fuel a first last pivot).1 a.
Proof.
  induction fuel as [|fuel IH]; intros a first last pivot; cbn [unguarded_partition]; [done|].
  case_decide; [|done]. rewrite IH. apply iter_swap_perm.
Qed.

Lemma unguarded_partition_pivot_perm a first last :
  Permutation (unguarded_partition_pivot comp a first last).1 a.
Proof.
  unfold unguarded_partition_pivot. rewrite unguarded_partition_perm.
  apply move_median_to_first_perm.
Qed.

Lemma push_heap_perm fuel : forall a first holeIndex topIndex value,
  first + holeIndex < length a ->
  Permutation (push_heap comp fuel a first holeIndex topIndex value)
              (<[first + holeIndex := value]> a).
Proof.
  induction fuel as [|fuel IH]; intros a first hole top value Hh; cbn [push_heap]; [done|].
  case_decide; [|done].
  destruct (a !! (first + (hole - 1) / 2)) as [x|] eqn:Hp; [|done].
  destruct (comp x value); [|done].
  rewrite IH by (rewrite length_insert; by apply lookup_lt_Some in Hp).
  by apply hole_step.
Qed.

Lemma adjust_heap_loop_perm fuel : forall a first holeIndex secondChild len a' hole' sc',
  adjust_heap_loop comp fuel a first holeIndex secondChild len = (a', hole', sc') ->
  first + holeIndex < length a ->
  first + hole' < length a'
  /\ forall v, Permutation (<[first + hole' := v]> a') (<[first + holeIndex := v]> a).
Proof.
  induction fuel as [|fuel IH]; intros a first hole sc len a' hole' sc' Heq Hh;
    cbn [adjust_heap_loop] in Heq.
  { by simplify_eq. }
  case_decide; [|by simplify_eq].
  set (c := if comp_at comp a (first + 2 * (sc + 1)) (first + (2 * (sc + 1) - 1))
            then 2 * (sc + 1) - 1 else 2 * (sc + 1)) in *.
  destruct (a !! (first + c)) as [x|] eqn:Hc; [|by simplify_eq].
  apply IH in Heq as [Hlt Hperm].
  - split; [done|]. intros v. rewrite Hperm. by apply hole_step.
  - rewrite length_insert. by apply lookup_lt_Some in Hc.
Qed.

Lemma adjust_heap_perm a first holeIndex len value :
  first + holeIndex < length a ->
  Permutation (adjust_heap comp a first holeIndex len value)
              (<[first + holeIndex := value]> a).
Proof.
  intros Hh. unfold adjust_heap.
  destruct (adjust_heap_loop comp len a first holeIndex holeIndex len)
    as [[a1 hole1] sc1] eqn:Hloop.
  destruct (adjust_heap_loop_perm _ _ _ _ _ _ _ _ _ Hloop Hh) as [Hlt Hperm].
  destruct (Nat.even len && (sc1 =? (len - 2) / 2)%nat).
  - destruct (a1 !! (first + (2 * (sc1 + 1) - 1))) as [x|] eqn:Hx.
    + rewrite push_heap_perm by (rewrite length_insert; by apply lookup_lt_Some in Hx).
      rewrite <- Hperm. by apply hole_step.
    + by rewrite push_heap_perm.
  - by rewrite push_heap_perm.
Qed.

Lemma pop_heap_perm a first last result : Permutation (pop_heap comp a first last result) a.
Proof.
  unfold pop_heap. destruct (a !! result) as [value|] eqn:Hr; [|done].
  destruct (a !! first) as [top|] eqn:Hf; [|done].
  rewrite adjust_heap_perm
    by (rewrite length_insert, Nat.add_0_r; by apply lookup_lt_Some in Hf).
  rewrite Nat.add_0_r. by apply insert_swap_perm.
Qed.

Lemma make_heap_loop_perm parent : forall a first len,
  Permutation (make_heap_loop comp a first len parent) a.
Proof.
  assert (Hstep : forall a first len p,
    Permutation (match a !! (first + p) with
                 | Some value => adjust_heap comp a first p len value
                 | None => a
                 end) a).
  { intros a first len p. destruct (a !! (first + p)) as [value|] eqn:Hp; [|done].
    rewrite adjust_heap_perm by (by apply lookup_lt_Some in Hp).
    by rewrite list_insert_id. }
  induction parent as [|parent IH]; intros a first len; cbn [make_heap_loop].
  - apply Hstep.
  - rewrite IH. apply Hstep.
Qed.

Lemma make_heap_perm a first last : Permutation (make_heap comp a first last) a.
Proof. unfold make_heap. case_decide; [done|]. apply make_heap_loop_perm. Qed.

Lemma sort_heap_perm last : forall a first, Permutation (sort_heap comp a first last) a.
Proof.
  induction last as [|last IH]; intros a first; cbn [sort_heap]; [done|].
  case_decide; [|done]. rewrite IH. apply pop_heap_perm.
Qed.

Lemma heap_select_loop_perm todo : forall a first middle i,
  Permutation (heap_select_loop comp todo a first middle i) a.
Proof.
  induction todo as [|todo IH]; intros a first middle i; cbn [heap_select_loop]; [done|].
  rewrite IH. destruct (comp_at comp a i first); [apply pop_heap_perm | done].
Qed.

Lemma partial_sort_perm a first middle last :
  Permutation (partial_sort comp a first middle last) a.
Proof.
  unfold partial_sort, heap_select.
  by rewrite sort_heap_perm, heap_select_loop_perm, make_heap_perm.
Qed.

Lemma introsort_loop_perm depth_limit : forall a first last,
  Permutation (introsort_loop comp depth_limit a first last) a.
Proof.
  induction depth_limit as [|d IH]; intros a first last; cbn [introsort_loop];
    case_decide; try done.
  - apply partial_sort_perm.
  - pose proof (unguarded_partition_pivot_perm a first last) as Hp.
    destruct (unguarded_partition_pivot comp a first last) as [a1 cut].
    by rewrite !IH.
Qed.

End PermFacts.

Section InsertionFacts.
Context {A : Type} (comp : A -> A -> bool).
Local Open Scope nat_scope.
Implicit Types a : list A.

Local Abbreviation precedes := (fun x y => comp y x = false).

Lemma insert_sorted_perm (c : A -> A -> bool) x l :
  Permutation (x :: l) (insert_sorted c x l).
Proof.
  induction l as [|y l IH]; simpl; [done|].
  destruct (c y x); [|done].
  rewrite perm_swap. by constructor.
Qed.

Lemma insert_sorted_Sorted (c : A -> A -> bool) x l :
  (forall u v, c u v = true -> c v u = false) ->
  Sorted (fun u v => c v u = false) l ->
  Sorted (fun u v => c v u = false) (insert_sorted c x l).
Proof.
  intros c_asym.
  induction 1 as [|y l Hl IH Hy]; simpl; [by repeat constructor|].
  destruct (c y x) eqn:Hyx.
  - constructor; [done|].
    destruct Hy as [|z l Hz]; simpl.
    + constructor. by apply c_asym.
    + destruct (c z x); constructor; [done | by apply c_asym].
  - constructor; [by constructor | by constructor].
Qed.

(** The loop of [__unguarded_linear_insert] on the array [pre ++ h :: tl],
    the hole being at [h]. *)
Lemma unguarded_linear_insert_loop_spec val pre : forall h tl,
  unguarded_linear_insert_loop comp val (pre ++ h :: tl) (length pre)
  = reverse (insert_sorted (flip comp) val (reverse pre)) ++ tl.
Proof.
  induction pre as [|x pre IH] using rev_ind; intros h tl; [done|].
  rewrite length_app, Nat.add_1_r. cbn [unguarded_linear_insert_loop length].
  rewrite <- (assoc_L (++)). cbn [app].
  rewrite (list_lookup_middle pre (h :: tl) x (length pre) eq_refl).
  rewrite reverse_snoc. cbn [insert_sorted]. unfold flip at 1.
  replace (<[S (length pre) := x]> (pre ++ x :: h :: tl)) with (pre ++ x :: x :: tl)
    by (by rewrite (insert_app_r_alt pre _ (S (length pre))) by lia;
        replace (S (length pre) - length pre) with 1 by lia).
  replace (<[S (length pre) := val]> (pre ++ x :: h :: tl)) with (pre ++ x :: val :: tl)
    by (by rewrite (insert_app_r_alt pre _ (S (length pre))) by lia;
        replace (S (length pre) - length pre) with 1 by lia).
  destruct (comp val x).
  - rewrite IH, reverse_cons, <- (assoc_L (++)). done.
  - rewrite !reverse_cons, reverse_involutive, <- !(assoc_L (++)). done.
Qed.

Lemma unguarded_linear_insert_spec pre val tl :
  exists pre',
    unguarded_linear_insert comp (pre ++ val :: tl) (length pre) = pre' ++ tl
    /\ Permutation pre' (pre ++ [val])
    /\ (asymmetric comp -> Sorted precedes pre -> Sorted precedes pre').
Proof.
  exists (reverse (insert_sorted (flip comp) val (reverse pre))).
  split; [|split].
  - unfold unguarded_linear_insert.
    rewrite (list_lookup_middle pre tl val (length pre) eq_refl).
    apply unguarded_linear_insert_loop_spec.
  - rewrite reverse_Permutation, <- insert_sorted_perm, reverse_Permutation.
    by rewrite Permutation_cons_append.
  - intros comp_asym Hpre. apply (Sorted_reverse (flip precedes)).
    apply (insert_sorted_Sorted (flip comp)).
    + intros u v. unfold flip. apply comp_asym.
    + by apply (Sorted_reverse precedes).
Qed.

Lemma insertion_step_spec pre val tl :
  pre <> [] ->
  let a := pre ++ val :: tl in
  exists pre',
    (if comp_at comp a (length pre) 0 then move_to_first a 0 (length pre)
     else unguarded_linear_insert comp a (length pre)) = pre' ++ tl
    /\ Permutation pre' (pre ++ [val])
    /\ (asymmetric comp -> Sorted precedes pre -> Sorted precedes pre').
Proof.
  intros Hne a.
  destruct (comp_at comp a (length pre) 0) eqn:Hc; [|by apply unguarded_linear_insert_spec].
  exists (val :: pre). unfold comp_at, move_to_first in *. subst a.
  rewrite (list_lookup_middle pre tl val (length pre) eq_refl) in *.
  split; [|split].
  - rewrite take_0, drop_0, Nat.sub_0_r. cbn [app].
    rewrite take_app_length.
    replace (S (length pre)) with (length (pre ++ [val]))
      by (rewrite length_app; simpl; lia).
    rewrite (cons_middle val pre tl), (assoc_L (++)), drop_app_length. done.
  - by rewrite Permutation_cons_append.
  - intros comp_asym Hpre. destruct pre as [|p0 pre]; [done|].
    cbn [app lookup list_lookup] in Hc.
    constructor; [done|]. constructor. by apply comp_asym.
Qed.

Lemma insertion_sort_loop_spec todo : forall pre rest,
  pre <> [] -> todo <= length rest ->
  exists pre',
    insertion_sort_loop comp todo (pre ++ rest) 0 (length pre) = pre' ++ drop todo rest
    /\ Permutation pre' (pre ++ take todo rest)
    /\ (asymmetric comp -> Sorted precedes pre -> Sorted precedes pre').
Proof.
  induction todo as [|todo IH]; intros pre rest Hne Hlen; cbn [insertion_sort_loop].
  { exists pre. by rewrite take_0, drop_0, app_nil_r. }
  destruct rest as [|val tl]; [simpl in Hlen; lia|]. simpl in Hlen.
  destruct (insertion_step_spec pre val tl Hne) as (pre1 & -> & Hperm1 & Hs1).
  assert (Hlen1 : length pre1 = S (length pre))
    by (rewrite Hperm1, length_app; simpl; lia).
  rewrite <- Hlen1.
  destruct (IH pre1 tl) as (pre' & -> & Hperm & Hs); [|lia|].
  { intros ->. simpl in Hlen1. lia. }
  exists pre'. split; [done|]. split; [|by auto].
  rewrite Hperm, Hperm1. cbn [take]. by rewrite <- (assoc_L (++)).
Qed.

Lemma unguarded_insertion_sort_loop_spec todo : forall pre rest,
  todo <= length rest ->
  exists pre',
    unguarded_insertion_sort_loop comp todo (pre ++ rest) (length pre)
    = pre' ++ drop todo rest
    /\ Permutation pre' (pre ++ take todo rest)
    /\ (asymmetric comp -> Sorted precedes pre -> Sorted precedes pre').
Proof.
  induction todo as [|todo IH]; intros pre rest Hlen;
    cbn [unguarded_insertion_sort_loop].
  { exists pre. by rewrite take_0, drop_0, app_nil_r. }
  destruct rest as [|val tl]; [simpl in Hlen; lia|]. simpl in Hlen.
  destruct (unguarded_linear_insert_spec pre val tl) as (pre1 & -> & Hperm1 & Hs1).
  assert (Hlen1 : length pre1 = S (length pre))
    by (rewrite Hperm1, length_app; simpl; lia).
  rewrite <- Hlen1.
  destruct (IH pre1 tl) as (pre' & -> & Hperm & Hs); [lia|].
  exists pre'. split; [done|]. split; [|by auto].
  rewrite Hperm, Hperm1. cbn [take]. by rewrite <- (assoc_L (++)).
Qed.

(** [__insertion_sort] on the first [n] elements of a non-empty array. *)
Lemma insertion_sort_spec a n :
  0 < n <= length a ->
  exists pre',
    insertion_sort comp a 0 n = pre' ++ drop n a
    /\ Permutation pre' (take n a) /\ (asymmetric comp -> Sorted precedes pre').
Proof.
  intros Hn. unfold insertion_sort. case_decide; [lia|].
  destruct a as [|x a]; [simpl in Hn; lia|]. simpl in Hn.
  change (0 + 1) with 1.
  destruct (insertion_sort_loop_spec (n - 1) [x] a) as (pre' & Heq & Hperm & Hs);
    [done | lia |].
  exists pre'. cbn [app length] in Heq. rewrite Heq.
  replace n with (S (n - 1)) at 2 3 by lia.
  split; [done|]. split; [done|]. intros Hasym. apply Hs; [done | by repeat constructor].
Qed.

Lemma final_insertion_sort_spec a :
  a <> [] ->
  Permutation (final_insertion_sort comp a 0 (length a)) a
  /\ (asymmetric comp -> Sorted precedes (final_insertion_sort comp a 0 (length a))).
Proof.
  intros Hne. assert (0 < length a) by (destruct a; [done | simpl; lia]).
  unfold final_insertion_sort, S_threshold. change (0 + 16) with 16. case_decide.
  - destruct (insertion_sort_spec a 16) as (pre & -> & Hperm & Hs); [lia|].
    assert (Hlen : length pre = 16) by (rewrite Hperm, length_take; lia).
    unfold unguarded_insertion_sort.
    assert (Hrest : length (drop 16 a) = length a - 16) by apply length_drop.
    destruct (unguarded_insertion_sort_loop_spec (length a - 16) pre (drop 16 a))
      as (pre' & Heq & Hperm' & Hs'); [lia|].
    rewrite Hlen in Heq. rewrite Heq.
    rewrite drop_ge by lia. rewrite take_ge in Hperm' by lia.
    rewrite app_nil_r. split; [|by auto].
    by rewrite Hperm', Hperm, take_drop.
  - destruct (insertion_sort_spec a (length a)) as (pre & -> & Hperm & Hs); [lia|].
    rewrite drop_ge, app_nil_r by lia. split; [|done].
    by rewrite Hperm, take_ge.
Qed.

(** The model returns a permutation of its input. *)
Lemma std_sort_perm l : Permutation l (std_sort comp l).
Proof.
  destruct l as [|x l]; [done|]. unfold std_sort.
  set (b := introsort_loop comp _ _ _ _).
  assert (Hb : Permutation b (x :: l)) by apply introsort_loop_perm.
  rewrite <- (Permutation_length Hb).
  destruct (final_insertion_sort_spec b) as [Hperm _].
  { intros ->. by apply Permutation_nil_cons in Hb. }
  by rewrite Hperm.
Qed.

Section Asymmetric.
Hypothesis comp_asym : forall x y, comp x y = true -> comp y x = false.

Lemma std_sort_Sorted l : Sorted precedes (std_sort comp l).
Proof.
  destruct l as [|x l]; [constructor|]. unfold std_sort.
  set (b := introsort_loop comp _ _ _ _).
  assert (Hb : Permutation b (x :: l)) by apply introsort_loop_perm.
  rewrite <- (Permutation_length Hb).
  apply final_insertion_sort_spec; [|done]. intros ->. by apply Permutation_nil_cons in Hb.
Qed.

End Asymmetric.
End InsertionFacts.

Section StdSortFacts.
Context {A : Type} (comp : A -> A -> bool).

Local Abbreviation precedes := (fun a b => comp b a = false).

(** Where [comp] behaves as an order on the elements that satisfy [P],
    the first element of a sorted list is preceded by none. *)
Section Greatest.
Context (P : A -> Prop).
Hypothesis comp_trans :
  forall a b c, P a -> P b -> P c ->
    comp b a = false -> comp c b = false -> comp c a = false.

Lemma Sorted_head_first x l :
  Forall P (x :: l) -> Sorted precedes (x :: l) -> Forall (precedes x) l.
Proof.
  revert x. induction l as [|y l IH]; intros x HP Hs; [constructor|].
  apply Sorted_inv in Hs as [Hs Hx]. apply HdRel_inv in Hx.
  apply Forall_cons in HP as [Px HP].
  pose proof (IH y HP Hs) as Hy.
  constructor; [done|].
  apply Forall_cons in HP as [Py HP].
  rewrite Forall_forall in Hy, HP |- *. intros z Hz.
  apply (comp_trans x y z); auto.
Qed.

Lemma Sorted_ordered_by l :
  Forall P l -> Sorted precedes l -> ordered_by comp l.
Proof.
  induction l as [|x l IH]; intros HP Hs; [constructor|].
  pose proof (Sorted_head_first x l HP Hs).
  apply Sorted_inv in Hs as [Hs _]. apply Forall_cons in HP as [_ HP].
  constructor; [by apply IH | done].
Qed.
End Greatest.

End StdSortFacts.

(** ** The three comparators *)

Lemma compareByPid_asym a b : compareByPid a b = true -> compareByPid b a = false.
Proof. unfold compareByPid. rewrite Z.ltb_lt, Z.ltb_ge. lia. Qed.

Lemma compareByCpu_asym a b : compareByCpu a b = true -> compareByCpu b a = false.
Proof. apply SFltb_asym. Qed.

Lemma compareByMem_asym a b : compareByMem a b = true -> compareByMem b a = false.
Proof. apply SFltb_asym. Qed.

Lemma compareByCpu_trans a b c :
  is_nan (cpuPercent a) = false -> is_nan (cpuPercent b) = false ->
  is_nan (cpuPercent c) = false ->
  compareByCpu b a = false -> compareByCpu c b = false -> compareByCpu c a = false.
Proof.
  unfold compareByCpu, gtb. intros Ha Hb Hc Hba Hcb.
  apply SFleb_not_ltb. apply SFleb_trans with (cpuPercent b); by apply SFltb_false_leb.
Qed.

Lemma sort_processes_perm mode l : Permutation l (sort_processes mode l).
Proof. destruct mode; apply std_sort_perm. Qed.

Lemma sort_processes_elem mode l p : p ∈ sort_processes mode l <-> p ∈ l.
Proof. by rewrite <- (sort_processes_perm mode l). Qed.

(** The executable model meets the contract of [std::sort] for the pid
    order, and so does every other result that meets it when the pids are
    pairwise distinct: the contract then determines the result. *)
Lemma std_sort_by_pid_result l : sort_result compareByPid l (std_sort compareByPid l).
Proof.
  split; [apply std_sort_perm|].
  apply (Sorted_ordered_by compareByPid (fun _ => True)).
  - unfold compareByPid. intros a b c _ _ _. rewrite !Z.ltb_ge. lia.
  - by apply Forall_forall.
  - apply std_sort_Sorted, compareByPid_asym.
Qed.

Lemma sort_result_by_pid_unique l l1 l2 :
  NoDup (pid <$> l) ->
  sort_result compareByPid l l1 -> sort_result compareByPid l l2 -> l1 = l2.
Proof.
  intros Hnd [Hp1 Hs1] [Hp2 Hs2].
  apply (StronglySorted_unique_strong (fun a b => compareByPid b a = false)); try done.
  - intros x1 x2 Hx1 Hx2. unfold compareByPid. rewrite !Z.ltb_ge. intros H1 H2.
    assert (Hpid : pid x1 = pid x2) by lia.
    rewrite <- Hp1 in Hx1. rewrite <- Hp2 in Hx2.
    apply list_elem_of_lookup in Hx1 as [i Hi], Hx2 as [j Hj].
    assert (i = j); [|by simplify_eq].
    apply (NoDup_lookup (pid <$> l) i j (pid x1)); [done|..];
      rewrite list_lookup_fmap; [by rewrite Hi | by rewrite Hj, Hpid].
  - by rewrite <- Hp1.
Qed.

(* ===================================================================== *)
(** * Facts about an iteration of the main loop *)
(* ===================================================================== *)

Section RecordTimes.
Implicit Types (table : gmap Z (Z * Z)) (l : list Process).


Lemma record_times_is_Some l : forall table k,
  is_Some (record_times table l !! k) <->
  is_Some (table !! k) \/ exists p, p ∈ l /\ pid p = k.
Proof.
  unfold record_times.
  induction l as [|q l IH]; intros table k; simpl.
  - split; [by left|]. intros [H|(p & Hp & _)]; [done | by apply elem_of_nil in Hp].
  - rewrite IH, lookup_insert_is_Some. split.
    + intros [[Hq|[_ H]]|(p & Hp & Hk)].
      * right. exists q. split; [left | done].
      * by left.
      * right. exists p. split; [by right | done].
    + intros [H|(p & Hp & Hk)].
      * left. destruct (decide (pid q = k)); [by left | by right].
      * apply elem_of_cons in Hp as [->|Hp]; [left; by left | right; eauto].
Qed.

Lemma record_times_not_elem l : forall table k,
  (forall p, p ∈ l -> pid p <> k) -> record_times table l !! k = table !! k.
Proof.
  unfold record_times.
  induction l as [|q l IH]; intros table k Hk; simpl; [done|].
  rewrite IH by (intros p Hp; apply Hk; by right).
  apply lookup_insert_ne, Hk. left.
Qed.

Lemma record_times_NoDup l : forall table p,
  NoDup (pid <$> l) -> p ∈ l ->
  record_times table l !! pid p = Some (utime p, stime p).
Proof.
  induction l as [|q l IH]; intros table p Hnd Hp; [by apply elem_of_nil in Hp|].
  rewrite fmap_cons in Hnd. apply NoDup_cons in Hnd as [Hq Hnd].
  apply elem_of_cons in Hp as [->|Hp].
  - change (record_times table (q :: l)) with
      (record_times (<[pid q := (utime q, stime q)]> table) l).
    rewrite record_times_not_elem; [apply lookup_insert_eq|].
    intros p Hp Heq. apply Hq. rewrite <- Heq. by apply list_elem_of_fmap_2.
  - by apply IH.
Qed.
End RecordTimes.

Lemma scan_meminfo_range ls : forall junk t a,
  in_range 64 junk -> in_range 64 t -> in_range 64 a ->
  in_range 64 (fst (scan_meminfo junk ls t a)).
Proof.
  induction ls as [|line ls IH]; intros junk t a Hj Ht Ha; cbn [scan_meminfo]; [done|].
  destruct (extract_string (stream_of line)) as [ss k].
  destruct (extract_signed 64 ss) as [ss' w] eqn:Hw.
  assert (Hv : in_range 64 (stored junk w)).
  { apply stored_range; [done|]. intros v Hv. apply (extract_signed_range ss). by rewrite Hw. }
  destruct (String.eqb (stored EmptyString k) "MemTotal:");
    destruct (String.eqb (stored EmptyString k) "MemAvailable:");
    match goal with |- context [if ?c then _ else _] => destruct c end;
    try done; by apply IH.
Qed.

Lemma totalSystemMemKb_range src :
  in_range 64 (meminfo_junk src) -> in_range 64 (totalSystemMemKb src).
Proof.
  intros Hj. unfold totalSystemMemKb, getMemoryInfo.
  destruct (meminfo src); [by apply scan_meminfo_range | done].
Qed.

Lemma tick_inv src st st' frame :
  tick src st = Returned (st', frame) -> tick_done src st st' frame.
Proof.
  unfold tick. fold (totalSystemMemKb src) (totalCpuDelta src st) (idleDelta src st).
  destruct (getProcesses _ _ _ _ _) as [sampled|e] eqn:Hs; step_result; [|done].
  intros [= <- <-]. split; simpl; try done. by exists sampled.
Qed.

(** Every process of the frame was pushed by the scan of this iteration. *)
Lemma tick_sampled src st st' frame p :
  tick src st = Returned (st', frame) -> p ∈ processes frame ->
  exists entries d_name,
    proc_entries (procfs src) = Some entries /\ d_name ∈ entries /\
    pushed_from (usernameCache st) (prevProcessTimes st) (procfs src)
      (totalSystemMemKb src) (totalCpuDelta src st) d_name p.
Proof.
  intros Ht Hp. destruct (tick_inv _ _ _ _ Ht) as [(sampled & Hs & Hf) _ _ _ _].
  rewrite Hf in Hp. apply sort_processes_elem in Hp.
  by apply (getProcesses_elem _ _ _ _ _ sampled).
Qed.

(* ===================================================================== *)
(** * The derived percentages *)
(* ===================================================================== *)

(** C1.  For every process sampled in a tick, cpuPercent is
    100 x processDelta / totalCpuDelta when totalCpuDelta > 0 and 0
    otherwise, where processDelta is the utime + stime of the sample less
    the utime + stime that the previous tick recorded for its pid (less 0
    when it recorded none); and memPercent is
    100 x residentKb / totalSystemMemKb when totalSystemMemKb > 0 and 0
    otherwise; a process with 100,000 KB resident on a system with
    8,000,000 KB gets memPercent = 1.25. *)
Theorem sampled_process_percentages src st st' frame p :
  tick src st = Returned (st', frame) -> p ∈ processes frame ->
  let current := add64 (utime p) (stime p) in
  let previous :=
    match prevProcessTimes st !! pid p with
    | Some (u, s) => add64 u s
    | None => 0
    end in
  let processDelta := sub64 current previous in
  cpuPercent p =
    (if 0 <? totalCpuDelta src st
     then div (mul hundred (of_Z processDelta)) (of_Z (totalCpuDelta src st))
     else zero)
  /\ memPercent p =
    (if 0 <? totalSystemMemKb src
     then div (mul hundred (of_Z (memRssKb p))) (of_Z (totalSystemMemKb src))
     else zero)
  /\ (memRssKb p = 100000 -> totalSystemMemKb src = 8000000 ->
      memPercent p = Prim2SF 1.25%float).
Proof.
  intros Ht Hp. destruct (tick_sampled _ _ _ _ _ Ht Hp) as (entries & d & _ & _ & Hfrom).
  destruct Hfrom as [_ _ _ _ _ Hcpu Hmem _ _ _].
  repeat split; [exact Hcpu | exact Hmem |].
  intros Hrss Hkb. rewrite Hmem, Hrss, Hkb. reflexivity.
Qed.

Lemma sampled_process_percentages_witness :
  tick (Scenario.src Scenario.fs_1) (Scenario.st BY_CPU 10 5)
  = Returned (Scenario.st' BY_CPU [Scenario.p_1], Scenario.frame [Scenario.p_1])
  /\ cpuPercent Scenario.p_1
     = div (mul hundred (of_Z (sub64 (add64 20 15) (add64 10 5)))) (of_Z 40)
  /\ memPercent Scenario.p_1 = Prim2SF 1.25%float.
Proof.
  assert (Htick : tick (Scenario.src Scenario.fs_1) (Scenario.st BY_CPU 10 5)
                  = Returned (Scenario.st' BY_CPU [Scenario.p_1],
                              Scenario.frame [Scenario.p_1]))
    by (vm_compute; reflexivity).
  destruct (sampled_process_percentages
              (Scenario.src Scenario.fs_1) (Scenario.st BY_CPU 10 5)
              (Scenario.st' BY_CPU [Scenario.p_1]) (Scenario.frame [Scenario.p_1])
              Scenario.p_1 Htick ltac:(left))
    as (Hcpu & _ & Hmem).
  split; [exact Htick|]. split; [rewrite Hcpu; reflexivity | apply Hmem; reflexivity].
Defined.

(** C2.  On every tick the system-wide cpuUsage is
    100 x (totalCpuDelta - idleDelta) / totalCpuDelta when totalCpuDelta > 0
    and 0 otherwise, the deltas being taken between the counters that the
    tick reads and those that the tick before it read and kept; when one
    tick reads the line [cpu 100 0 50 850 0 0 0 0] and the next one
    [cpu 110 0 60 870 0 0 0 0], the deltas of the second are 40 and 20 and
    its cpuUsage is 50.0. *)
Theorem system_cpu_usage src1 src2 st0 st1 st2 frame1 frame2 :
  tick src1 st0 = Returned (st1, frame1) ->
  tick src2 st1 = Returned (st2, frame2) ->
  let previous := getSystemCpuTimes (proc_stat src1) in
  let current := getSystemCpuTimes (proc_stat src2) in
  let total_delta := sub64 (SysCpu.total current) (SysCpu.total previous) in
  let idle_delta := sub64 (SysCpu.idle current) (SysCpu.idle previous) in
  sysCpuUsage frame1 =
    (if 0 <? totalCpuDelta src1 st0
     then div (mul hundred (of_Z (sub64 (totalCpuDelta src1 st0) (idleDelta src1 st0))))
              (of_Z (totalCpuDelta src1 st0))
     else zero)
  /\ prevSysCpuTimes st1 = previous
  /\ sysCpuUsage frame2 =
    (if 0 <? total_delta
     then div (mul hundred (of_Z (sub64 total_delta idle_delta))) (of_Z total_delta)
     else zero)
  /\ (proc_stat src1 = Some Scenario.cpu_line_1 ->
      proc_stat src2 = Some Scenario.cpu_line_2 ->
      total_delta = 40 /\ idle_delta = 20 /\ sysCpuUsage frame2 = Prim2SF 50%float).
Proof.
  intros Ht1 Ht2.
  destruct (tick_inv _ _ _ _ Ht1) as [_ _ Hsys1 Husage1 _].
  destruct (tick_inv _ _ _ _ Ht2) as [_ _ _ Husage2 _].
  unfold percent, totalCpuDelta, idleDelta in Husage2. rewrite Hsys1 in Husage2.
  cbn zeta. split; [exact Husage1|]. split; [exact Hsys1|]. split; [exact Husage2|].
  intros Hline1 Hline2. rewrite Husage2, Hline1, Hline2. repeat split; reflexivity.
Qed.

Lemma system_cpu_usage_witness :
  let src1 := {| meminfo := Some Scenario.meminfo_text; meminfo_junk := 0;
                 proc_stat := Some Scenario.cpu_line_1;
                 procfs := Scenario.fs Scenario.entries 7 "10" "5" true |} in
  let p0 := Scenario.proc 7 "alice" zero 10 5 in
  let frame1 := {| sysCpuUsage := zero; memUsed := 6000000; memTotal := 8000000;
                   processes := [p0] |} in
  tick src1 (Scenario.st BY_CPU 0 0) = Returned (Scenario.st BY_CPU 10 5, frame1)
  /\ tick (Scenario.src Scenario.fs_1) (Scenario.st BY_CPU 10 5)
     = Returned (Scenario.st' BY_CPU [Scenario.p_1], Scenario.frame [Scenario.p_1])
  /\ sysCpuUsage (Scenario.frame [Scenario.p_1]) = Prim2SF 50%float.
Proof.
  intros src1 p0 frame1.
  assert (Ht1 : tick src1 (Scenario.st BY_CPU 0 0)
                = Returned (Scenario.st BY_CPU 10 5, frame1))
    by (vm_compute; reflexivity).
  assert (Ht2 : tick (Scenario.src Scenario.fs_1) (Scenario.st BY_CPU 10 5)
                = Returned (Scenario.st' BY_CPU [Scenario.p_1],
                            Scenario.frame [Scenario.p_1]))
    by (vm_compute; reflexivity).
  destruct (system_cpu_usage _ _ _ _ _ _ _ Ht1 Ht2) as (_ & _ & _ & Hex).
  split; [exact Ht1|]. split; [exact Ht2|].
  apply Hex; reflexivity.
Defined.

(** C3 fails as stated: pid 7 had used 100 ticks at the previous sample and
    shows 15 now, as after the pid was given to a new process; the total
    delta is 40 and the cpuPercent of the sample is below zero. *)
Lemma negative_cpuPercent_example :
  let src := Scenario.src (Scenario.fs Scenario.entries 7 "10" "5" true) in
  let st := Scenario.st BY_PID 100 0 in
  let p := Scenario.proc 7 "alice" (percent (-85) 40) 10 5 in
  tick src st = Returned (Scenario.st' BY_PID [p], Scenario.frame [p])
  /\ 0 < totalCpuDelta src st
  /\ geb (cpuPercent p) zero = false
  /\ ltb (cpuPercent p) zero = true.
Proof. vm_compute. repeat split; reflexivity. Qed.

(** C3, amended.  For every tick and every sampled process: cpuPercent,
    memPercent and the system cpuUsage are exactly 0 when their denominator
    is not positive; they are >= 0 when the denominator is positive and the
    numerator (processDelta, residentKb, totalCpuDelta - idleDelta) is not
    negative; they are never a NaN, and the divisor of the division made
    under the guard is a finite double other than zero. *)
Theorem derived_percentages_sign src st st' frame p :
  in_range 64 (meminfo_junk src) ->
  tick src st = Returned (st', frame) -> p ∈ processes frame ->
  let processDelta := processTimeDelta (prevProcessTimes st) (pid p) (utime p) (stime p) in
  let busyDelta := sub64 (totalCpuDelta src st) (idleDelta src st) in
  (totalCpuDelta src st <= 0 -> cpuPercent p = zero /\ sysCpuUsage frame = zero)
  /\ (totalSystemMemKb src <= 0 -> memPercent p = zero)
  /\ (0 < totalCpuDelta src st -> 0 <= processDelta -> geb (cpuPercent p) zero = true)
  /\ (0 < totalSystemMemKb src -> 0 <= memRssKb p -> geb (memPercent p) zero = true)
  /\ (0 < totalCpuDelta src st -> 0 <= busyDelta -> geb (sysCpuUsage frame) zero = true)
  /\ (is_nan (cpuPercent p) = false /\ is_nan (memPercent p) = false
      /\ is_nan (sysCpuUsage frame) = false)
  /\ (0 < totalCpuDelta src st ->
      exists m e, of_Z (totalCpuDelta src st) = S754_finite false m e)
  /\ (0 < totalSystemMemKb src ->
      exists m e, of_Z (totalSystemMemKb src) = S754_finite false m e).
Proof.
  intros Hjunk Ht Hp processDelta busyDelta.
  destruct (tick_sampled _ _ _ _ _ Ht Hp) as (entries & d & _ & _ & Hfrom).
  destruct Hfrom as [_ _ _ _ _ Hcpu Hmem _ _ _].
  destruct (tick_inv _ _ _ _ Ht) as [_ _ _ Husage _].
  fold processDelta in Hcpu. fold busyDelta in Husage.
  assert (Hcmax : totalCpuDelta src st <= LLONG_MAX) by apply in_range_64_max, sub64_range.
  assert (Hmmax : totalSystemMemKb src <= LLONG_MAX)
    by by apply in_range_64_max, totalSystemMemKb_range.
  rewrite Hcpu, Hmem, Husage.
  repeat split.
  - by apply percent_zero.
  - by apply percent_zero.
  - by apply percent_zero.
  - intros; by apply percent_nonneg.
  - intros; by apply percent_nonneg.
  - intros; by apply percent_nonneg.
  - by apply percent_not_nan.
  - by apply percent_not_nan.
  - by apply percent_not_nan.
  - intros; by apply of_Z_finite.
  - intros; by apply of_Z_finite.
Qed.

Lemma derived_percentages_sign_witness :
  geb (cpuPercent Scenario.p_1) zero = true
  /\ geb (memPercent Scenario.p_1) zero = true
  /\ geb (sysCpuUsage (Scenario.frame [Scenario.p_1])) zero = true.
Proof.
  destruct (derived_percentages_sign
              (Scenario.src Scenario.fs_1) (Scenario.st BY_CPU 10 5)
              (Scenario.st' BY_CPU [Scenario.p_1]) (Scenario.frame [Scenario.p_1])
              Scenario.p_1
              ltac:(vm_compute; split; discriminate)
              ltac:(vm_compute; reflexivity) ltac:(left))
    as (_ & _ & Hcpu & Hmem & Husage & _).
  split; [|split]; [apply Hcpu | apply Hmem | apply Husage]; vm_compute; congruence.
Defined.

(** The memory percentage of the summary line is computed without a guard:
    with no memory information the division is 0.0 / 0.0. *)
Lemma drawSystemInfo_memPercent_unguarded :
  is_nan (drawSystemInfo_memPercent 0 0) = true.
Proof. reflexivity. Qed.

(* ===================================================================== *)
(** * The system CPU sample *)
(* ===================================================================== *)

Lemma add64_chain a b c d e f g h :
  add64 (add64 (add64 (add64 (add64 (add64 (add64 a b) c) d) e) f) g) h
  = wrap64 (a + b + c + d + e + f + g + h).
Proof.
  unfold add64.
  rewrite (wrap64_add_l (a + b) c), (wrap64_add_l (a + b + c) d).
  rewrite (wrap64_add_l (a + b + c + d) e), (wrap64_add_l (a + b + c + d + e) f).
  rewrite (wrap64_add_l (a + b + c + d + e + f) g).
  apply wrap64_add_l.
Qed.

(** C4 fails as stated: the line is well formed, every field is read as it
    is written, and the total is not the sum of the fields. *)
Lemma total_overflow_example :
  let t := getSystemCpuTimes (Some "cpu 9223372036854775807 1 0 0 0 0 0 0"%string) in
  SysCpu.user t = 9223372036854775807 /\ SysCpu.nice t = 1
  /\ sum_of_fields t = 9223372036854775808
  /\ SysCpu.total t = -9223372036854775808
  /\ SysCpu.total t <> sum_of_fields t.
Proof. vm_compute. repeat split. lia. Qed.

(** C4, amended.  Whatever the CPU-counters source holds, the [total] of the
    sample is the sum of its eight fields reduced to the signed 64-bit
    range; it is the exact sum whenever that sum fits into 64 bits. *)
Theorem total_is_wrapped_sum (proc_stat : option string) :
  let t := getSystemCpuTimes proc_stat in
  SysCpu.total t = wrap64 (sum_of_fields t)
  /\ (in_range 64 (sum_of_fields t) -> SysCpu.total t = sum_of_fields t).
Proof.
  assert (H : SysCpu.total (getSystemCpuTimes proc_stat)
              = wrap64 (sum_of_fields (getSystemCpuTimes proc_stat))).
  { unfold getSystemCpuTimes.
    destruct (starts_with "cpu" (first_line proc_stat)); [|reflexivity].
    repeat match goal with
           | |- context [extract_string ?s] => destruct (extract_string s) as [? ?]
           | |- context [extract_signed 64 ?s] => destruct (extract_signed 64 s) as [? ?]
           end.
    unfold sum_of_fields. cbn [SysCpu.total SysCpu.user SysCpu.nice SysCpu.system
      SysCpu.idle SysCpu.iowait SysCpu.irq SysCpu.softirq SysCpu.steal].
    apply add64_chain. }
  cbv zeta. split; [exact H|]. intros Hr. rewrite H. by apply wrap64_id.
Qed.

Lemma total_is_wrapped_sum_witness :
  SysCpu.total (getSystemCpuTimes (Some Scenario.cpu_line_2)) = 1040.
Proof.
  destruct (total_is_wrapped_sum (Some Scenario.cpu_line_2)) as [_ Hexact].
  rewrite Hexact; [reflexivity | vm_compute; split; discriminate].
Defined.

(* ===================================================================== *)
(** * The table of the previous sample *)
(* ===================================================================== *)



(* ===================================================================== *)
(** * The process sampler *)
(* ===================================================================== *)

(** C8 fails as stated: no entry of this directory parses as a non-negative
    integer, and a sample is returned, for the pid -5. *)
Lemma negative_pid_sampled_example :
  let entries := ["self"; "-5"]%string in
  let fs := Scenario.fs entries (-5) "10" "5" true in
  let p := Scenario.proc (-5) "alice" (percent 15 40) 10 5 in
  getProcesses {[ 1000 := "alice"%string ]} ∅ fs 8000000 40 = Returned [p]
  /\ pid p < 0
  /\ Forall (fun d => forall n, stoi d = Returned n -> n < 0) entries.
Proof.
  split; [vm_compute; reflexivity|]. split; [reflexivity|].
  repeat constructor; intros n Hn; vm_compute in Hn; [discriminate Hn|].
  injection Hn as <-. reflexivity.
Qed.

(** C8, amended.  The sampler returns a sample only for an entry of the
    process directory whose name [std::stoi] reads as an [int], of either
    sign (leading white space, a sign and characters after the digits are
    accepted), and the pid of the sample is that integer; an entry whose
    name has no leading integer, such as "self", is skipped without error
    and the result is the one of the directory without such entries. *)
Theorem samples_come_from_numeric_entries cache prev fs mem cpu :
  (forall sampled p,
     getProcesses cache prev fs mem cpu = Returned sampled -> p ∈ sampled ->
     exists entries d_name,
       proc_entries fs = Some entries /\ d_name ∈ entries
       /\ stoi d_name = Returned (pid p) /\ in_range 32 (pid p))
  /\ (forall d_name e,
        stoi d_name = Threw e ->
        sample_entry cache prev fs mem cpu d_name = Returned None)
  /\ sample_entry cache prev fs mem cpu "self" = Returned None
  /\ (forall entries,
        scan_entries cache prev fs mem cpu entries []
        = scan_entries cache prev fs mem cpu (List.filter is_pid_name entries) []).
Proof.
  repeat split.
  - intros sampled p Hs Hp.
    destruct (getProcesses_elem _ _ _ _ _ _ _ Hs Hp) as (entries & d & He & Hd & Hfrom).
    exists entries, d. destruct Hfrom as [Hpid _ _ _ _ _ _ _ _ _].
    repeat split; try done.
    + by apply sto_signed_range in Hpid as [? _].
    + by apply sto_signed_range in Hpid as [_ ?].
  - intros d e. apply sample_entry_not_numeric.
  - intros entries. apply scan_entries_numeric.
Qed.

Lemma samples_come_from_numeric_entries_witness :
  exists d_name, d_name ∈ Scenario.entries /\ stoi d_name = Returned 7.
Proof.
  destruct (samples_come_from_numeric_entries
              {[ 0 := "root"%string; 1000 := "alice"%string ]} {[ 7 := (10, 5) ]}
              Scenario.fs_1 8000000 40) as [Hfrom _].
  destruct (Hfrom [Scenario.p_1] Scenario.p_1 ltac:(vm_compute; reflexivity) ltac:(left))
    as (entries & d & He & Hd & Hpid & _).
  injection He as <-. exists d. split; [exact Hd | exact Hpid].
Defined.

(** C9 fails as stated: the status file of pid 7 has vanished when
    [getUsername] opens it, its owner cannot be resolved, and the sample
    carries "n/a". *)
Lemma vanished_owner_example :
  let cache : gmap Z string := {[ 0 := "root"%string; 1000 := "alice"%string ]} in
  let fs := Scenario.fs Scenario.entries 7 "20" "15" false in
  let p := Scenario.proc 7 "n/a" (percent 35 40) 20 15 in
  getProcesses cache ∅ fs 8000000 40 = Returned [p]
  /\ resolved_user cache fs (pid p) = None
  /\ user p = "n/a"%string
  /\ user p <> "unknown"%string.
Proof. vm_compute. repeat split. intros H. discriminate H. Qed.

(** C9, amended.  For every sampled process whose status file is read
    again by [getUsername]: when the uid found there is not in the username
    cache the user field is "unknown", and when it is the user field is the
    cached name; when the status file can no longer be opened the user field
    is "n/a".  "unknown" and "n/a" are the two placeholders. *)
Theorem user_field_of_sample cache prev fs mem cpu sampled p :
  getProcesses cache prev fs mem cpu = Returned sampled -> p ∈ sampled ->
  (forall content,
     status_reopened fs (pid p) = Some content ->
     match cache !! scan_uid (lines content) 0 with
     | None => user p = "unknown"%string
     | Some n => user p = n
     end)
  /\ (status_reopened fs (pid p) = None -> user p = "n/a"%string)
  /\ (resolved_user cache fs (pid p) = None ->
      user p = "unknown"%string \/ user p = "n/a"%string).
Proof.
  intros Hs Hp.
  destruct (getProcesses_elem _ _ _ _ _ _ _ Hs Hp) as (entries & d & _ & _ & Hfrom).
  destruct Hfrom as [_ _ _ _ Huser _ _ _ _ _].
  rewrite Huser. unfold resolved_user, getUsername.
  repeat split.
  - intros content ->. by destruct (cache !! _).
  - by intros ->.
  - destruct (status_reopened fs (pid p)) as [content|]; simpl; [|by right].
    intros ->. by left.
Qed.

Lemma user_field_of_sample_witness :
  user (Scenario.proc 7 "unknown" (percent 35 40) 20 15) = "unknown"%string.
Proof.
  assert (Hs : getProcesses {[ 0 := "root"%string ]} ∅ Scenario.fs_1 8000000 40
               = Returned [Scenario.proc 7 "unknown" (percent 35 40) 20 15])
    by (vm_compute; reflexivity).
  assert (Hp : Scenario.proc 7 "unknown" (percent 35 40) 20 15
               ∈ [Scenario.proc 7 "unknown" (percent 35 40) 20 15]) by left.
  destruct (user_field_of_sample _ _ _ _ _ _ _ Hs Hp) as (Hread & _ & _).
  assert (Hfile : status_reopened Scenario.fs_1
                    (pid (Scenario.proc 7 "unknown" (percent 35 40) 20 15))
                  = Some Scenario.status_text) by reflexivity.
  specialize (Hread Scenario.status_text Hfile).
  vm_compute in Hread. exact Hread.
Defined.

(** No sampled process has a NaN for its cpuPercent. *)
Lemma sampled_cpuPercent_not_nan cache prev fs mem cpu sampled :
  in_range 64 cpu ->
  getProcesses cache prev fs mem cpu = Returned sampled ->
  Forall cpu_not_nan sampled.
Proof.
  intros Hcpu Hs. apply Forall_forall. intros p Hp.
  destruct (getProcesses_elem _ _ _ _ _ _ _ Hs Hp) as (entries & d & _ & _ & Hfrom).
  destruct Hfrom as [_ _ _ _ _ Hc _ _ _ _].
  unfold cpu_not_nan. rewrite Hc. by apply percent_not_nan, in_range_64_max.
Qed.

(* ===================================================================== *)
(** * Sorting the process list *)
(* ===================================================================== *)

Lemma sort_by_cpu_first l :
  Forall cpu_not_nan l ->
  match sort_processes BY_CPU l with
  | [] => l = []
  | first :: _ => forall p, p ∈ l -> geb (cpuPercent first) (cpuPercent p) = true
  end.
Proof.
  intros Hnan.
  pose proof (sort_processes_perm BY_CPU l) as Hperm.
  pose proof (std_sort_Sorted compareByCpu compareByCpu_asym l) as Hsorted.
  change (std_sort compareByCpu l) with (sort_processes BY_CPU l) in Hsorted.
  rewrite Hperm in Hnan.
  destruct (sort_processes BY_CPU l) as [|first rest]; [by apply Permutation_nil_r|].
  intros p Hp. rewrite Hperm in Hp.
  pose proof (Sorted_head_first compareByCpu cpu_not_nan compareByCpu_trans
                first rest Hnan Hsorted) as Hfirst.
  apply Forall_cons in Hnan as [Hn Hnan].
  apply elem_of_cons in Hp as [->|Hp].
  - by apply SFleb_refl.
  - rewrite Forall_forall in Hfirst, Hnan.
    apply SFltb_false_leb; [apply Hn | by apply Hnan | by apply Hfirst].
Qed.

(** C6 fails as stated, in two ways.  Twenty processes share one pid and
    are told apart by their utime, 0 to 19: the sort by pid moves the
    eleventh to the front and reverses the others around the first, and
    sorting the result again restores the input, so that sorting twice
    does not give what sorting once gives.  And with a cpuPercent that is
    not a number at the head of a list, the sort by CPU leaves it at the
    front, before the largest number. *)
Lemma sorting_counterexample :
  let same_pid := (fun k => Scenario.proc 7 "alice" zero k 0) <$> seqZ 0 20 in
  let nan := Scenario.proc 1 "root" (div zero zero) 0 0 in
  let one := Scenario.proc 2 "root" (of_Z 1) 0 0 in
  let five := Scenario.proc 3 "root" (of_Z 5) 0 0 in
  utime <$> sort_processes BY_PID same_pid
    = [10; 19; 18; 17; 16; 15; 14; 13; 12; 11; 0; 9; 8; 7; 6; 5; 4; 3; 2; 1]
  /\ sort_processes BY_PID (sort_processes BY_PID same_pid) = same_pid
  /\ sort_processes BY_PID (sort_processes BY_PID same_pid)
     <> sort_processes BY_PID same_pid
  /\ sort_processes BY_CPU [nan; one; five] = [nan; five; one]
  /\ geb (cpuPercent nan) (cpuPercent five) = false
  /\ gtb (cpuPercent five) (cpuPercent one) = true.
Proof.
  intros same_pid nan one five.
  assert (Honce : utime <$> sort_processes BY_PID same_pid
                  = [10; 19; 18; 17; 16; 15; 14; 13; 12; 11; 0; 9; 8; 7; 6; 5; 4; 3; 2; 1])
    by (vm_compute; reflexivity).
  assert (Htwice : sort_processes BY_PID (sort_processes BY_PID same_pid) = same_pid)
    by (vm_compute; reflexivity).
  split; [exact Honce|]. split; [exact Htwice|]. split.
  - rewrite Htwice. intros Heq. rewrite <- Heq in Honce. vm_compute in Honce.
    discriminate Honce.
  - split; [vm_compute; reflexivity|]. split; reflexivity.
Qed.

(** C6, amended.  For every list of processes with pairwise distinct pids,
    sorting by pid twice gives the same list as sorting once; for every list
    whose cpuPercent values are numbers (as those of every sampled process
    are), sorting by CPU puts an element with the largest cpuPercent first;
    and for every list, in every mode, the result is a permutation of the
    input: the same samples, with their derived values, in another
    order. *)
Theorem sorting_properties (l : list Process) :
  (NoDup (pid <$> l) ->
   sort_processes BY_PID (sort_processes BY_PID l) = sort_processes BY_PID l)
  /\ (Forall cpu_not_nan l ->
      match sort_processes BY_CPU l with
      | [] => l = []
      | first :: _ => forall p, p ∈ l -> geb (cpuPercent first) (cpuPercent p) = true
      end)
  /\ (forall mode, Permutation l (sort_processes mode l))
  /\ (forall mode mode', Permutation (sort_processes mode l) (sort_processes mode' l)).
Proof.
  split; [|split; [|split]].
  - intros Hnd.
    apply (sort_result_by_pid_unique (sort_processes BY_PID l)).
    + by rewrite <- (sort_processes_perm BY_PID l).
    + apply std_sort_by_pid_result.
    + split; [done|]. apply std_sort_by_pid_result.
  - apply sort_by_cpu_first.
  - intros mode. apply sort_processes_perm.
  - intros mode mode'. by rewrite <- !sort_processes_perm.
Qed.

Lemma sorting_properties_witness :
  let a := Scenario.proc 7 "alice" (percent 10 40) 20 15 in
  let b := Scenario.proc 3 "root" (percent 30 40) 1 1 in
  let c := Scenario.proc 5 "root" (percent (-2) 40) 0 0 in
  sort_processes BY_PID (sort_processes BY_PID [a; b; c]) = sort_processes BY_PID [a; b; c]
  /\ sort_processes BY_PID [a; b; c] = [b; c; a]
  /\ sort_processes BY_CPU [a; b; c] = [b; a; c]
  /\ geb (cpuPercent b) (cpuPercent a) = true.
Proof.
  intros a b c.
  destruct (sorting_properties [a; b; c]) as (Hidem & Hfirst & _).
  split; [|split; [reflexivity | split; [reflexivity|]]].
  - apply Hidem. by apply (bool_decide_unpack (NoDup [7; 3; 5])).
  - apply (Hfirst ltac:(repeat constructor) a). left.
Defined.

(* ===================================================================== *)
(** * The kill window *)
(* ===================================================================== *)

Section KillFacts.

Lemma char_of_digit ch : isdigit_code ch = true -> isdigit (char_of ch) = true.
Proof.
  intros H. unfold isdigit, code, char_of.
  assert (Hr : 48 <= ch <= 57)
    by (unfold isdigit_code in H; apply andb_true_iff in H as [H1 H2]; lia).
  rewrite nat_ascii_embedding by lia. by rewrite Z2Nat.id by lia.
Qed.

Lemma isdigit_not_NUL c : isdigit c = true -> Ascii.eqb c NUL = false.
Proof.
  intros H. apply Ascii.eqb_neq. intros ->. discriminate H.
Qed.

Lemma isdigit_not_space c : isdigit c = true -> isspace c = false.
Proof.
  unfold isdigit, isspace, isdigit_code, isspace_code. intros H.
  apply andb_true_iff in H as [H1 H2]. apply Z.leb_le in H1, H2.
  apply orb_false_iff. split; [lia|]. apply andb_false_iff. right. lia.
Qed.

Lemma isdigit_not_sign c :
  isdigit c = true -> Ascii.eqb c "-" = false /\ Ascii.eqb c "+" = false.
Proof.
  intros H. split; apply Ascii.eqb_neq; intros ->; discriminate H.
Qed.

(** Writing at the index leaves the buffer below it as it is. *)
Lemma buffer_insert pidStr i c :
  0 <= i -> buffer (<[Z.to_nat i := c]> pidStr) i = buffer pidStr i.
Proof. intros Hi. unfold buffer. by rewrite take_insert_ge. Qed.

Lemma buffer_grow pidStr i c :
  0 <= i -> (Z.to_nat i < length pidStr)%nat ->
  buffer (<[Z.to_nat i := c]> pidStr) (i + 1) = buffer pidStr i ++ [c].
Proof.
  intros Hi Hlen. unfold buffer.
  replace (Z.to_nat (i + 1)) with (S (Z.to_nat i)) by lia.
  rewrite (take_S_r _ _ c) by (by apply list_lookup_insert_eq).
  by rewrite take_insert_ge.
Qed.

Lemma buffer_shrink pidStr i :
  0 < i -> all_digits (buffer pidStr i) -> all_digits (buffer pidStr (i - 1)).
Proof.
  intros Hi. unfold all_digits, buffer.
  replace (Z.to_nat i) with (S (Z.to_nat (i - 1))) by lia.
  rewrite !Forall_forall. intros H c Hc. apply H.
  apply list_elem_of_lookup in Hc as [j Hj].
  apply list_elem_of_lookup. exists j.
  apply lookup_take_Some in Hj as [Hj Hlt].
  apply lookup_take_Some. split; [done | lia].
Qed.

(** The invariant of the input loop. *)
Lemma input_loop_invariant keys : forall pidStr i,
  buffer_ok pidStr i ->
  match input_loop keys pidStr i with
  | Reading pidStr' i' => buffer_ok pidStr' i'
  | Broke pidStr' i' =>
      i' = -1 \/ (buffer_ok pidStr' i' /\ pidStr' !! Z.to_nat i' = Some NUL)
  end.
Proof.
  induction keys as [|ch keys IH]; intros pidStr i (Hlen & Hi & Hdig); cbn [input_loop].
  - done.
  - destruct (ch =? KEY_ESC); [by left|].
    destruct (ch =? KEY_ENTER).
    { right. split; [split; [|split]|].
      - by rewrite length_insert.
      - done.
      - rewrite buffer_insert by lia. done.
      - apply list_lookup_insert_eq. lia. }
    destruct ((ch =? KEY_BACKSPACE) || (ch =? KEY_DEL)).
    { destruct (Z.ltb_spec 0 i); apply IH; [|done].
      split; [done|]. split; [lia|]. by apply buffer_shrink. }
    destruct (isdigit_code ch && (i <? 19)) eqn:Hd; [|by apply IH].
    apply andb_true_iff in Hd as [Hd Hlt]. apply Z.ltb_lt in Hlt.
    apply IH. split; [by rewrite length_insert|]. split; [lia|].
    unfold all_digits. rewrite buffer_grow by lia.
    apply Forall_app. split; [done|]. repeat constructor. by apply char_of_digit.
Qed.

(** The string in the array after [pidStr[i] = 0]: the buffer. *)
Lemma c_string_buffer pidStr : forall i,
  0 <= i -> all_digits (buffer pidStr i) -> pidStr !! Z.to_nat i = Some NUL ->
  c_string pidStr = string_of_list_ascii (buffer pidStr i).
Proof.
  unfold buffer, all_digits.
  induction pidStr as [|c pidStr IH]; intros i Hi Hdig Hnul; [done|].
  destruct (Z.to_nat i) as [|n] eqn:Hn.
  - injection Hnul as ->. done.
  - cbn [take c_string string_of_list_ascii] in *.
    apply Forall_cons in Hdig as [Hc Hdig].
    rewrite (isdigit_not_NUL c Hc). f_equal.
    specialize (IH (Z.of_nat n)). rewrite Nat2Z.id in IH.
    apply IH; [lia | done | done].
Qed.

Lemma take_digits_seen s : forall acc, fst (take_digits acc true s) <> None.
Proof.
  induction s as [|c s IH]; intros acc; simpl; [done|].
  destruct (isdigit c); [apply IH | done].
Qed.

(** [std::stoi] never finds a non-empty string of digits to be
    non-numeric; it may find it out of range. *)
Lemma stoi_digits (b : list ascii) :
  all_digits b -> b <> [] -> stoi (string_of_list_ascii b) <> Threw invalid_argument.
Proof.
  intros Hdig Hne. destruct b as [|c b]; [done|].
  apply Forall_cons in Hdig as [Hc _].
  unfold stoi, sto_signed. cbn [string_of_list_ascii skipws].
  rewrite (isdigit_not_space c Hc). unfold scan_integer.
  destruct (isdigit_not_sign c Hc) as [-> ->].
  cbn [take_digits]. rewrite Hc.
  pose proof (take_digits_seen (string_of_list_ascii b) (0 * 10 + digit_value c)) as Hseen.
  destruct (take_digits _ true _) as [[m|] r]; [|done].
  by destruct (in_rangeb 32 m).
Qed.

Lemma stoi_empty : stoi EmptyString = Threw invalid_argument.
Proof. reflexivity. Qed.

(** Keys other than Esc and Enter keep the loop reading. *)
Lemma input_loop_app keys rest : forall pidStr i,
  Forall (fun ch => ch <> KEY_ESC /\ ch <> KEY_ENTER) keys ->
  exists pidStr' i',
    input_loop keys pidStr i = Reading pidStr' i'
    /\ input_loop (keys ++ rest) pidStr i = input_loop rest pidStr' i'.
Proof.
  induction keys as [|ch keys IH]; intros pidStr i Hkeys; [by eauto|].
  apply Forall_cons in Hkeys as [[Hesc Hent] Hkeys].
  cbn [input_loop app].
  apply Z.eqb_neq in Hesc, Hent. rewrite Hesc, Hent.
  destruct ((ch =? KEY_BACKSPACE) || (ch =? KEY_DEL));
    [destruct (0 <? i)|destruct (isdigit_code ch && (i <? 19))]; by apply IH.
Qed.

End KillFacts.

Lemma digit_key_not_exit ch :
  isdigit_code ch = true -> ch <> KEY_ESC /\ ch <> KEY_ENTER.
Proof.
  unfold isdigit_code, KEY_ESC, KEY_ENTER. intros H.
  apply andb_true_iff in H as [H1 H2]. lia.
Qed.

Lemma buffer_ok_initial pidStr : length pidStr = 20%nat -> buffer_ok pidStr 0.
Proof. intros Hlen. split; [done|]. split; [lia|]. constructor. Qed.

(** C7.  In every run of the kill window: the keys "1234" followed by Enter
    send exactly one SIGTERM, to pid 1234; digits followed by Esc send
    nothing; and Enter on a buffer that is empty or not numeric sends
    nothing, the window returning without a signal. *)
Theorem kill_modal_requests (pidStr : list ascii) :
  length pidStr = 20%nat ->
  killProcessWindow [49; 50; 51; 52; KEY_ENTER] pidStr = Some [(1234, SIGTERM)]
  /\ (forall digits rest,
        Forall (fun ch => isdigit_code ch = true) digits ->
        killProcessWindow (digits ++ KEY_ESC :: rest) pidStr = Some [])
  /\ killProcessWindow [49; 50; KEY_ESC] pidStr = Some []
  /\ (forall keys pidStr' i,
        input_loop keys pidStr 0 = Broke pidStr' i -> i <> -1 ->
        c_string pidStr' = EmptyString
        \/ ~ all_digits (list_ascii_of_string (c_string pidStr')) ->
        killProcessWindow keys pidStr = Some []).
Proof.
  intros Hlen.
  assert (Hcancel : forall digits rest,
            Forall (fun ch => isdigit_code ch = true) digits ->
            killProcessWindow (digits ++ KEY_ESC :: rest) pidStr = Some []).
  { intros digits rest Hd. unfold killProcessWindow.
    destruct (input_loop_app digits (KEY_ESC :: rest) pidStr 0) as (a & j & _ & ->).
    - eapply Forall_impl; [exact Hd|]. intros ch. apply digit_key_not_exit.
    - reflexivity. }
  split; [|split; [exact Hcancel|split]].
  - do 5 (destruct pidStr as [|? pidStr]; [discriminate Hlen|]). reflexivity.
  - apply (Hcancel [49; 50] []). by repeat constructor.
  - intros keys pidStr' i Hloop Hi Hbuf. unfold killProcessWindow. rewrite Hloop.
    pose proof (input_loop_invariant keys pidStr 0 (buffer_ok_initial _ Hlen)) as Hinv.
    rewrite Hloop in Hinv. destruct Hinv as [?|[(_ & Hr & Hdig) Hnul]]; [done|].
    pose proof (c_string_buffer pidStr' i ltac:(lia) Hdig Hnul) as Hstr.
    unfold after_loop. replace (i =? -1) with false by (symmetry; by apply Z.eqb_neq).
    destruct Hbuf as [Hempty|Hnot].
    + by rewrite Hempty.
    + exfalso. apply Hnot. by rewrite Hstr, list_ascii_of_string_of_list_ascii.
Qed.

Lemma kill_modal_requests_witness :
  killProcessWindow [49; 50; 51; 52; KEY_ENTER] (replicate 20 NUL) = Some [(1234, SIGTERM)]
  /\ killProcessWindow [49; 50; KEY_ESC] (replicate 20 NUL) = Some []
  /\ killProcessWindow [49; KEY_BACKSPACE; KEY_ENTER] (replicate 20 NUL) = Some [].
Proof.
  destruct (kill_modal_requests (replicate 20 NUL) ltac:(reflexivity))
    as (Hconfirm & _ & Hcancel & Hempty).
  split; [exact Hconfirm | split; [exact Hcancel|]].
  apply (Hempty [49; KEY_BACKSPACE; KEY_ENTER] (<[0%nat := NUL]> (<[0%nat := char_of 49]> (replicate 20 NUL))) 0);
    [reflexivity | discriminate | left; reflexivity].
Defined.

(** C10.  Throughout every run of the input loop the buffer holds at most
    19 characters, all of them digits: only digit keys are appended, a digit
    at full length is dropped, backspace on the empty buffer does nothing.
    When the loop is left by Enter, the string in the array is the buffer,
    and [std::stoi] never finds a non-empty buffer to be non-numeric. *)
Theorem kill_modal_buffer_invariant (keys : list Z) (pidStr : list ascii) :
  length pidStr = 20%nat ->
  match input_loop keys pidStr 0 with
  | Reading pidStr' i =>
      0 <= i <= 19 /\ length (buffer pidStr' i) = Z.to_nat i
      /\ all_digits (buffer pidStr' i)
  | Broke pidStr' i =>
      i = -1
      \/ (0 <= i <= 19 /\ length (buffer pidStr' i) = Z.to_nat i
          /\ all_digits (buffer pidStr' i)
          /\ c_string pidStr' = string_of_list_ascii (buffer pidStr' i)
          /\ (0 < i -> stoi (c_string pidStr') <> Threw invalid_argument))
  end
  /\ (forall a, input_loop (KEY_BACKSPACE :: keys) a 0 = input_loop keys a 0)
  /\ (forall a ch, isdigit_code ch = true ->
        input_loop (ch :: keys) a 19 = input_loop keys a 19)
  /\ (forall a i ch, ch <> KEY_ESC -> ch <> KEY_ENTER -> ch <> KEY_BACKSPACE ->
        ch <> KEY_DEL -> isdigit_code ch = false ->
        input_loop (ch :: keys) a i = input_loop keys a i).
Proof.
  intros Hlen.
  assert (Hsize : forall a i, buffer_ok a i -> length (buffer a i) = Z.to_nat i).
  { intros a i (Ha & Hi & _). unfold buffer. rewrite length_take. lia. }
  split; [|split; [|split]].
  - pose proof (input_loop_invariant keys pidStr 0 (buffer_ok_initial _ Hlen)) as Hinv.
    destruct (input_loop keys pidStr 0) as [a i|a i].
    + pose proof (Hsize a i Hinv). destruct Hinv as (_ & Hi & Hdig). done.
    + destruct Hinv as [?|[Hok Hnul]]; [by left | right].
      pose proof (Hsize a i Hok). destruct Hok as (_ & Hi & Hdig).
      pose proof (c_string_buffer a i ltac:(lia) Hdig Hnul) as Hstr.
      repeat split; try done; try lia.
      intros Hpos. rewrite Hstr. apply stoi_digits; [done|].
      intros Hnil. rewrite Hnil in H. simpl in H. lia.
  - reflexivity.
  - intros a ch Hd. cbn [input_loop].
    assert (Hr : 48 <= ch <= 57)
      by (unfold isdigit_code in Hd; apply andb_true_iff in Hd as [H1 H2]; lia).
    replace (ch =? KEY_ESC) with false by (symmetry; apply Z.eqb_neq; unfold KEY_ESC; lia).
    replace (ch =? KEY_ENTER) with false
      by (symmetry; apply Z.eqb_neq; unfold KEY_ENTER; lia).
    replace (ch =? KEY_BACKSPACE) with false
      by (symmetry; apply Z.eqb_neq; unfold KEY_BACKSPACE; lia).
    replace (ch =? KEY_DEL) with false by (symmetry; apply Z.eqb_neq; unfold KEY_DEL; lia).
    cbn [orb]. by rewrite andb_false_r.
  - intros a i ch Hesc Hent Hbs Hdel Hnd. cbn [input_loop].
    apply Z.eqb_neq in Hesc, Hent, Hbs, Hdel. by rewrite Hesc, Hent, Hbs, Hdel, Hnd.
Qed.

Lemma kill_modal_buffer_invariant_witness :
  input_loop [49; 50; KEY_BACKSPACE] (replicate 20 NUL) 0
  = Reading (<[1%nat := char_of 50]> (<[0%nat := char_of 49]> (replicate 20 NUL))) 1
  /\ all_digits (buffer (<[1%nat := char_of 50]> (<[0%nat := char_of 49]> (replicate 20 NUL))) 1).
Proof.
  pose proof (kill_modal_buffer_invariant [49; 50; KEY_BACKSPACE] (replicate 20 NUL)
                ltac:(reflexivity)) as [Hinv _].
  split; [reflexivity|]. exact (proj2 (proj2 Hinv)).
Defined.

(* ===================================================================== *)
(** * Reading what the kernel writes *)
(* ===================================================================== *)

Section NumeralFacts.

Lemma append_cons c (s r : string) : (String c s ++ r)%string = String c (s ++ r)%string.
Proof. reflexivity. Qed.

Lemma append_empty (r : string) : (EmptyString ++ r)%string = r.
Proof. reflexivity. Qed.

Lemma append_empty_r (s : string) : (s ++ EmptyString)%string = s.
Proof. induction s as [|c s IH]; [done|]. by rewrite append_cons, IH. Qed.

Lemma take_digits_cons_digit acc seen c s :
  isdigit c = true ->
  take_digits acc seen (String c s) = take_digits (acc * 10 + digit_value c) true s.
Proof. intros H. cbn [take_digits]. by rewrite H. Qed.

Lemma take_digits_stop acc s :
  stops_at (fun c => negb (isdigit c)) s -> take_digits acc true s = (Some acc, s).
Proof.
  destruct s as [|c s]; [done|]. cbn [stops_at take_digits].
  intros H. apply negb_true_iff in H. by rewrite H.
Qed.

Lemma take_digits_uint d : forall acc seen rest,
  take_digits acc seen (NilEmpty.string_of_uint d ++ rest)
  = take_digits (uint_value acc d)
      (seen || match d with Decimal.Nil => false | _ => true end) rest.
Proof.
  induction d; intros acc seen rest;
    cbn [NilEmpty.string_of_uint uint_value]; rewrite ?append_cons, ?append_empty;
    [by rewrite orb_false_r | ..];
    rewrite take_digits_cons_digit by reflexivity; rewrite IHd;
    rewrite orb_true_r; destruct d; reflexivity.
Qed.

Lemma uint_value_of_uint_acc d : forall acc,
  Zpos (Pos.of_uint_acc d acc) = uint_value (Zpos acc) d.
Proof.
  induction d; intros acc; cbn [Pos.of_uint_acc uint_value]; [done | ..];
    rewrite IHd; f_equal; lia.
Qed.

Lemma uint_value_of_uint d : Z.of_N (Pos.of_uint d) = uint_value 0 d.
Proof.
  induction d; cbn [Pos.of_uint uint_value]; [done | exact IHd | ..];
    cbn [Z.of_N]; rewrite uint_value_of_uint_acc; reflexivity.
Qed.

Lemma uint_value_to_uint n : uint_value 0 (N.to_uint n) = Z.of_N n.
Proof.
  rewrite <- uint_value_of_uint. change (Pos.of_uint ?d) with (N.of_uint d).
  by rewrite DecimalN.Unsigned.of_to.
Qed.

Lemma string_all_append f (s r : string) :
  string_all f (s ++ r) = string_all f s && string_all f r.
Proof.
  induction s as [|c s IH]; [done|].
  rewrite append_cons. cbn [string_all]. by rewrite IH, andb_assoc.
Qed.

Lemma string_all_impl (f g : ascii -> bool) s :
  (forall c, f c = true -> g c = true) -> string_all f s = true -> string_all g s = true.
Proof.
  intros Hfg. induction s as [|c s IH]; [done|]. cbn [string_all].
  rewrite !andb_true_iff. intros [Hc Hs]. auto.
Qed.

Lemma string_of_uint_digits d : string_all isdigit (NilEmpty.string_of_uint d) = true.
Proof. induction d; cbn [NilEmpty.string_of_uint string_all]; [done | ..]; exact IHd. Qed.

Lemma to_uint_not_Nil n : N.to_uint n <> Decimal.Nil.
Proof. destruct n; [done|]. apply DecimalPos.Unsigned.to_uint_nonnil. Qed.

Lemma decimal_digits n : string_all isdigit (decimal n) = true.
Proof. apply string_of_uint_digits. Qed.

(** A decimal numeral starts with a digit. *)
Lemma decimal_head n : exists c s, decimal n = String c s /\ isdigit c = true.
Proof.
  pose proof (decimal_digits n) as Hd. unfold decimal in *.
  pose proof (to_uint_not_Nil (Z.to_N n)) as Hn.
  destruct (N.to_uint (Z.to_N n)); [done | ..];
    cbn [NilEmpty.string_of_uint] in *; eexists _, _; (split; [reflexivity | reflexivity]).
Qed.

(** Reading a decimal numeral gives back the number. *)
Lemma take_digits_decimal n rest :
  0 <= n -> stops_at (fun c => negb (isdigit c)) rest ->
  take_digits 0 false (decimal n ++ rest) = (Some n, rest).
Proof.
  intros Hn Hrest. unfold decimal. rewrite take_digits_uint.
  pose proof (to_uint_not_Nil (Z.to_N n)) as Hnil.
  replace (false || _) with true by (by destruct (N.to_uint (Z.to_N n))).
  rewrite uint_value_to_uint, Z2N.id by done. by apply take_digits_stop.
Qed.

Lemma scan_integer_decimal n rest :
  0 <= n -> stops_at (fun c => negb (isdigit c)) rest ->
  scan_integer (decimal n ++ rest) = (false, Some n, rest).
Proof.
  intros Hn Hrest. pose proof (take_digits_decimal n rest Hn Hrest) as Ht.
  destruct (decimal_head n) as (c & s & Hs & Hc). rewrite Hs in *.
  rewrite append_cons in *. unfold scan_integer.
  destruct (isdigit_not_sign c Hc) as [-> ->]. by rewrite Ht.
Qed.

Lemma skipws_blanks sp s :
  blanks sp -> stops_at (fun c => negb (isspace c)) s -> skipws (sp ++ s) = s.
Proof.
  unfold blanks. induction sp as [|c sp IH]; intros Hsp Hs.
  - rewrite append_empty. destruct s as [|c s]; [done|].
    cbn [stops_at skipws] in *. apply negb_true_iff in Hs. by rewrite Hs.
  - cbn [string_all] in Hsp. apply andb_true_iff in Hsp as [Hc Hsp].
    rewrite append_cons. cbn [skipws]. rewrite Hc. by apply IH.
Qed.

Lemma stoi_decimal_gen w sp n rest :
  blanks sp -> 0 <= n <= smax w -> 1 <= w ->
  stops_at (fun c => negb (isdigit c)) rest ->
  sto_signed w (sp ++ decimal n ++ rest) = Returned n.
Proof.
  intros Hsp Hn Hw Hrest. unfold sto_signed.
  destruct (decimal_head n) as (c & s & Hs & Hc).
  rewrite skipws_blanks; [|done|].
  - rewrite scan_integer_decimal by (done || lia).
    replace (in_rangeb w n) with true; [done|].
    symmetry. apply in_rangeb_spec. unfold in_range, smin.
    assert (0 < 2 ^ (w - 1)) by (apply Z.pow_pos_nonneg; lia). lia.
  - rewrite Hs, append_cons. cbn [stops_at]. by rewrite isdigit_not_space.
Qed.

Lemma is_blank_space c : is_blank c = true -> isspace c = true.
Proof.
  unfold is_blank. intros H. apply orb_true_iff in H as [H|H];
    apply Ascii.eqb_eq in H; by subst.
Qed.

Lemma is_blank_not_newline c : is_blank c = true -> negb (Ascii.eqb c newline) = true.
Proof.
  unfold is_blank. intros H. apply orb_true_iff in H as [H|H];
    apply Ascii.eqb_eq in H; by subst.
Qed.

Lemma isdigit_not_newline c : isdigit c = true -> negb (Ascii.eqb c newline) = true.
Proof.
  intros H. apply negb_true_iff, Ascii.eqb_neq. intros ->. discriminate H.
Qed.

Lemma not_space_not_newline c :
  negb (isspace c) = true -> negb (Ascii.eqb c newline) = true.
Proof.
  intros H. apply negb_true_iff, Ascii.eqb_neq. intros ->. discriminate H.
Qed.

Lemma gap_blanks sp : gap sp -> blanks sp.
Proof. intros [_ H]. unfold blanks. eapply string_all_impl; [apply is_blank_space | done]. Qed.

Lemma gap_stops sp s : gap sp -> stops_at isspace (sp ++ s).
Proof.
  intros [Hne H]. destruct sp as [|c sp]; [done|]. rewrite append_cons.
  cbn [string_all] in H. apply andb_true_iff in H as [Hc _]. by apply is_blank_space.
Qed.

Lemma stops_space_not_digit s :
  stops_at isspace s -> stops_at (fun c => negb (isdigit c)) s.
Proof.
  destruct s as [|c s]; [done|]. cbn [stops_at]. intros Hc.
  destruct (isdigit c) eqn:Hd; [|done]. by rewrite (isdigit_not_space c Hd) in Hc.
Qed.

(** [ss >> n] on a decimal numeral that fits the target. *)
Lemma extract_signed_decimal w sp n rest :
  blanks sp -> 0 <= n <= smax w ->
  stops_at (fun c => negb (isdigit c)) rest ->
  extract_signed w (stream_of (sp ++ decimal n ++ rest)) = (stream_of rest, Some n).
Proof.
  intros Hsp Hn Hrest. unfold extract_signed. cbn [failbit unread stream_of].
  pose proof (scan_integer_decimal n rest ltac:(lia) Hrest) as Hscan.
  destruct (decimal_head n) as (c & s & Hs & Hc).
  rewrite skipws_blanks;
    [|done|rewrite Hs, append_cons; cbn [stops_at]; by rewrite isdigit_not_space].
  rewrite Hs, append_cons in *. rewrite Hscan.
  by replace (n <=? smax w) with true by (symmetry; apply Z.leb_le; lia).
Qed.

Lemma extract_unsigned_decimal w sp n rest :
  blanks sp -> 0 <= n <= umax w ->
  stops_at (fun c => negb (isdigit c)) rest ->
  extract_unsigned w (stream_of (sp ++ decimal n ++ rest)) = (stream_of rest, Some n).
Proof.
  intros Hsp Hn Hrest. unfold extract_unsigned. cbn [failbit unread stream_of].
  pose proof (scan_integer_decimal n rest ltac:(lia) Hrest) as Hscan.
  destruct (decimal_head n) as (c & s & Hs & Hc).
  rewrite skipws_blanks;
    [|done|rewrite Hs, append_cons; cbn [stops_at]; by rewrite isdigit_not_space].
  rewrite Hs, append_cons in *. rewrite Hscan.
  by replace (n <=? umax w) with true by (symmetry; apply Z.leb_le; lia).
Qed.

Lemma take_word_word w rest :
  string_all (fun c => negb (isspace c)) w = true -> stops_at isspace rest ->
  take_word (w ++ rest) = (w, rest).
Proof.
  intros Hw Hrest. induction w as [|c w IH].
  - rewrite append_empty. destruct rest as [|c rest]; [done|].
    cbn [stops_at take_word] in *. by rewrite Hrest.
  - cbn [string_all] in Hw. apply andb_true_iff in Hw as [Hc Hw].
    rewrite append_cons. cbn [take_word]. apply negb_true_iff in Hc.
    by rewrite Hc, IH.
Qed.

(** [ss >> word] *)
Lemma extract_string_word sp w rest :
  blanks sp -> word w -> stops_at isspace rest ->
  extract_string (stream_of (sp ++ w ++ rest)) = (stream_of rest, Some w).
Proof.
  intros Hsp [Hne Hw] Hrest. unfold extract_string. cbn [failbit unread stream_of].
  destruct w as [|c w]; [done|].
  pose proof (take_word_word (String c w) rest Hw Hrest) as Ht.
  cbn [string_all] in Hw. apply andb_true_iff in Hw as [Hc _].
  rewrite skipws_blanks; [|done|by rewrite append_cons].
  rewrite append_cons in *. by rewrite Ht.
Qed.

(** Once the stream has failed, or at its end, an extraction writes
    nothing. *)
Lemma extract_signed_failed w s : extract_signed w (failed_at s) = (failed_at s, None).
Proof. reflexivity. Qed.

Lemma extract_signed_at_end w sp :
  blanks sp -> extract_signed w (stream_of sp) = (failed_at EmptyString, None).
Proof.
  intros Hsp. unfold extract_signed. cbn [failbit unread stream_of].
  rewrite <- (append_empty_r sp). by rewrite skipws_blanks.
Qed.

Lemma append_assoc (a b c : string) : ((a ++ b) ++ c)%string = (a ++ b ++ c)%string.
Proof. induction a as [|x a IH]; [reflexivity|]. by rewrite !append_cons, IH. Qed.

Lemma starts_with_append p l x : starts_with p l = true -> starts_with p (l ++ x) = true.
Proof.
  unfold starts_with. revert l.
  induction p as [|c p IH]; intros l; [by destruct (l ++ x)%string|].
  destruct l as [|d l]; [done|]. rewrite append_cons. cbn [String.prefix].
  destruct (ascii_dec c d); [apply IH | done].
Qed.

Lemma lines_one_line l rest :
  one_line l -> lines (l ++ String newline rest) = l :: lines rest.
Proof.
  unfold one_line. induction l as [|c l IH]; intros Hl.
  - rewrite append_empty. cbn [lines]. by rewrite Ascii.eqb_refl.
  - cbn [string_all] in Hl. apply andb_true_iff in Hl as [Hc Hl].
    rewrite append_cons. cbn [lines]. apply negb_true_iff in Hc. by rewrite Hc, IH.
Qed.

Lemma lines_last_line l : one_line l -> l <> EmptyString -> lines l = [l].
Proof.
  unfold one_line. induction l as [|c l IH]; intros Hl Hne; [done|].
  cbn [string_all] in Hl. apply andb_true_iff in Hl as [Hc Hl].
  cbn [lines]. apply negb_true_iff in Hc. rewrite Hc.
  destruct l as [|d l]; [done|]. by rewrite IH.
Qed.

(** The first line of a file that starts with the line [l]. *)
Lemma first_line_newline l rest :
  one_line l -> first_line (Some (l ++ String newline rest)%string) = l.
Proof. intros Hl. unfold first_line. by rewrite lines_one_line. Qed.

Lemma first_line_last l : one_line l -> first_line (Some l) = l.
Proof.
  intros Hl. unfold first_line. destruct l as [|c l]; [done|].
  by rewrite lines_last_line.
Qed.

Lemma one_line_append a b : one_line a -> one_line b -> one_line (a ++ b).
Proof. unfold one_line. intros Ha Hb. by rewrite string_all_append, Ha, Hb. Qed.

Lemma one_line_decimal n : one_line (decimal n).
Proof.
  unfold one_line. eapply string_all_impl; [apply isdigit_not_newline | apply decimal_digits].
Qed.

Lemma one_line_gap sp : gap sp -> one_line sp.
Proof. intros [_ H]. unfold one_line. eapply string_all_impl; [apply is_blank_not_newline | done]. Qed.

Lemma one_line_word w : word w -> one_line w.
Proof. intros [_ H]. unfold one_line. eapply string_all_impl; [apply not_space_not_newline | done]. Qed.

Lemma one_line_fields fs : Forall (fun f => gap (fst f)) fs -> one_line (fields_text fs).
Proof.
  induction 1 as [|[sp n] fs Hsp _ IH]; [done|]. cbn [fields_text].
  auto using one_line_append, one_line_decimal, one_line_gap.
Qed.

Lemma one_line_words ws :
  Forall (fun w => gap (fst w) /\ word (snd w)) ws -> one_line (words_text ws).
Proof.
  induction 1 as [|[sp w] ws [Hsp Hw] _ IH]; [done|]. cbn [words_text].
  auto using one_line_append, one_line_word, one_line_gap.
Qed.

Lemma fields_text_stops fs extra :
  Forall (fun f => gap (fst f)) fs -> stops_at isspace extra ->
  stops_at isspace (fields_text fs ++ extra).
Proof.
  intros Hfs Hextra. destruct Hfs as [|[sp n] fs Hsp _]; [by rewrite append_empty|].
  cbn [fields_text]. rewrite append_assoc. by apply gap_stops.
Qed.

End NumeralFacts.

(* ===================================================================== *)
(** * Reading the system counters *)
(* ===================================================================== *)

Lemma read_numbers_failed k s : read_numbers k (failed_at s) = replicate k 0.
Proof. induction k as [|k IH]; [done|]. cbn [read_numbers]. by rewrite extract_signed_failed, IH. Qed.

Lemma read_numbers_at_end k sp : blanks sp -> read_numbers k (stream_of sp) = replicate k 0.
Proof.
  intros Hsp. destruct k as [|k]; [done|]. cbn [read_numbers].
  by rewrite extract_signed_at_end, read_numbers_failed.
Qed.

(** Numbers that are there are read as written; targets for which the line
    has no number left keep their 0. *)
Lemma read_numbers_fields k : forall fs extra,
  Forall (fun f => gap (fst f) /\ 0 <= snd f <= LLONG_MAX) fs ->
  stops_at isspace extra -> (length fs < k -> blanks extra)%nat ->
  read_numbers k (stream_of (fields_text fs ++ extra))
  = take k (snd <$> fs) ++ replicate (k - length fs) 0.
Proof.
  induction k as [|k IH]; intros fs extra Hfs Hextra Hshort; [done|].
  destruct Hfs as [|[sp n] fs [Hsp Hn] Hfs].
  - rewrite append_empty. rewrite read_numbers_at_end; [done|]. apply Hshort. simpl. lia.
  - cbn [fields_text]. rewrite !append_assoc. cbn [read_numbers].
    rewrite extract_signed_decimal.
    + cbn [stored fmap list_fmap take length Nat.sub app]. f_equal. apply IH; [done..|].
      intros Hlt. apply Hshort. simpl. lia.
    + by apply gap_blanks.
    + done.
    + apply stops_space_not_digit, fields_text_stops; [|done].
      eapply Forall_impl; [exact Hfs|]. by intros ? [? _].
Qed.

(** The counters of the sample are what eight extractions after the label
    store. *)
Lemma getSystemCpuTimes_fields proc_stat :
  cpu_fields (getSystemCpuTimes proc_stat)
  = if starts_with "cpu" (first_line proc_stat)
    then read_numbers 8 (fst (extract_string (stream_of (first_line proc_stat))))
    else replicate 8 0.
Proof.
  unfold getSystemCpuTimes.
  destruct (starts_with "cpu" (first_line proc_stat)); [|reflexivity].
  destruct (extract_string _) as [ss0 label]. cbn [fst read_numbers].
  destruct (extract_signed 64 ss0) as [ss1 w1].
  destruct (extract_signed 64 ss1) as [ss2 w2].
  destruct (extract_signed 64 ss2) as [ss3 w3].
  destruct (extract_signed 64 ss3) as [ss4 w4].
  destruct (extract_signed 64 ss4) as [ss5 w5].
  destruct (extract_signed 64 ss5) as [ss6 w6].
  destruct (extract_signed 64 ss6) as [ss7 w7].
  destruct (extract_signed 64 ss7) as [ss8 w8].
  reflexivity.
Qed.

(** X1.  A first line made of a label that begins with "cpu" and of decimal
    counters separated by blanks is read field by field: the sample holds
    the numbers as written, in order; when the line has fewer than eight
    numbers the fields left over are 0, and what follows the eighth number
    is ignored. *)
Theorem cpu_line_round_trip label fs extra rest_of_file :
  word label -> starts_with "cpu" label = true ->
  Forall (fun f => gap (fst f) /\ 0 <= snd f <= LLONG_MAX) fs ->
  one_line extra -> stops_at isspace extra -> (length fs < 8 -> blanks extra)%nat ->
  cpu_fields (getSystemCpuTimes
                (Some (label ++ fields_text fs ++ extra ++ String newline rest_of_file)%string))
  = take 8 (snd <$> fs) ++ replicate (8 - length fs) 0.
Proof.
  intros Hlabel Hcpu Hfs Hline Hextra Hshort.
  assert (Hgaps : Forall (fun f => gap (fst f)) fs)
    by (eapply Forall_impl; [exact Hfs|]; by intros ? [? _]).
  rewrite getSystemCpuTimes_fields.
  replace (label ++ fields_text fs ++ extra ++ String newline rest_of_file)%string
    with ((label ++ fields_text fs ++ extra) ++ String newline rest_of_file)%string
    by (by rewrite !append_assoc).
  rewrite first_line_newline
    by auto using one_line_append, one_line_word, one_line_fields.
  rewrite starts_with_append by done.
  rewrite <- (append_empty (label ++ _)).
  rewrite extract_string_word; [|done|done|by apply fields_text_stops].
  by apply read_numbers_fields.
Qed.

(* ===================================================================== *)
(** * Reading the memory information *)
(* ===================================================================== *)

(** A line whose first word is neither key leaves both values as they
    are. *)
Lemma scan_meminfo_other junk line ls t a :
  first_word line <> "MemTotal:"%string -> first_word line <> "MemAvailable:"%string ->
  exists junk',
    scan_meminfo junk (line :: ls) t a
    = if (0 <? t) && (0 <? a) then (t, a) else scan_meminfo junk' ls t a.
Proof.
  unfold first_word. intros Ht Ha. cbn [scan_meminfo].
  destruct (extract_string (stream_of line)) as [ss k]. cbn [snd] in *.
  destruct (extract_signed 64 ss) as [ss' w]. exists (stored junk w).
  apply String.eqb_neq in Ht, Ha. by rewrite Ht, Ha.
Qed.

Lemma scan_meminfo_no_total ls : forall junk t a,
  Forall (fun line => first_word line <> "MemTotal:"%string) ls ->
  fst (scan_meminfo junk ls t a) = t.
Proof.
  induction ls as [|line ls IH]; intros junk t a Hls; [done|].
  apply Forall_cons in Hls as [Hline Hls]. cbn [scan_meminfo].
  unfold first_word in Hline.
  destruct (extract_string (stream_of line)) as [ss k]. cbn [snd] in *.
  destruct (extract_signed 64 ss) as [ss' w].
  apply String.eqb_neq in Hline. rewrite Hline.
  match goal with |- context [if ?c then _ else _] => destruct c end; [done|].
  by apply IH.
Qed.

Lemma scan_meminfo_no_available ls : forall junk t a,
  Forall (fun line => first_word line <> "MemAvailable:"%string) ls ->
  snd (scan_meminfo junk ls t a) = a.
Proof.
  induction ls as [|line ls IH]; intros junk t a Hls; [done|].
  apply Forall_cons in Hls as [Hline Hls]. cbn [scan_meminfo].
  unfold first_word in Hline.
  destruct (extract_string (stream_of line)) as [ss k]. cbn [snd] in *.
  destruct (extract_signed 64 ss) as [ss' w].
  apply String.eqb_neq in Hline. rewrite Hline.
  destruct (String.eqb (stored EmptyString k) "MemTotal:");
    (match goal with |- context [if ?c then _ else _] => destruct c end; [done|]);
    by apply IH.
Qed.

(** X2.  A memory source that cannot be read gives (0, 0); a source without
    a line whose first word is "MemTotal:" gives total 0, and one without a
    "MemAvailable:" line gives available 0, whatever the other lines and the
    uninitialised [value] hold. *)
Theorem getMemoryInfo_missing_key junk :
  getMemoryInfo junk None = (0, 0)
  /\ (forall content,
        Forall (fun line => first_word line <> "MemTotal:"%string) (lines content) ->
        fst (getMemoryInfo junk (Some content)) = 0)
  /\ (forall content,
        Forall (fun line => first_word line <> "MemAvailable:"%string) (lines content) ->
        snd (getMemoryInfo junk (Some content)) = 0).
Proof.
  split; [reflexivity|]. split; intros content H; unfold getMemoryInfo.
  - by apply scan_meminfo_no_total.
  - by apply scan_meminfo_no_available.
Qed.

Lemma first_word_key key sp x :
  word key -> gap sp -> first_word (key ++ sp ++ x) = key.
Proof.
  intros Hkey Hsp. unfold first_word.
  rewrite <- (append_empty (key ++ _)).
  rewrite extract_string_word; [done|done|done|by apply gap_stops].
Qed.

Lemma scan_meminfo_others pre : forall junk ls t a,
  Forall (fun line => first_word line <> "MemTotal:"%string
                      /\ first_word line <> "MemAvailable:"%string) pre ->
  (0 <? t) && (0 <? a) = false ->
  exists junk', scan_meminfo junk (pre ++ ls) t a = scan_meminfo junk' ls t a.
Proof.
  induction pre as [|line pre IH]; intros junk ls t a Hpre Hta; [by exists junk|].
  apply Forall_cons in Hpre as [[H1 H2] Hpre].
  destruct (scan_meminfo_other junk line (pre ++ ls) t a H1 H2) as [junk1 Hline].
  rewrite <- app_comm_cons, Hline, Hta. by apply IH.
Qed.

(** A line "key: number unit" stores the number under its key. *)
Lemma scan_meminfo_key_line junk key sp v rest ls t a :
  word key -> gap sp -> 0 <= v <= LLONG_MAX -> stops_at isspace rest ->
  scan_meminfo junk ((key ++ sp ++ decimal v ++ rest)%string :: ls) t a
  = let t' := if String.eqb key "MemTotal:" then v else t in
    let a' := if String.eqb key "MemTotal:" then a
              else if String.eqb key "MemAvailable:" then v else a in
    if (0 <? t') && (0 <? a') then (t', a') else scan_meminfo v ls t' a'.
Proof.
  intros Hkey Hsp Hv Hrest. cbn [scan_meminfo].
  rewrite <- (append_empty (key ++ _)).
  rewrite extract_string_word; [|done|done|by apply gap_stops].
  rewrite extract_signed_decimal;
    [done | by apply gap_blanks | done | by apply stops_space_not_digit].
Qed.

(** X3.  When the memory source has a line "MemTotal: T" followed, further
    down, by a line "MemAvailable: A", with T and A positive and no other
    line before them carrying one of the two keys, the result is (T, A):
    the lines after the second key are not read, and the uninitialised
    [value] plays no part. *)
Theorem getMemoryInfo_round_trip junk content pre mid post sp1 T rest1 sp2 A rest2 :
  lines content
    = pre ++ ("MemTotal:" ++ sp1 ++ decimal T ++ rest1)%string
          :: mid ++ ("MemAvailable:" ++ sp2 ++ decimal A ++ rest2)%string :: post ->
  Forall (fun line => first_word line <> "MemTotal:"%string
                      /\ first_word line <> "MemAvailable:"%string) (pre ++ mid) ->
  gap sp1 -> gap sp2 -> stops_at isspace rest1 -> stops_at isspace rest2 ->
  0 < T <= LLONG_MAX -> 0 < A <= LLONG_MAX ->
  getMemoryInfo junk (Some content) = (T, A).
Proof.
  intros Hlines Hother Hsp1 Hsp2 Hr1 Hr2 HT HA.
  apply Forall_app in Hother as [Hpre Hmid].
  unfold getMemoryInfo. rewrite Hlines.
  destruct (scan_meminfo_others pre junk
              (("MemTotal:" ++ sp1 ++ decimal T ++ rest1)%string
                 :: mid ++ ("MemAvailable:" ++ sp2 ++ decimal A ++ rest2)%string :: post)
              0 0 Hpre eq_refl) as [junk1 ->].
  rewrite scan_meminfo_key_line; [|done|done|lia|done].
  cbn zeta. rewrite String.eqb_refl.
  replace (0 <? T) with true by (symmetry; apply Z.ltb_lt; lia). cbn [andb Z.ltb Z.compare].
  destruct (scan_meminfo_others mid T
              (("MemAvailable:" ++ sp2 ++ decimal A ++ rest2)%string :: post)
              T 0 Hmid) as [junk2 ->];
    [by replace (0 <? 0) with false by done; rewrite andb_false_r|].
  rewrite scan_meminfo_key_line; [|done|done|lia|done].
  cbn zeta. replace (String.eqb "MemAvailable:" "MemTotal:") with false by done.
  rewrite String.eqb_refl.
  replace (0 <? T) with true by (symmetry; apply Z.ltb_lt; lia).
  by replace (0 <? A) with true by (symmetry; apply Z.ltb_lt; lia).
Qed.

(* ===================================================================== *)
(** * User names *)
(* ===================================================================== *)

Lemma scan_uid_no_line ls uid :
  Forall (fun line => starts_with "Uid:" line = false) ls -> scan_uid ls uid = uid.
Proof.
  induction 1 as [|line ls Hline _ IH]; [done|]. cbn [scan_uid]. by rewrite Hline.
Qed.

Lemma scan_uid_first_line pre line post uid :
  Forall (fun line => starts_with "Uid:" line = false) pre ->
  starts_with "Uid:" line = true ->
  scan_uid (pre ++ line :: post) uid = scan_uid [line] uid.
Proof.
  induction 1 as [|l pre Hl _ IH]; intros Hline.
  - cbn [app scan_uid]. by rewrite Hline.
  - rewrite <- app_comm_cons. cbn [scan_uid]. rewrite Hl. by apply IH.
Qed.

Lemma scan_uid_decimal sp u rest uid :
  gap sp -> 0 <= u <= umax 32 -> stops_at isspace rest ->
  scan_uid [("Uid:" ++ sp ++ decimal u ++ rest)%string] uid = u.
Proof.
  intros Hsp Hu Hrest. cbn [scan_uid].
  rewrite starts_with_append by done.
  rewrite <- (append_empty ("Uid:" ++ _)).
  rewrite extract_string_word; [|done|done|by apply gap_stops].
  rewrite extract_unsigned_decimal;
    [done | by apply gap_blanks | done | by apply stops_space_not_digit].
Qed.

(** X4.  The owner of a process is the uid of the first line of its status
    file that starts with "Uid:", looked up in the cache; a status file
    without such a line is attributed to uid 0; a status file that cannot be
    opened gives "n/a", and a uid that is not cached gives "unknown". *)
Theorem getUsername_cases cache fs pid :
  (status_reopened fs pid = None -> getUsername cache fs pid = "n/a"%string)
  /\ (forall content,
        status_reopened fs pid = Some content ->
        Forall (fun line => starts_with "Uid:" line = false) (lines content) ->
        getUsername cache fs pid = default "unknown"%string (cache !! 0))
  /\ (forall content pre sp u rest post,
        status_reopened fs pid = Some content ->
        lines content = pre ++ ("Uid:" ++ sp ++ decimal u ++ rest)%string :: post ->
        Forall (fun line => starts_with "Uid:" line = false) pre ->
        gap sp -> 0 <= u <= umax 32 -> stops_at isspace rest ->
        getUsername cache fs pid = default "unknown"%string (cache !! u)).
Proof.
  unfold getUsername. split; [by intros ->|]. split.
  - intros content -> Hno. rewrite scan_uid_no_line by done. by destruct (cache !! 0).
  - intros content pre sp u rest post -> Hlines Hpre Hsp Hu Hrest.
    rewrite Hlines, scan_uid_first_line, scan_uid_decimal by (done || by apply starts_with_append).
    by destruct (cache !! u).
Qed.

Lemma loadUsernames_snoc passwd pw :
  loadUsernames (passwd ++ [pw]) = <[fst pw := snd pw]> (loadUsernames passwd).
Proof. unfold loadUsernames. by rewrite foldl_app. Qed.

(** X5.  After [loadUsernames] the cache maps a uid to the name of the last
    entry of the account database that carries it, and has no entry for a
    uid that the database does not list. *)
Theorem loadUsernames_lookup passwd uid :
  (uid ∉ (fst <$> passwd) -> loadUsernames passwd !! uid = None)
  /\ (forall before name after,
        passwd = before ++ (uid, name) :: after -> uid ∉ (fst <$> after) ->
        loadUsernames passwd !! uid = Some name).
Proof.
  split.
  - induction passwd as [|pw passwd IH] using rev_ind; intros Hnot; [done|].
    rewrite loadUsernames_snoc. rewrite fmap_app in Hnot.
    apply not_elem_of_app in Hnot as [Hnot Hpw].
    rewrite lookup_insert_ne; [by apply IH|].
    intros <-. apply Hpw. left.
  - intros before name after -> Hafter.
    induction after as [|pw after IH] using rev_ind.
    + by rewrite loadUsernames_snoc, lookup_insert_eq.
    + rewrite app_comm_cons, app_assoc, loadUsernames_snoc.
      rewrite fmap_app in Hafter. apply not_elem_of_app in Hafter as [Hafter Hpw].
      rewrite lookup_insert_ne; [by apply IH|].
      intros <-. apply Hpw. left.
Qed.

(* ===================================================================== *)
(** * The scan of the process directory *)
(* ===================================================================== *)

Section ScanFacts.
Context (cache : gmap Z string) (prev : gmap Z (Z * Z)) (fs : ProcFS).
Context (memKb cpuDelta : Z).

Local Abbreviation sample := (sample_entry cache prev fs memKb cpuDelta).
Local Abbreviation scan := (scan_entries cache prev fs memKb cpuDelta).
Local Abbreviation pushes := (pushed_by cache prev fs memKb cpuDelta).

Lemma scan_entries_returned entries : forall acc sampled,
  scan entries acc = Returned sampled -> sampled = acc ++ (entries ≫= pushes).
Proof.
  induction entries as [|d entries IH]; intros acc sampled; cbn [scan_entries].
  - intros [= <-]. by rewrite app_nil_r.
  - unfold pushed_by at 1. cbn [mbind list_bind].
    destruct (sample d) as [[p|]|e]; step_result; [| |done]; intros Hs.
    + rewrite (IH _ _ Hs). by rewrite <- app_assoc.
    + by rewrite (IH _ _ Hs).
Qed.

Lemma scan_entries_no_throw entries : forall acc,
  Forall (fun d => ~ throws (sample d)) entries ->
  scan entries acc = Returned (acc ++ (entries ≫= pushes)).
Proof.
  induction entries as [|d entries IH]; intros acc Hall; cbn [scan_entries].
  - by rewrite app_nil_r.
  - apply Forall_cons in Hall as [Hd Hall]. unfold pushed_by at 1. cbn [mbind list_bind].
    destruct (sample d) as [[p|]|e]; step_result; [| |by destruct Hd].
    + rewrite IH by done. by rewrite <- app_assoc.
    + by rewrite IH.
Qed.

Lemma scan_entries_throw before d after e : forall acc,
  Forall (fun d => ~ throws (sample d)) before ->
  sample d = Threw e ->
  scan (before ++ d :: after) acc = Threw e.
Proof.
  induction before as [|b before IH]; intros acc Hall Hd.
  - cbn [app scan_entries]. by rewrite Hd.
  - apply Forall_cons in Hall as [Hb Hall]. rewrite <- app_comm_cons. cbn [scan_entries].
    destruct (sample b) as [r|e']; step_result; [by apply IH | by destruct Hb].
Qed.

(** X6.  The list that [getProcesses] returns is the concatenation, in the
    order of the directory, of what each entry pushes: no entry is sampled
    twice, none is left out and the order of the directory is kept.  The
    scan returns as soon as no entry throws; an entry that throws ends it
    with that exception, and the samples of the entries before it are
    lost.  A directory that cannot be opened gives the empty list. *)
Theorem getProcesses_in_directory_order :
  (proc_entries fs = None -> getProcesses cache prev fs memKb cpuDelta = Returned [])
  /\ (forall entries sampled,
        proc_entries fs = Some entries ->
        getProcesses cache prev fs memKb cpuDelta = Returned sampled ->
        sampled = entries ≫= pushes)
  /\ (forall entries,
        proc_entries fs = Some entries ->
        Forall (fun d => ~ throws (sample d)) entries ->
        getProcesses cache prev fs memKb cpuDelta = Returned (entries ≫= pushes))
  /\ (forall before d after e,
        proc_entries fs = Some (before ++ d :: after) ->
        Forall (fun d => ~ throws (sample d)) before ->
        sample d = Threw e ->
        getProcesses cache prev fs memKb cpuDelta = Threw e).
Proof.
  unfold getProcesses. split; [by intros ->|]. split; [|split].
  - intros entries sampled -> Hs. by apply scan_entries_returned in Hs.
  - intros entries -> Hall. by rewrite scan_entries_no_throw.
  - intros before d after e -> Hall Hd. by apply scan_entries_throw.
Qed.

End ScanFacts.

(* ===================================================================== *)
(** * Names of directory entries *)
(* ===================================================================== *)

Lemma take_digits_none s acc :
  stops_at (fun c => negb (isdigit c)) s -> take_digits acc false s = (None, s).
Proof.
  destruct s as [|c s]; [done|]. cbn [stops_at take_digits].
  intros H. apply negb_true_iff in H. by rewrite H.
Qed.

Lemma stoi_decimal n : 0 <= n <= INT_MAX -> stoi (decimal n) = Returned n.
Proof.
  intros Hn. pose proof (stoi_decimal_gen 32 EmptyString n EmptyString) as H.
  rewrite append_empty, append_empty_r in H.
  apply H; [done | unfold INT_MAX in Hn; lia | lia | done].
Qed.

Lemma stoi_out_of_range sp n junk :
  blanks sp -> INT_MAX < n -> stops_at (fun c => negb (isdigit c)) junk ->
  stoi (sp ++ decimal n ++ junk) = Threw out_of_range.
Proof.
  intros Hsp Hbig Hjunk.
  assert (Hn : 0 <= n) by (unfold INT_MAX, smax in Hbig; lia).
  destruct (decimal_head n) as (c0 & s0 & Hs0 & Hc0).
  assert (Hstop : stops_at (fun c => negb (isspace c)) (decimal n ++ junk))
    by (rewrite Hs0, append_cons; cbn [stops_at]; by rewrite isdigit_not_space).
  unfold stoi, sto_signed.
  rewrite skipws_blanks, scan_integer_decimal by done.
  replace (in_rangeb 32 n) with false; [done|].
  symmetry. apply not_true_iff_false. rewrite in_rangeb_spec.
  unfold in_range, INT_MAX in *. lia.
Qed.

Lemma stoi_decimal_out_of_range n : INT_MAX < n -> stoi (decimal n) = Threw out_of_range.
Proof.
  intros Hbig. pose proof (stoi_out_of_range EmptyString n EmptyString) as H.
  rewrite append_empty, append_empty_r in H. by apply H.
Qed.

(** X7.  What [std::stoi] makes of the name of a directory entry: blanks
    before the number and anything that is not a digit after it are
    accepted, and so is a minus sign; a number beyond the range of [int] is
    refused as out of range, and a name that does not begin (after blanks)
    with a digit or a sign is refused as not a number. *)
Theorem stoi_outcomes sp n junk :
  blanks sp -> 0 <= n -> stops_at (fun c => negb (isdigit c)) junk ->
  (n <= INT_MAX -> stoi (sp ++ decimal n ++ junk) = Returned n)
  /\ (n <= - INT_MIN -> stoi (sp ++ "-" ++ decimal n ++ junk) = Returned (- n))
  /\ (INT_MAX < n -> stoi (sp ++ decimal n ++ junk) = Threw out_of_range)
  /\ (forall c s,
        isspace c = false -> isdigit c = false ->
        c <> "-"%char -> c <> "+"%char ->
        stoi (sp ++ String c s) = Threw invalid_argument)
  /\ stoi sp = Threw invalid_argument.
Proof.
  intros Hsp Hn Hjunk.
  destruct (decimal_head n) as (c0 & s0 & Hs0 & Hc0).
  assert (Hstop : stops_at (fun c => negb (isspace c)) (decimal n ++ junk))
    by (rewrite Hs0, append_cons; cbn [stops_at]; by rewrite isdigit_not_space).
  split; [|split; [|split; [|split]]].
  - intros Hmax. apply stoi_decimal_gen; [done | unfold INT_MAX in Hmax; lia | lia | done].
  - intros Hmin. unfold stoi, sto_signed.
    rewrite skipws_blanks; [|done|done].
    change ("-" ++ decimal n ++ junk)%string with (String "-" (decimal n ++ junk)).
    unfold scan_integer. cbn [Ascii.eqb Bool.eqb]. rewrite take_digits_decimal by done.
    replace (in_rangeb 32 (- n)) with true; [done|].
    symmetry. apply in_rangeb_spec. unfold in_range, INT_MIN, smin, smax in *. lia.
  - intros Hbig. by apply stoi_out_of_range.
  - intros c s Hspace Hdigit Hminus Hplus. unfold stoi, sto_signed.
    rewrite skipws_blanks; [|done|by cbn [stops_at]; rewrite Hspace].
    unfold scan_integer.
    apply Ascii.eqb_neq in Hminus, Hplus. rewrite Hminus, Hplus.
    rewrite take_digits_none; [done|]. cbn [stops_at]. by rewrite Hdigit.
  - unfold stoi, sto_signed. rewrite <- (append_empty_r sp).
    by rewrite skipws_blanks.
Qed.

(* ===================================================================== *)
(** * The status file *)
(* ===================================================================== *)

Lemma rtrim_blank t : string_all is_trim_char t = true -> rtrim t = EmptyString.
Proof.
  induction t as [|c t IH]; [done|]. cbn [string_all rtrim].
  intros H. apply andb_true_iff in H as [Hc Ht]. by rewrite IH, Hc.
Qed.

Lemma rtrim_kept s c t :
  is_trim_char c = false -> string_all is_trim_char t = true ->
  rtrim (s ++ String c t) = (s ++ String c EmptyString)%string.
Proof.
  intros Hc Ht. induction s as [|x s IH].
  - rewrite !append_empty. cbn [rtrim]. by rewrite rtrim_blank, Hc.
  - rewrite !append_cons. cbn [rtrim]. rewrite IH.
    destruct s; [by rewrite append_empty | by rewrite append_cons].
Qed.

(** X8.  The trimming of the name removes the blanks (space, tab, carriage
    return, line feed) at its end and nothing else: blanks at the start and
    inside the name stay, and a name made of blanks only becomes empty. *)
Theorem rtrim_removes_trailing_blanks t :
  string_all is_trim_char t = true ->
  rtrim t = EmptyString
  /\ (forall s c, is_trim_char c = false ->
        rtrim (s ++ String c t) = (s ++ String c EmptyString)%string).
Proof.
  intros Ht.
  assert (Hblank : rtrim t = EmptyString).
  { induction t as [|c t IH]; [done|]. cbn [string_all rtrim] in *.
    apply andb_true_iff in Ht as [Hc Ht]. by rewrite IH, Hc. }
  split; [done|]. intros s c Hc. induction s as [|x s IH].
  - rewrite !append_empty. cbn [rtrim]. by rewrite Hblank, Hc.
  - rewrite !append_cons. cbn [rtrim]. rewrite IH.
    destruct s; [by rewrite append_empty | by rewrite append_cons].
Qed.

Lemma substr_from_append p v : substr_from (String.length p) (p ++ v) = Returned v.
Proof. induction p as [|c p IH]; [by destruct v|]. by rewrite append_cons. Qed.

Lemma scan_status_passed pre : forall ls nm kb,
  Forall passed_over pre -> scan_status (pre ++ ls) nm kb = scan_status ls nm kb.
Proof.
  induction pre as [|line pre IH]; intros ls nm kb Hpre; [done|].
  apply Forall_cons in Hpre as [[Hn Hr] Hpre].
  rewrite <- app_comm_cons. cbn [scan_status]. rewrite Hn, Hr. by apply IH.
Qed.

Lemma scan_status_end pre nm kb :
  Forall passed_over pre -> scan_status pre nm kb = Returned (nm, kb).
Proof. intros Hpre. rewrite <- (app_nil_r pre). by rewrite scan_status_passed. Qed.

Lemma scan_status_name_line c v ls nm kb :
  scan_status (("Name:" ++ String c v)%string :: ls) nm kb = scan_status ls (rtrim v) kb.
Proof.
  cbn [scan_status]. rewrite (starts_with_append "Name:" "Name:") by reflexivity.
  change ("Name:" ++ String c v)%string with (("Name:" ++ String c EmptyString) ++ v)%string.
  change 6%nat with (String.length ("Name:" ++ String c EmptyString)).
  by rewrite substr_from_append.
Qed.

Lemma scan_status_rss_line c v ls nm kb :
  scan_status (("VmRSS:" ++ String c v)%string :: ls) nm kb
  = kb' ← stol v; scan_status ls nm kb'.
Proof.
  cbn [scan_status].
  replace (starts_with "Name:" ("VmRSS:" ++ String c v)) with false by reflexivity.
  rewrite (starts_with_append "VmRSS:" "VmRSS:") by reflexivity.
  change ("VmRSS:" ++ String c v)%string with (("VmRSS:" ++ String c EmptyString) ++ v)%string.
  change 7%nat with (String.length ("VmRSS:" ++ String c EmptyString)).
  by rewrite substr_from_append.
Qed.

(** X9.  From a status file the loop takes the name as what follows the
    six characters "Name:" and one more, trimmed at its end, and the
    resident size as the number that follows the seven characters "VmRSS:"
    and one more; the unit after the number is ignored.  Without a
    "VmRSS:" line (a kernel thread) the resident size stays 0. *)
Theorem scan_status_round_trip pre c nm mid post :
  Forall passed_over (pre ++ mid ++ post) ->
  scan_status (pre ++ ("Name:" ++ String c nm)%string :: mid ++ post) EmptyString 0
  = Returned (rtrim nm, 0)
  /\ (forall c' sp rss rest,
        blanks sp -> 0 <= rss <= LLONG_MAX ->
        stops_at (fun c => negb (isdigit c)) rest ->
        scan_status
          (pre ++ ("Name:" ++ String c nm)%string
               :: mid ++ ("VmRSS:" ++ String c' (sp ++ decimal rss ++ rest))%string :: post)
          EmptyString 0
        = Returned (rtrim nm, rss)).
Proof.
  intros Hall. apply Forall_app in Hall as [Hpre Hall].
  pose proof Hall as Hrest. apply Forall_app in Hall as [Hmid Hpost].
  split.
  - rewrite scan_status_passed, scan_status_name_line by done. by apply scan_status_end.
  - intros c' sp rss rest Hsp Hrss Hstop.
    rewrite scan_status_passed, scan_status_name_line, scan_status_passed by done.
    rewrite scan_status_rss_line.
    unfold stol. rewrite stoi_decimal_gen; [|done|done|lia|done].
    step_result. by apply scan_status_end.
Qed.

(** X10.  A status line that holds nothing but "Name:" or "VmRSS:", or a
    "VmRSS:" line without a number, makes [getProcesses] throw: the
    exception is not caught, and the samples of the entries scanned before
    are lost with it. *)
Theorem malformed_status_throws cache prev fs memKb cpuDelta
    before d after pid status pre post :
  proc_entries fs = Some (before ++ d :: after) ->
  Forall (fun d' => ~ throws (sample_entry cache prev fs memKb cpuDelta d')) before ->
  stoi d = Returned pid -> is_Some (stat_file fs pid) ->
  status_file fs pid = Some status ->
  Forall passed_over pre ->
  (lines status = pre ++ "Name:"%string :: post
   \/ lines status = pre ++ "VmRSS:"%string :: post ->
   getProcesses cache prev fs memKb cpuDelta = Threw out_of_range)
  /\ (forall c v e,
        lines status = pre ++ ("VmRSS:" ++ String c v)%string :: post ->
        stol v = Threw e ->
        getProcesses cache prev fs memKb cpuDelta = Threw e).
Proof.
  intros Hdir Hbefore Hpid [content Hstat] Hstatus Hpre.
  assert (Hthrow : forall e,
            scan_status (lines status) EmptyString 0 = Threw e ->
            getProcesses cache prev fs memKb cpuDelta = Threw e).
  { intros e Hscan.
    unfold getProcesses. rewrite Hdir. apply scan_entries_throw; [done|].
    unfold sample_entry. rewrite Hpid, Hstat.
    destruct (extract_signed 64 _) as [ss1 w1]. destruct (extract_signed 64 ss1) as [ss2 w2].
    by rewrite Hstatus, Hscan. }
  split.
  - intros [Hlines|Hlines]; apply Hthrow; rewrite Hlines, scan_status_passed by done;
      reflexivity.
  - intros c v e Hlines Hv. apply Hthrow.
    rewrite Hlines, scan_status_passed, scan_status_rss_line by done. by rewrite Hv.
Qed.

(* ===================================================================== *)
(** * The counters of a process *)
(* ===================================================================== *)

Lemma words_text_stops ws rest :
  Forall (fun w => gap (fst w) /\ word (snd w)) ws -> stops_at isspace rest ->
  stops_at isspace (words_text ws ++ rest).
Proof.
  intros Hws Hrest. destruct Hws as [|[sp w] ws [Hsp _] _]; [by rewrite append_empty|].
  cbn [words_text]. rewrite append_assoc. by apply gap_stops.
Qed.

Lemma skip_fields_words ws : forall rest,
  Forall (fun w => gap (fst w) /\ word (snd w)) ws -> stops_at isspace rest ->
  skip_fields (length ws) (stream_of (words_text ws ++ rest)) = stream_of rest.
Proof.
  induction ws as [|[sp w] ws IH]; intros rest Hws Hrest; [done|].
  apply Forall_cons in Hws as [[Hsp Hw] Hws].
  cbn [length skip_fields words_text]. rewrite !append_assoc.
  rewrite extract_string_word;
    [by apply IH | by apply gap_blanks | done | by apply words_text_stops].
Qed.

(** X11.  The counters of a process are taken by position: the first
    thirteen blank-separated words of the first line of its stat file are
    passed over, whatever they are, and the fourteenth and fifteenth are
    read as utime and stime.  With a status file that gives a name, the
    entry named by the decimal pid yields exactly one sample, which carries
    these counters, the name and resident size of the status file, and the
    percentages derived from them. *)
Theorem sample_of_well_formed_process cache prev fs memKb cpuDelta
    the_pid w1 ws g1 u g2 s extra more status the_name rss :
  0 <= the_pid <= INT_MAX ->
  stat_file fs the_pid
    = Some (w1 ++ words_text ws ++ g1 ++ decimal u ++ g2 ++ decimal s ++ extra
            ++ String newline more)%string ->
  word w1 -> Forall (fun w => gap (fst w) /\ word (snd w)) ws -> length ws = 12%nat ->
  gap g1 -> gap g2 -> 0 <= u <= LLONG_MAX -> 0 <= s <= LLONG_MAX ->
  one_line extra -> stops_at isspace extra ->
  status_file fs the_pid = Some status ->
  scan_status (lines status) EmptyString 0 = Returned (the_name, rss) ->
  the_name <> EmptyString ->
  sample_entry cache prev fs memKb cpuDelta (decimal the_pid)
  = Returned (Some
      {| pid := the_pid; user := getUsername cache fs the_pid; name := the_name;
         cpuPercent := percent (processTimeDelta prev the_pid u s) cpuDelta;
         memPercent := percent rss memKb;
         memRssKb := rss; utime := u; stime := s |}).
Proof.
  intros Hpid Hstat Hw1 Hws Hlen Hg1 Hg2 Hu Hs Hextra Hstop Hstatus Hscan Hname.
  unfold sample_entry.
  replace (stoi (decimal the_pid)) with (Returned (A := Z) the_pid).
  2:{ symmetry. by apply stoi_decimal. }
  rewrite Hstat.
  set (tail := (g1 ++ decimal u ++ g2 ++ decimal s ++ extra)%string).
  assert (Htail : stops_at isspace tail) by by apply gap_stops.
  assert (Hline : one_line (w1 ++ words_text ws ++ tail)).
  { subst tail. repeat apply one_line_append;
      auto using one_line_word, one_line_words, one_line_gap, one_line_decimal. }
  replace (w1 ++ words_text ws ++ g1 ++ decimal u ++ g2 ++ decimal s ++ extra
           ++ String newline more)%string
    with ((w1 ++ words_text ws ++ tail) ++ String newline more)%string
    by (subst tail; by rewrite !append_assoc).
  rewrite first_line_newline by done.
  change 13%nat with (S 12). rewrite <- Hlen. cbn [skip_fields].
  rewrite <- (append_empty (w1 ++ _)).
  rewrite extract_string_word; [|done|done|by apply words_text_stops]. cbn [fst].
  rewrite skip_fields_words by done. subst tail.
  rewrite extract_signed_decimal;
    [|by apply gap_blanks|done|by apply stops_space_not_digit, gap_stops].
  rewrite extract_signed_decimal;
    [|by apply gap_blanks|done|by apply stops_space_not_digit].
  rewrite Hstatus, Hscan. step_result.
  apply String.eqb_neq in Hname. by rewrite Hname.
Qed.

(** X12.  A process that vanishes between the listing of the directory and
    the opening of its files (its stat or status file cannot be opened) is
    skipped without error, and so is one whose status file gives no name:
    the result is the one of the directory without that entry. *)
Theorem vanished_process_is_skipped cache prev fs memKb cpuDelta d pid :
  stoi d = Returned pid ->
  (stat_file fs pid = None \/ status_file fs pid = None
   \/ exists status rss,
        status_file fs pid = Some status
        /\ scan_status (lines status) EmptyString 0 = Returned (EmptyString, rss)) ->
  sample_entry cache prev fs memKb cpuDelta d = Returned None
  /\ (forall before after acc,
        scan_entries cache prev fs memKb cpuDelta (before ++ d :: after) acc
        = scan_entries cache prev fs memKb cpuDelta (before ++ after) acc).
Proof.
  intros Hpid Hgone.
  assert (Hskip : sample_entry cache prev fs memKb cpuDelta d = Returned None).
  { unfold sample_entry. rewrite Hpid.
    destruct (stat_file fs pid) as [content|]; [|done].
    destruct (extract_signed 64 _) as [ss1 w1]. destruct (extract_signed 64 ss1) as [ss2 w2].
    destruct Hgone as [?|[->|(status & rss & -> & ->)]]; done. }
  split; [done|].
  induction before as [|b before IH]; intros after acc.
  - cbn [app scan_entries]. by rewrite Hskip.
  - rewrite <- !app_comm_cons. cbn [scan_entries].
    destruct (sample_entry _ _ _ _ _ b) as [r|e]; step_result; [apply IH | done].
Qed.

(* ===================================================================== *)
(** * Successive iterations *)
(* ===================================================================== *)

Lemma sub64_diag z : sub64 z z = 0.
Proof. unfold sub64. by rewrite Z.sub_diag. Qed.

(** What the sampler computes from a table filled by [record_times]. *)
Lemma processTimeDelta_recorded (l : list Process) p1 k u s :
  NoDup (pid <$> l) -> p1 ∈ l -> pid p1 = k ->
  processTimeDelta (record_times ∅ l) k u s
  = sub64 (add64 u s) (add64 (utime p1) (stime p1)).
Proof.
  intros Hnd Hp1 <-. unfold processTimeDelta. by rewrite record_times_NoDup.
Qed.

Lemma processTimeDelta_new (l : list Process) k u s :
  (forall p, p ∈ l -> pid p <> k) ->
  processTimeDelta (record_times ∅ l) k u s = add64 u s.
Proof.
  intros Hnew. unfold processTimeDelta.
  rewrite record_times_not_elem, lookup_empty by done.
  apply sub64_zero_r, add64_range.
Qed.

(** X13.  Two successive iterations of the main loop.  The second one
    measures every process against the counters that the first one
    displayed: for a pid shown in both frames (pids distinct in the first)
    processDelta is the difference of the two (utime + stime), a pid that
    the first frame did not show is charged with all the time it has used
    so far, and the total delta is the difference of the two totals.  When
    the second iteration reads the same CPU counters as the first, the
    total delta is 0 and every CPU percentage of its frame is 0. *)
Theorem successive_ticks src1 src2 st0 st1 st2 frame1 frame2 :
  tick src1 st0 = Returned (st1, frame1) ->
  tick src2 st1 = Returned (st2, frame2) ->
  totalCpuDelta src2 st1
    = sub64 (SysCpu.total (getSystemCpuTimes (proc_stat src2)))
            (SysCpu.total (getSystemCpuTimes (proc_stat src1)))
  /\ (forall p1 p2,
        NoDup (pid <$> processes frame1) ->
        p1 ∈ processes frame1 -> p2 ∈ processes frame2 -> pid p1 = pid p2 ->
        cpuPercent p2
        = percent (sub64 (add64 (utime p2) (stime p2)) (add64 (utime p1) (stime p1)))
                  (totalCpuDelta src2 st1))
  /\ (forall p2,
        p2 ∈ processes frame2 ->
        (forall p1, p1 ∈ processes frame1 -> pid p1 <> pid p2) ->
        cpuPercent p2 = percent (add64 (utime p2) (stime p2)) (totalCpuDelta src2 st1))
  /\ (proc_stat src2 = proc_stat src1 ->
      totalCpuDelta src2 st1 = 0
      /\ sysCpuUsage frame2 = zero
      /\ forall p2, p2 ∈ processes frame2 -> cpuPercent p2 = zero).
Proof.
  intros Ht1 Ht2.
  destruct (tick_inv _ _ _ _ Ht1) as [_ Htable Hsys _ _].
  destruct (tick_inv _ _ _ _ Ht2) as [_ _ _ Husage _].
  assert (Hcpu : forall p2, p2 ∈ processes frame2 ->
            cpuPercent p2
            = percent (processTimeDelta (record_times ∅ (processes frame1))
                         (pid p2) (utime p2) (stime p2)) (totalCpuDelta src2 st1)).
  { intros p2 Hp2.
    destruct (tick_sampled _ _ _ _ _ Ht2 Hp2) as (entries & d & _ & _ & Hfrom).
    destruct Hfrom as [_ _ _ _ _ Hc _ _ _ _]. by rewrite Hc, Htable. }
  assert (Htotal : totalCpuDelta src2 st1
                   = sub64 (SysCpu.total (getSystemCpuTimes (proc_stat src2)))
                           (SysCpu.total (getSystemCpuTimes (proc_stat src1))))
    by (unfold totalCpuDelta; by rewrite Hsys).
  split; [done|]. split; [|split].
  - intros p1 p2 Hnd Hp1 Hp2 Hpid.
    by rewrite (Hcpu p2 Hp2), (processTimeDelta_recorded _ p1).
  - intros p2 Hp2 Hnew. by rewrite (Hcpu p2 Hp2), processTimeDelta_new.
  - intros Hsame.
    assert (Hzero : totalCpuDelta src2 st1 = 0)
      by (by rewrite Htotal, Hsame, sub64_diag).
    split; [done|]. split.
    + rewrite Husage, Hzero. reflexivity.
    + intros p2 Hp2. rewrite (Hcpu p2 Hp2), Hzero. reflexivity.
Qed.

(** X14.  The initial data load leaves the sort mode at BY_CPU and a table
    with an entry for exactly the pids of its warm-up sample; the first
    iteration of the main loop therefore measures a process that was already
    running (pids distinct in the warm-up sample) against its counters at
    start-up, not against 0. *)
Theorem first_tick_after_load cache proc_stat0 fs0 st0 src st1 frame :
  initial_load cache proc_stat0 fs0 = Returned st0 ->
  tick src st0 = Returned (st1, frame) ->
  currentSortMode st0 = BY_CPU
  /\ prevSysCpuTimes st0 = getSystemCpuTimes proc_stat0
  /\ exists warm_up,
       getProcesses cache ∅ fs0 1 1 = Returned warm_up
       /\ (forall k, is_Some (prevProcessTimes st0 !! k) <->
                     exists p, p ∈ warm_up /\ pid p = k)
       /\ (forall p0 p,
             NoDup (pid <$> warm_up) -> p0 ∈ warm_up -> p ∈ processes frame ->
             pid p0 = pid p ->
             cpuPercent p
             = percent (sub64 (add64 (utime p) (stime p)) (add64 (utime p0) (stime p0)))
                       (totalCpuDelta src st0)).
Proof.
  unfold initial_load. intros Hload Ht.
  destruct (getProcesses cache ∅ fs0 1 1) as [warm_up|e] eqn:Hwarm;
    cbn [mbind result_bind] in Hload; [|done].
  injection Hload as <-. cbn [currentSortMode prevSysCpuTimes prevProcessTimes].
  split; [done|]. split; [done|]. exists warm_up. split; [done|]. split.
  - intros k. rewrite record_times_is_Some. split.
    + intros [H|H]; [|done]. rewrite lookup_empty in H. by destruct H.
    + by right.
  - intros p0 p Hnd Hp0 Hp Hpid.
    destruct (tick_sampled _ _ _ _ _ Ht Hp) as (entries & d & _ & _ & Hfrom).
    destruct Hfrom as [_ _ _ _ _ Hc _ _ _ _]. rewrite Hc.
    cbn [prevProcessTimes]. by rewrite (processTimeDelta_recorded _ p0).
Qed.

(* ===================================================================== *)
(** * The order of the displayed list *)
(* ===================================================================== *)

Lemma StronglySorted_on {A : Type} (P : A -> Prop) (R R' : A -> A -> Prop) l :
  (forall a b, P a -> P b -> R a b -> R' a b) ->
  Forall P l -> StronglySorted R l -> StronglySorted R' l.
Proof.
  intros HR HP Hs. induction Hs as [|a l Hs IH Ha]; [constructor|].
  apply Forall_cons in HP as [Pa HP]. constructor; [by apply IH|].
  rewrite Forall_forall in Ha, HP |- *. auto.
Qed.

Lemma compareByMem_trans a b c :
  mem_not_nan a -> mem_not_nan b -> mem_not_nan c ->
  compareByMem b a = false -> compareByMem c b = false -> compareByMem c a = false.
Proof.
  unfold compareByMem, gtb, mem_not_nan. intros Ha Hb Hc Hba Hcb.
  apply SFleb_not_ltb. apply SFleb_trans with (memPercent b); by apply SFltb_false_leb.
Qed.

(** X15.  The list handed to the drawing functions is in the order of the
    current mode from its first to its last element: ascending pids in
    BY_PID, and, the percentages being numbers, descending cpuPercent in
    BY_CPU and descending memPercent in BY_MEM. *)
Theorem sort_processes_ordered (l : list Process) :
  StronglySorted (fun a b => pid a <= pid b) (sort_processes BY_PID l)
  /\ (Forall cpu_not_nan l ->
      StronglySorted (fun a b => geb (cpuPercent a) (cpuPercent b) = true)
        (sort_processes BY_CPU l))
  /\ (Forall mem_not_nan l ->
      StronglySorted (fun a b => geb (memPercent a) (memPercent b) = true)
        (sort_processes BY_MEM l)).
Proof.
  split; [|split].
  - destruct (std_sort_by_pid_result l) as [_ Hs].
    eapply (StronglySorted_on (fun _ => True)); [|by apply Forall_forall|exact Hs].
    intros a b _ _. unfold compareByPid. rewrite Z.ltb_ge. lia.
  - intros Hnan. cbn [sort_processes].
    assert (Hnan' : Forall cpu_not_nan (std_sort compareByCpu l))
      by (by rewrite <- (std_sort_perm compareByCpu l)).
    eapply (StronglySorted_on cpu_not_nan); [|exact Hnan'|].
    + intros a b Ha Hb. unfold compareByCpu, gtb, geb. by apply SFltb_false_leb.
    + apply (Sorted_ordered_by compareByCpu cpu_not_nan compareByCpu_trans); [done|].
      apply std_sort_Sorted, compareByCpu_asym.
  - intros Hnan. cbn [sort_processes].
    assert (Hnan' : Forall mem_not_nan (std_sort compareByMem l))
      by (by rewrite <- (std_sort_perm compareByMem l)).
    eapply (StronglySorted_on mem_not_nan); [|exact Hnan'|].
    + intros a b Ha Hb. unfold compareByMem, gtb, geb. by apply SFltb_false_leb.
    + apply (Sorted_ordered_by compareByMem mem_not_nan compareByMem_trans); [done|].
      apply std_sort_Sorted, compareByMem_asym.
Qed.

(** X16.  With pairwise distinct pids the contract of [std::sort] leaves no
    choice for the order by pid: every permutation of the list in which no
    element is put by [compareByPid] before one that precedes it is the list
    that the model returns. *)
Theorem sort_by_pid_determined (l l' : list Process) :
  NoDup (pid <$> l) -> sort_result compareByPid l l' ->
  l' = sort_processes BY_PID l.
Proof.
  intros Hnd Hres. apply (sort_result_by_pid_unique l); [done..|].
  apply std_sort_by_pid_result.
Qed.

Section DigitCount.

Lemma uint_value_lower d : forall acc,
  0 <= acc -> acc * 10 ^ Z.of_nat (Decimal.nb_digits d) <= uint_value acc d.
Proof.
  induction d; intros acc Hacc; cbn [Decimal.nb_digits uint_value]; [lia | ..];
    (etransitivity; [|apply IHd; lia]);
    rewrite Nat2Z.inj_succ, Z.pow_succ_r by lia;
    pose proof (Z.pow_pos_nonneg 10 (Z.of_nat (Decimal.nb_digits d)) ltac:(lia) ltac:(lia));
    nia.
Qed.

Lemma string_of_uint_length d :
  String.length (NilEmpty.string_of_uint d) = Decimal.nb_digits d.
Proof. induction d; cbn [NilEmpty.string_of_uint String.length Decimal.nb_digits]; congruence. Qed.

Lemma to_uint_normal n : Decimal.unorm (N.to_uint n) = N.to_uint n.
Proof.
  rewrite <- (DecimalN.Unsigned.of_to n) at 2.
  symmetry. apply DecimalN.Unsigned.to_of.
Qed.

(** A numeral has no more digits than its value needs. *)
Lemma decimal_length n k :
  0 <= n < 10 ^ Z.of_nat k -> (1 <= k)%nat -> (String.length (decimal n) <= k)%nat.
Proof.
  intros Hn Hk. unfold decimal. rewrite string_of_uint_length.
  pose proof (to_uint_normal (Z.to_N n)) as Hnorm.
  pose proof (uint_value_to_uint (Z.to_N n)) as Hval. rewrite Z2N.id in Hval by lia.
  destruct (N.to_uint (Z.to_N n)) as [|d|d|d|d|d|d|d|d|d|d] eqn:Hd;
    cbn [uint_value Decimal.nb_digits] in *.
  1: lia.
  1: { unfold Decimal.unorm in Hnorm. cbn [Decimal.nzhead] in Hnorm.
       pose proof (DecimalFacts.nb_digits_nzhead d) as Hle.
       destruct (Decimal.nzhead d) eqn:Hz;
         try (rewrite Hnorm in Hle; cbn [Decimal.nb_digits] in Hle; lia).
       injection Hnorm as <-. cbn [Decimal.nb_digits]. lia. }
  all: match type of Hval with uint_value ?acc _ = _ =>
         pose proof (uint_value_lower d acc ltac:(lia)) as Hlow end.
  all: assert (Hpow : 10 ^ Z.of_nat (Decimal.nb_digits d) < 10 ^ Z.of_nat k)
         by (pose proof (Z.pow_pos_nonneg 10 (Z.of_nat (Decimal.nb_digits d))
                           ltac:(lia) ltac:(lia)); nia).
  all: apply Z.pow_lt_mono_r_iff in Hpow; lia.
Qed.

End DigitCount.

(* ===================================================================== *)
(** * The text typed into the kill window *)
(* ===================================================================== *)

Lemma buffer_length a i : buffer_ok a i -> length (buffer a i) = Z.to_nat i.
Proof. intros (Ha & Hi & _). unfold buffer. rewrite length_take. lia. Qed.

(** The array and its index hold the text that the keys have edited. *)
Lemma input_loop_edits keys : forall a i,
  buffer_ok a i ->
  Forall (fun ch => ch <> KEY_ESC /\ ch <> KEY_ENTER) keys ->
  exists a' i',
    input_loop keys a i = Reading a' i' /\ buffer_ok a' i'
    /\ buffer a' i' = foldl edit (buffer a i) keys
    /\ forall rest, input_loop (keys ++ rest) a i = input_loop rest a' i'.
Proof.
  induction keys as [|ch keys IH]; intros a i Hok Hkeys; [by eauto 10|].
  apply Forall_cons in Hkeys as [[Hesc Hent] Hkeys].
  pose proof (buffer_length a i Hok) as Hlen.
  pose proof Hok as (Ha & Hi & Hdig).
  assert (Hstep : exists a1 i1,
            buffer_ok a1 i1 /\ buffer a1 i1 = edit (buffer a i) ch
            /\ forall rest, input_loop (ch :: rest) a i = input_loop rest a1 i1).
  { apply Z.eqb_neq in Hesc, Hent. unfold edit. cbn [input_loop]. rewrite Hesc, Hent.
    destruct ((ch =? KEY_BACKSPACE) || (ch =? KEY_DEL)).
    - destruct (Z.ltb_spec 0 i).
      + exists a, (i - 1). split; [|split; [|done]].
        * split; [done|]. split; [lia|]. by apply buffer_shrink.
        * unfold buffer in *. rewrite Hlen, take_take. f_equal. lia.
      + exists a, i. split; [done|]. split; [|done].
        replace i with 0 in * by lia. done.
    - rewrite Hlen, Z2Nat.id by lia.
      destruct (isdigit_code ch && (i <? 19)) eqn:Hd.
      + apply andb_true_iff in Hd as [Hd Hlt]. apply Z.ltb_lt in Hlt.
        exists (<[Z.to_nat i := char_of ch]> a), (i + 1). split; [|split; [|done]].
        * split; [by rewrite length_insert|]. split; [lia|].
          unfold all_digits. rewrite buffer_grow by lia.
          apply Forall_app. split; [done|]. repeat constructor. by apply char_of_digit.
        * apply buffer_grow; lia.
      + by exists a, i. }
  destruct Hstep as (a1 & i1 & Hok1 & Hbuf1 & Hrun1).
  destruct (IH a1 i1 Hok1 Hkeys) as (a' & i' & Hread & Hok' & Hbuf' & Hrun').
  exists a', i'. split; [by rewrite Hrun1|]. split; [done|]. split.
  - cbn [foldl]. by rewrite <- Hbuf1.
  - intros rest. rewrite <- app_comm_cons, Hrun1. apply Hrun'.
Qed.

Lemma killProcessWindow_enter (keys rest : list Z) (pidStr : list ascii) :
  length pidStr = 20%nat ->
  Forall (fun ch => ch <> KEY_ESC /\ ch <> KEY_ENTER) keys ->
  killProcessWindow (keys ++ KEY_ENTER :: rest) pidStr
  = Some (match stoi (string_of_list_ascii (typed keys)) with
          | Returned pid => [(pid, SIGTERM)]
          | Threw _ => []
          end).
Proof.
  intros Hlen Hkeys. unfold killProcessWindow.
  destruct (input_loop_edits keys pidStr 0 (buffer_ok_initial _ Hlen) Hkeys)
    as (a & i & Hread & Hok & Hbuf & Hrun).
  rewrite Hrun. cbn [input_loop]. change (KEY_ENTER =? KEY_ESC) with false.
  change (KEY_ENTER =? KEY_ENTER) with true. cbv iota.
  destruct Hok as (Ha & Hi & Hdig). unfold after_loop.
  replace (i =? -1) with false by (symmetry; apply Z.eqb_neq; lia).
  rewrite (c_string_buffer _ i); [| lia | by rewrite buffer_insert by lia
                                   | apply list_lookup_insert_eq; lia].
  rewrite buffer_insert by lia. rewrite Hbuf. reflexivity.
Qed.

(** X17.  The kill window as an editor of a text of at most 19 digits.
    While neither Esc nor Enter has been pressed the window waits; Esc sends
    nothing whatever was typed; Enter hands the text typed so far to
    [std::stoi] and sends one SIGTERM to the pid it reads, or nothing when
    it refuses the text.  The initial content of the buffer plays no
    part. *)
Theorem kill_window_edits_text (keys rest : list Z) (pidStr : list ascii) :
  length pidStr = 20%nat ->
  Forall (fun ch => ch <> KEY_ESC /\ ch <> KEY_ENTER) keys ->
  killProcessWindow keys pidStr = None
  /\ killProcessWindow (keys ++ KEY_ESC :: rest) pidStr = Some []
  /\ killProcessWindow (keys ++ KEY_ENTER :: rest) pidStr
     = Some (match stoi (string_of_list_ascii (typed keys)) with
             | Returned pid => [(pid, SIGTERM)]
             | Threw _ => []
             end).
Proof.
  intros Hlen Hkeys. split; [|split].
  - unfold killProcessWindow.
    destruct (input_loop_edits keys pidStr 0 (buffer_ok_initial _ Hlen) Hkeys)
      as (a & i & Hread & _).
    by rewrite Hread.
  - unfold killProcessWindow.
    destruct (input_loop_edits keys pidStr 0 (buffer_ok_initial _ Hlen) Hkeys)
      as (a & i & _ & _ & _ & Hrun).
    by rewrite Hrun.
  - by apply killProcessWindow_enter.
Qed.

Lemma char_of_code c : char_of (code c) = c.
Proof. unfold char_of, code. by rewrite Nat2Z.id, ascii_nat_embedding. Qed.

Lemma isdigit_code_code c : isdigit_code (code c) = isdigit c.
Proof. reflexivity. Qed.

Lemma digit_code_not_backspace ch :
  isdigit_code ch = true -> (ch =? KEY_BACKSPACE) || (ch =? KEY_DEL) = false.
Proof.
  unfold isdigit_code, KEY_BACKSPACE, KEY_DEL. intros H.
  apply andb_true_iff in H as [H1 H2]. apply orb_false_iff. split; apply Z.eqb_neq; lia.
Qed.

(** Typing digits appends them while there is room. *)
Lemma typed_digits (s : list ascii) : forall text,
  all_digits s -> (length text + length s <= 19)%nat ->
  foldl edit text (code <$> s) = text ++ s.
Proof.
  induction s as [|c s IH]; intros text Hs Hroom; [by rewrite app_nil_r|].
  apply Forall_cons in Hs as [Hc Hs]. cbn [fmap list_fmap foldl length] in *.
  unfold edit at 2. rewrite digit_code_not_backspace by done.
  rewrite isdigit_code_code, Hc, char_of_code.
  replace (Z.of_nat (length text) <? 19) with true by (symmetry; apply Z.ltb_lt; lia).
  cbn [andb]. rewrite IH; [by rewrite <- app_assoc | done | rewrite length_app; simpl; lia].
Qed.

Lemma string_all_Forall f s :
  string_all f s = true -> Forall (fun c => f c = true) (list_ascii_of_string s).
Proof.
  induction s as [|c s IH]; [constructor|]. cbn [string_all list_ascii_of_string].
  intros H. apply andb_true_iff in H as [Hc Hs]. constructor; auto.
Qed.

Lemma length_list_ascii_of_string s : length (list_ascii_of_string s) = String.length s.
Proof. induction s as [|c s IH]; [done|]. cbn. by rewrite IH. Qed.

(** X18.  For every pid from 0 to INT_MAX, typing its decimal digits into
    the kill window and pressing Enter sends exactly one SIGTERM, to that
    pid, whatever the buffer held before and whatever is typed
    afterwards. *)
Theorem kill_window_sends_typed_pid (n : Z) (rest : list Z) (pidStr : list ascii) :
  length pidStr = 20%nat -> 0 <= n <= INT_MAX ->
  killProcessWindow (keys_of (decimal n) ++ KEY_ENTER :: rest) pidStr
  = Some [(n, SIGTERM)].
Proof.
  intros Hlen Hn.
  pose proof (string_all_Forall _ _ (decimal_digits n)) as Hdig.
  assert (Hsize : (String.length (decimal n) <= 10)%nat)
    by (apply decimal_length; [change INT_MAX with 2147483647 in Hn; lia | lia]).
  rewrite (killProcessWindow_enter (keys_of (decimal n)) rest pidStr Hlen). all: swap 1 2.
  - unfold keys_of. apply Forall_fmap. eapply Forall_impl; [exact Hdig|].
    intros c Hc. by apply digit_key_not_exit.
  - unfold typed, keys_of.
    rewrite typed_digits; [|done|rewrite length_list_ascii_of_string; simpl; lia].
    cbn [app]. rewrite string_of_list_ascii_of_string.
    by rewrite stoi_decimal.
Qed.

Lemma stoi_of_digits (b : list ascii) v :
  all_digits b -> stoi (string_of_list_ascii b) = Returned v -> 0 <= v <= INT_MAX.
Proof.
  intros Hdig. destruct b as [|c b]; [done|].
  apply Forall_cons in Hdig as [Hc _].
  unfold stoi, sto_signed. cbn [string_of_list_ascii skipws].
  rewrite (isdigit_not_space c Hc). unfold scan_integer.
  destruct (isdigit_not_sign c Hc) as [-> ->].
  pose proof (take_digits_nonneg (String c (string_of_list_ascii b)) 0 false) as Hnn.
  destruct (take_digits 0 false _) as [[m|] r]; [|done].
  specialize (Hnn m ltac:(lia) eq_refl).
  destruct (in_rangeb 32 m) eqn:Hr; [|done]. intros [= <-].
  apply in_rangeb_spec in Hr. unfold in_range, INT_MAX in *. lia.
Qed.

Lemma killProcessWindow_at_most_one (keys : list Z) (pidStr : list ascii) signals :
  length pidStr = 20%nat ->
  killProcessWindow keys pidStr = Some signals ->
  signals = [] \/ exists pid, signals = [(pid, SIGTERM)] /\ 0 <= pid <= INT_MAX.
Proof.
  intros Hlen. unfold killProcessWindow.
  pose proof (input_loop_invariant keys pidStr 0 (buffer_ok_initial _ Hlen)) as Hinv.
  destruct (input_loop keys pidStr 0) as [a i|a i]; [done|].
  intros [= <-]. unfold after_loop.
  destruct Hinv as [->|[(Ha & Hi & Hdig) Hnul]]; [by left|].
  replace (i =? -1) with false by (symmetry; apply Z.eqb_neq; lia).
  rewrite (c_string_buffer a i) by (done || lia).
  destruct (stoi _) as [pid|e] eqn:Hpid; [|by left].
  right. exists pid. split; [done|]. by apply (stoi_of_digits (buffer a i)).
Qed.

(** X19.  Whatever is typed, a run of the kill window sends nothing or
    exactly one signal; the signal is SIGTERM and its target is a pid from 0
    to INT_MAX (0 included): no negative pid can be named.  A number beyond
    INT_MAX sends nothing. *)
Theorem kill_window_signals (keys : list Z) (pidStr : list ascii) :
  length pidStr = 20%nat ->
  (forall signals,
     killProcessWindow keys pidStr = Some signals ->
     signals = [] \/ exists pid, signals = [(pid, SIGTERM)] /\ 0 <= pid <= INT_MAX)
  /\ (forall n rest,
        INT_MAX < n -> (String.length (decimal n) <= 19)%nat ->
        killProcessWindow (keys_of (decimal n) ++ KEY_ENTER :: rest) pidStr = Some []).
Proof.
  intros Hlen. split.
  - intros signals. by apply killProcessWindow_at_most_one.
  - intros n rest Hbig Hsize.
    pose proof (string_all_Forall _ _ (decimal_digits n)) as Hdig.
    rewrite (killProcessWindow_enter (keys_of (decimal n)) rest pidStr Hlen). all: swap 1 2.
    + unfold keys_of. apply Forall_fmap. eapply Forall_impl; [exact Hdig|].
      intros c Hc. by apply digit_key_not_exit.
    + unfold typed, keys_of.
      rewrite typed_digits; [|done|rewrite length_list_ascii_of_string; simpl; lia].
      cbn [app]. rewrite string_of_list_ascii_of_string.
      by rewrite stoi_decimal_out_of_range.
Qed.

(* ===================================================================== *)
(** * One iteration on a key *)
(* ===================================================================== *)

(** X20.  An iteration of the main loop on the key [ch]: 'q' ends the loop
    before anything is read; otherwise the frame holds what [getProcesses]
    returned in this iteration, sorted in the mode that 'c', 'm' or 'p'
    selects (any other key keeps the mode), which is also the mode of the
    next iteration; no signal is sent unless the key is 'k', and then at
    most one SIGTERM, to a pid from 0 to INT_MAX. *)
Theorem main_iteration_key ch modal_keys pidStr src st :
  length pidStr = 20%nat ->
  (ch = 113 -> main_iteration ch modal_keys pidStr src st = Returned Quit)
  /\ (forall st' signals frame,
        main_iteration ch modal_keys pidStr src st = Returned (Drawn st' signals frame) ->
        currentSortMode st' = select_mode ch (currentSortMode st)
        /\ (exists sampled,
              getProcesses (usernameCache st) (prevProcessTimes st) (procfs src)
                (totalSystemMemKb src) (totalCpuDelta src st) = Returned sampled
              /\ Permutation sampled (processes frame)
              /\ processes frame = sort_processes (select_mode ch (currentSortMode st)) sampled)
        /\ (ch <> 107 -> signals = [])
        /\ (signals = []
            \/ exists pid, signals = [(pid, SIGTERM)] /\ 0 <= pid <= INT_MAX)).
Proof.
  intros Hlen. unfold main_iteration. split; [by intros ->|].
  intros st' signals frame. destruct (ch =? 113); [done|].
  set (st1 := {| currentSortMode := select_mode ch (currentSortMode st);
                 prevProcessTimes := prevProcessTimes st;
                 prevSysCpuTimes := prevSysCpuTimes st;
                 usernameCache := usernameCache st |}).
  destruct (if ch =? 107 then killProcessWindow modal_keys pidStr else Some [])
    as [sigs|] eqn:Hmodal; [|done].
  destruct (tick src st1) as [[st2 frame2]|e] eqn:Ht; step_result; [|done].
  cbn [fst snd]. intros [= <- <- <-].
  destruct (tick_inv _ _ _ _ Ht) as [(sampled & Hsampled & Hsorted) _ _ _ _].
  cbn [currentSortMode] in Hsorted.
  split; [|split; [|split]].
  - unfold tick in Ht. destruct (getProcesses _ _ _ _ _) as [l|e]; [|done].
    cbn [mbind result_bind] in Ht. by injection Ht as <- _.
  - exists sampled. split; [exact Hsampled|]. split; [|done].
    rewrite Hsorted. apply sort_processes_perm.
  - intros Hk. apply Z.eqb_neq in Hk. rewrite Hk in Hmodal. by injection Hmodal as <-.
  - destruct (ch =? 107).
    + by apply (killProcessWindow_at_most_one modal_keys pidStr).
    + injection Hmodal as <-. by left.
Qed.

(* ===================================================================== *)
(** * What is drawn *)
(* ===================================================================== *)

Lemma wrap32_id z : in_range 32 z -> wrap32 z = z.
Proof.
  unfold in_range, wrap32, wrap, smin, smax. intros Hz. rewrite Z.mod_small; lia.
Qed.

Lemma take_chars_all s : forall count,
  Z.of_nat (String.length s) <= count -> take_chars count s = s.
Proof.
  induction s as [|c s IH]; intros count Hc; [done|]. cbn [take_chars String.length] in *.
  replace (0 <? count) with true by (symmetry; apply Z.ltb_lt; lia).
  rewrite IH; [done | lia].
Qed.

Lemma take_chars_length s : forall count,
  0 <= count <= Z.of_nat (String.length s) ->
  Z.of_nat (String.length (take_chars count s)) = count.
Proof.
  induction s as [|c s IH]; intros count Hc; cbn [take_chars String.length] in *; [lia|].
  destruct (Z.ltb_spec 0 count); [|simpl; lia].
  cbn [String.length]. rewrite Nat2Z.inj_succ, IH; lia.
Qed.

Lemma append_length (a b : string) :
  String.length (a ++ b) = (String.length a + String.length b)%nat.
Proof. induction a as [|c a IH]; [done|]. rewrite append_cons. cbn. by rewrite IH. Qed.

(** X21.  The command name that [drawProcessList] formats on a screen [x]
    columns wide, with maxNameLen = x - 33.  A name that fits is kept as it
    is.  A longer name is cut to maxNameLen - 3 characters followed by
    "...", maxNameLen in all, when maxNameLen is at least 3.  When
    maxNameLen is 0, 1 or 2 the longer name is kept whole with "..." added,
    and on a screen narrower than 33 columns no name is cut by this step:
    the negative bound and count are taken as unsigned numbers. *)
Theorem display_name_cases (x : Z) (name : string) :
  0 <= x <= INT_MAX -> Z.of_nat (String.length name) <= LLONG_MAX ->
  let maxNameLen := x - 33 in
  let len := Z.of_nat (String.length name) in
  (0 <= maxNameLen -> len <= maxNameLen -> display_name x name = name)
  /\ (3 <= maxNameLen < len ->
      display_name x name = (take_chars (maxNameLen - 3) name ++ "...")%string
      /\ Z.of_nat (String.length (display_name x name)) = maxNameLen)
  /\ (0 <= maxNameLen < 3 -> maxNameLen < len ->
      display_name x name = (name ++ "...")%string)
  /\ (maxNameLen < 0 -> display_name x name = name).
Proof.
  intros Hx Hlen maxNameLen len.
  unfold INT_MAX, LLONG_MAX, smax in *.
  assert (Hw : wrap32 (x - 33) = x - 33)
    by (apply wrap32_id; unfold in_range, smin, smax; lia).
  unfold display_name. rewrite Hw. fold maxNameLen len. unfold to_size_t.
  split; [|split; [|split]].
  - intros H0 Hfit. rewrite Z.mod_small by lia.
    by replace (maxNameLen <? len) with false by (symmetry; apply Z.ltb_ge; lia).
  - intros Hcut.
    assert (Hw3 : wrap32 (maxNameLen - 3) = maxNameLen - 3)
      by (apply wrap32_id; unfold in_range, smin, smax; lia).
    rewrite Hw3, !Z.mod_small by lia.
    replace (maxNameLen <? len) with true by (symmetry; apply Z.ltb_lt; lia).
    split; [done|].
    rewrite append_length, Nat2Z.inj_add, take_chars_length by (fold len; lia).
    simpl. lia.
  - intros Hsmall Hlong.
    assert (Hw3 : wrap32 (maxNameLen - 3) = maxNameLen - 3)
      by (apply wrap32_id; unfold in_range, smin, smax; lia).
    rewrite Hw3, (Z.mod_small maxNameLen) by lia.
    replace (maxNameLen <? len) with true by (symmetry; apply Z.ltb_lt; lia).
    rewrite take_chars_all; [done|]. fold len.
    replace ((maxNameLen - 3) mod 2 ^ 64) with (maxNameLen - 3 + 2 ^ 64); [lia|].
    apply Z.mod_unique with (q := -1); lia.
  - intros Hneg.
    replace (maxNameLen mod 2 ^ 64) with (maxNameLen + 2 ^ 64)
      by (apply Z.mod_unique with (q := -1); lia).
    by replace (maxNameLen + 2 ^ 64 <? len) with false by (symmetry; apply Z.ltb_ge; lia).
Qed.

Lemma draw_rows_spec x maxRows ps : forall i,
  (fun r => r.1.2) <$> draw_rows x maxRows i ps = take (Z.to_nat (maxRows - i)) ps
  /\ (forall k row p shown,
        draw_rows x maxRows i ps !! k = Some (row, p, shown) ->
        row = 5 + i + Z.of_nat k /\ i + Z.of_nat k < maxRows
        /\ ps !! k = Some p /\ shown = display_name x (name p)).
Proof.
  induction ps as [|p ps IH]; intros i; cbn [draw_rows].
  - split; [by rewrite take_nil | intros k ???; by rewrite lookup_nil].
  - destruct (Z.ltb_spec i maxRows) as [Hlt|Hge].
    + destruct (IH (i + 1)) as [IHmap IHrow]. split.
      * cbn [fmap list_fmap]. change (list_fmap _ _ ?f ?l) with (f <$> l). rewrite IHmap.
        replace (Z.to_nat (maxRows - i)) with (S (Z.to_nat (maxRows - (i + 1)))) by lia.
        done.
      * intros [|k] row q shown Hk.
        -- injection Hk as <- <- <-. cbn. repeat split; try done; lia.
        -- cbn [lookup list_lookup] in Hk.
           destruct (IHrow k row q shown Hk) as (-> & ? & ? & ->).
           repeat split; try done; lia.
    + split.
      * replace (Z.to_nat (maxRows - i)) with 0%nat by lia. done.
      * intros k ???. by rewrite lookup_nil.
Qed.

(** X22.  On a screen of [y] rows [drawProcessList] draws the first y - 5
    processes of the list it is given, in the order of the list, and none
    when y is at most 5; the k-th of them is drawn on row 5 + k, which is
    on the screen, with its name prepared by [display_name]. *)
Theorem drawProcessList_rows (y x : Z) (processes : list Process) :
  0 <= y <= INT_MAX ->
  (fun r => r.1.2) <$> drawProcessList y x processes = take (Z.to_nat (y - 5)) processes
  /\ (forall k row p shown,
        drawProcessList y x processes !! k = Some (row, p, shown) ->
        row = 5 + Z.of_nat k /\ row < y
        /\ processes !! k = Some p /\ shown = display_name x (name p)).
Proof.
  intros Hy. unfold INT_MAX, smax in Hy. unfold drawProcessList.
  rewrite wrap32_id by (unfold in_range, smin, smax; lia).
  destruct (draw_rows_spec x (y - 5) processes 0) as [Hmap Hrow]. split.
  - by rewrite Hmap, Z.sub_0_r.
  - intros k row p shown Hk. destruct (Hrow k row p shown Hk) as (-> & ? & ? & ->).
    repeat split; try done; lia.
Qed.

Lemma string_of_list_ascii_app (a b : list ascii) :
  string_of_list_ascii (a ++ b)
  = (string_of_list_ascii a ++ string_of_list_ascii b)%string.
Proof. induction a as [|c a IH]; [done|]. cbn [app string_of_list_ascii]. by rewrite append_cons, IH. Qed.

Lemma bar_from_spec todo : forall i blocks bar,
  bar_from todo i blocks bar
  = (bar ++ bar_cells (Z.to_nat (Z.min (Z.max (blocks - i) 0) (Z.of_nat todo))) todo)%string.
Proof.
  induction todo as [|todo IH]; intros i blocks bar.
  - cbn [bar_from]. replace (Z.to_nat _) with 0%nat by lia.
    unfold bar_cells. cbn. by rewrite append_empty_r.
  - cbn [bar_from]. rewrite IH, append_assoc. f_equal. unfold bar_cells.
    destruct (Z.ltb_spec i blocks) as [Hlt|Hge].
    + replace (Z.to_nat (Z.min (Z.max (blocks - i) 0) (Z.of_nat (S todo))))
        with (S (Z.to_nat (Z.min (Z.max (blocks - (i + 1)) 0) (Z.of_nat todo)))) by lia.
      cbn [replicate app string_of_list_ascii Nat.sub]. by rewrite append_cons, append_empty.
    + replace (Z.to_nat (Z.min (Z.max (blocks - i) 0) (Z.of_nat (S todo)))) with 0%nat by lia.
      replace (Z.to_nat (Z.min (Z.max (blocks - (i + 1)) 0) (Z.of_nat todo))) with 0%nat by lia.
      rewrite !Nat.sub_0_r. cbn [replicate app string_of_list_ascii].
      by rewrite append_cons, append_empty.
Qed.

(** X23.  A bar of [drawSystemInfo] is always 20 cells wide, whatever the
    number of blocks computed from the percentage: the first
    min (max blocks 0) 20 cells are "|" and the others are blanks, so a
    negative number draws an empty bar and a number above 20 a full one. *)
Theorem draw_bar_cells (blocks : Z) :
  let filled := Z.to_nat (Z.min (Z.max blocks 0) 20) in
  draw_bar blocks
  = string_of_list_ascii (replicate filled "|"%char ++ replicate (20 - filled) " "%char)
  /\ String.length (draw_bar blocks) = 20%nat.
Proof.
  intros filled. unfold draw_bar, barWidth.
  rewrite bar_from_spec, append_empty, Z.sub_0_r. unfold bar_cells. fold filled.
  split; [done|].
  rewrite <- length_list_ascii_of_string, list_ascii_of_string_of_list_ascii.
  rewrite length_app, !length_replicate. subst filled. lia.
Qed.

(** X24.  The memory percentage that [drawSystemInfo] computes for the frame
    of an iteration.  When /proc/meminfo cannot be opened the frame has
    memTotal = memUsed = 0 and the percentage, a division of 0.0 by 0.0
    that nothing guards, is NaN.  When the total of the frame is positive
    the percentage is the guarded formula [percent] and is not NaN. *)
Theorem frame_memory_percentage src st st' frame :
  tick src st = Returned (st', frame) ->
  (meminfo src = None ->
     memTotal frame = 0 /\ memUsed frame = 0
     /\ is_nan (drawSystemInfo_memPercent (memUsed frame) (memTotal frame)) = true)
  /\ (in_range 64 (meminfo_junk src) -> 0 < memTotal frame ->
      drawSystemInfo_memPercent (memUsed frame) (memTotal frame)
      = percent (memUsed frame) (memTotal frame)
      /\ is_nan (drawSystemInfo_memPercent (memUsed frame) (memTotal frame)) = false).
Proof.
  intros Htick. pose proof (tick_inv _ _ _ _ Htick) as Hdone.
  unfold tick in Htick.
  destruct (getProcesses _ _ _ _ _) as [sampled|e]; cbn [mbind result_bind] in Htick; [|done].
  injection Htick as _ <-. cbn [memTotal memUsed]. split.
  - intros ->. by cbn.
  - intros Hjunk Hpos.
    fold (totalSystemMemKb src) in *.
    pose proof (totalSystemMemKb_range src Hjunk) as Hr.
    assert (Heq : drawSystemInfo_memPercent
                    (sub64 (totalSystemMemKb src) (snd (getMemoryInfo (meminfo_junk src) (meminfo src))))
                    (totalSystemMemKb src)
                  = percent (sub64 (totalSystemMemKb src)
                               (snd (getMemoryInfo (meminfo_junk src) (meminfo src))))
                      (totalSystemMemKb src)).
    { unfold percent, drawSystemInfo_memPercent.
      by replace (0 <? totalSystemMemKb src) with true by (symmetry; apply Z.ltb_lt; lia). }
    split; [done|]. rewrite Heq. apply percent_not_nan.
    unfold in_range, LLONG_MAX in *. lia.
Qed.

(* ===================================================================== *)
(** * The extra properties at concrete inputs *)
(* ===================================================================== *)

Lemma cpu_line_round_trip_witness :
  cpu_fields (getSystemCpuTimes
                (Some ("cpu" ++ fields_text [("  ", 100); (" ", 0); (" ", 50)]
                       ++ " " ++ String newline "intr 5")%string))
  = [100; 0; 50; 0; 0; 0; 0; 0].
Proof.
  apply (cpu_line_round_trip "cpu" [("  ", 100); (" ", 0); (" ", 50)]%string " " "intr 5").
  - split; [discriminate | reflexivity].
  - reflexivity.
  - repeat constructor; try discriminate; try reflexivity; vm_compute; discriminate.
  - reflexivity.
  - vm_compute. reflexivity.
  - intros _. reflexivity.
Defined.

Lemma getMemoryInfo_missing_key_witness :
  fst (getMemoryInfo 77 (Some ("MemFree: 5 kB" ++ String newline "MemAvailable: 7 kB")%string)) = 0.
Proof.
  destruct (getMemoryInfo_missing_key 77) as (_ & Htotal & _).
  apply Htotal.
  change (lines _) with ["MemFree: 5 kB"; "MemAvailable: 7 kB"]%string.
  repeat constructor; vm_compute; discriminate.
Defined.

Lemma getMemoryInfo_round_trip_witness :
  getMemoryInfo 77 (Some Scenario.meminfo_text) = (8000000, 2000000).
Proof.
  apply (getMemoryInfo_round_trip 77 Scenario.meminfo_text
           [] ["MemFree:          500000 kB"]%string ["Buffers:           10000 kB"]%string
           "        " 8000000 " kB" "    " 2000000 " kB").
  - vm_compute. reflexivity.
  - repeat constructor; vm_compute; discriminate.
  - split; [discriminate | reflexivity].
  - split; [discriminate | reflexivity].
  - vm_compute. reflexivity.
  - vm_compute. reflexivity.
  - unfold LLONG_MAX, smax. lia.
  - unfold LLONG_MAX, smax. lia.
Defined.

Lemma getUsername_cases_witness :
  getUsername {[ 0 := "root"%string; 1000 := "alice"%string ]} Scenario.fs_1 7
  = "alice"%string.
Proof.
  destruct (getUsername_cases {[ 0 := "root"%string; 1000 := "alice"%string ]}
              Scenario.fs_1 7) as (_ & _ & Huid).
  etrans.
  - apply (Huid Scenario.status_text
             [String.append "Name:" (String.append Scenario.tab "cat");
              String.append "Umask:" (String.append Scenario.tab "0022")]
             Scenario.tab 1000
             (String (ascii_of_nat 9) "1000" ++ String (ascii_of_nat 9) "1000"
              ++ String (ascii_of_nat 9) "1000")%string
             [String.append "VmRSS:" (String.append Scenario.tab "  100000 kB")]).
    + reflexivity.
    + vm_compute. reflexivity.
    + repeat constructor.
    + split; [discriminate | reflexivity].
    + vm_compute. split; discriminate.
    + vm_compute. reflexivity.
  - vm_compute. reflexivity.
Defined.

Lemma loadUsernames_lookup_witness :
  loadUsernames [(0, "root"); (1000, "alice"); (1000, "bob")]%string !! 1000
  = Some "bob"%string.
Proof.
  destruct (loadUsernames_lookup [(0, "root"); (1000, "alice"); (1000, "bob")]%string 1000)
    as [_ Hlast].
  apply (Hlast [(0, "root"); (1000, "alice")]%string "bob"%string []).
  - reflexivity.
  - simpl. apply not_elem_of_nil.
Defined.

Lemma getProcesses_in_directory_order_witness :
  getProcesses {[ 1000 := "alice"%string ]} {[ 7 := (10, 5) ]} Scenario.fs_1 8000000 40
  = Returned [Scenario.p_1].
Proof.
  destruct (getProcesses_in_directory_order
              {[ 1000 := "alice"%string ]} {[ 7 := (10, 5) ]} Scenario.fs_1 8000000 40)
    as (_ & _ & Hall & _).
  etrans.
  - apply (Hall Scenario.entries); [reflexivity|].
    repeat constructor; vm_compute; intros [].
  - vm_compute. reflexivity.
Defined.

Lemma stoi_outcomes_witness :
  stoi " 42abc" = Returned 42 /\ stoi " 99999999999abc" = Threw out_of_range.
Proof.
  destruct (stoi_outcomes " " 42 "abc") as (Hin & _);
    [reflexivity | lia | vm_compute; reflexivity |].
  destruct (stoi_outcomes " " 99999999999 "abc") as (_ & _ & Hout & _);
    [reflexivity | lia | vm_compute; reflexivity |].
  split.
  - apply Hin. vm_compute. discriminate.
  - apply Hout. vm_compute. reflexivity.
Defined.

Lemma rtrim_removes_trailing_blanks_witness :
  rtrim ("my ca" ++ String "t" (String " " (String newline EmptyString)))
  = ("my ca" ++ String "t" EmptyString)%string.
Proof.
  destruct (rtrim_removes_trailing_blanks (String " " (String newline EmptyString)))
    as [_ Hkept]; [reflexivity|].
  apply (Hkept "my ca"%string "t"%char). reflexivity.
Defined.

Lemma scan_status_round_trip_witness :
  scan_status (lines Scenario.status_text) EmptyString 0 = Returned ("cat"%string, 100000).
Proof.
  destruct (scan_status_round_trip [] (ascii_of_nat 9) "cat"
              ["Umask:" ++ Scenario.tab ++ "0022";
               "Uid:" ++ Scenario.tab ++ "1000" ++ Scenario.tab ++ "1000" ++ Scenario.tab
                 ++ "1000" ++ Scenario.tab ++ "1000"]%string [])
    as [_ Hrss].
  - repeat constructor.
  - pose proof (Hrss (ascii_of_nat 9) "  "%string 100000 " kB"%string) as H.
    apply H.
    + reflexivity.
    + unfold LLONG_MAX, smax. lia.
    + vm_compute. reflexivity.
Defined.

Lemma malformed_status_throws_witness :
  let fs := {| proc_entries := Some ["self"; "7"; "8"]%string;
               stat_file := fun _ => Some (Scenario.stat_text "20" "15");
               status_file := fun _ => Some "Name:"%string;
               status_reopened := fun _ => None |} in
  getProcesses ∅ ∅ fs 8000000 40 = Threw out_of_range.
Proof.
  intros fs.
  destruct (malformed_status_throws ∅ ∅ fs 8000000 40
              ["self"%string] "7"%string ["8"%string] 7 "Name:"%string [] [])
    as [Hname _].
  - reflexivity.
  - repeat constructor. vm_compute. intros [].
  - vm_compute. reflexivity.
  - eexists. reflexivity.
  - reflexivity.
  - constructor.
  - apply Hname. left. reflexivity.
Defined.

Lemma sample_of_well_formed_process_witness :
  sample_entry {[ 1000 := "alice"%string ]} {[ 7 := (10, 5) ]} Scenario.fs_1 8000000 40 "7"
  = Returned (Some Scenario.p_1).
Proof.
  etrans.
  - apply (sample_of_well_formed_process
             {[ 1000 := "alice"%string ]} {[ 7 := (10, 5) ]} Scenario.fs_1 8000000 40
             7 "7"
             [(" ", "(cat)"); (" ", "S"); (" ", "1"); (" ", "7"); (" ", "7"); (" ", "0");
              (" ", "-1"); (" ", "4194304"); (" ", "100"); (" ", "0"); (" ", "0");
              (" ", "0")]%string
             " " 20 " " 15 " 0 0 20 0 1 0 100 1000 50" EmptyString Scenario.status_text
             "cat" 100000).
    + unfold INT_MAX, smax. lia.
    + vm_compute. reflexivity.
    + split; [discriminate | reflexivity].
    + repeat constructor; try discriminate; reflexivity.
    + reflexivity.
    + split; [discriminate | reflexivity].
    + split; [discriminate | reflexivity].
    + unfold LLONG_MAX, smax. lia.
    + unfold LLONG_MAX, smax. lia.
    + reflexivity.
    + vm_compute. reflexivity.
    + reflexivity.
    + vm_compute. reflexivity.
    + discriminate.
  - vm_compute. reflexivity.
Defined.

Lemma vanished_process_is_skipped_witness :
  sample_entry ∅ ∅ Scenario.fs_1 8000000 40 "8" = Returned None.
Proof.
  destruct (vanished_process_is_skipped ∅ ∅ Scenario.fs_1 8000000 40 "8" 8) as [Hskip _].
  - vm_compute. reflexivity.
  - left. reflexivity.
  - exact Hskip.
Defined.

Lemma successive_ticks_witness :
  let fs2 := Scenario.fs Scenario.entries 7 "30" "25" true in
  let src2 := {| meminfo := Some Scenario.meminfo_text; meminfo_junk := 0;
                 proc_stat := Some "cpu 120 0 70 890 0 0 0 0"%string; procfs := fs2 |} in
  let p2 := Scenario.proc 7 "alice" (Prim2SF 50%float) 30 25 in
  cpuPercent p2
  = percent (sub64 (add64 30 25) (add64 20 15))
      (totalCpuDelta src2 (Scenario.st' BY_CPU [Scenario.p_1])).
Proof.
  intros fs2 src2 p2.
  pose (st2 := {| currentSortMode := BY_CPU;
                  prevProcessTimes := record_times ∅ [p2];
                  prevSysCpuTimes := getSystemCpuTimes (proc_stat src2);
                  usernameCache := {[ 0 := "root"%string; 1000 := "alice"%string ]} |}).
  destruct (successive_ticks
              (Scenario.src Scenario.fs_1) src2 (Scenario.st BY_CPU 10 5)
              (Scenario.st' BY_CPU [Scenario.p_1]) st2
              (Scenario.frame [Scenario.p_1]) (Scenario.frame [p2]))
    as (_ & Hboth & _).
  - vm_compute. reflexivity.
  - vm_compute. reflexivity.
  - apply (Hboth Scenario.p_1 p2).
    + repeat constructor. apply not_elem_of_nil.
    + left.
    + left.
    + reflexivity.
Defined.

Lemma first_tick_after_load_witness :
  let cache : gmap Z string := {[ 0 := "root"%string; 1000 := "alice"%string ]} in
  let fs0 := Scenario.fs Scenario.entries 7 "10" "5" true in
  currentSortMode (Scenario.st BY_CPU 10 5) = BY_CPU
  /\ prevSysCpuTimes (Scenario.st BY_CPU 10 5) = getSystemCpuTimes (Some Scenario.cpu_line_1)
  /\ exists warm_up,
       getProcesses cache ∅ fs0 1 1 = Returned warm_up
       /\ (forall k, is_Some (prevProcessTimes (Scenario.st BY_CPU 10 5) !! k) <->
                     exists p, p ∈ warm_up /\ pid p = k)
       /\ (forall p0 p,
             NoDup (pid <$> warm_up) -> p0 ∈ warm_up -> p ∈ [Scenario.p_1] ->
             pid p0 = pid p ->
             cpuPercent p
             = percent (sub64 (add64 (utime p) (stime p)) (add64 (utime p0) (stime p0)))
                 (totalCpuDelta (Scenario.src Scenario.fs_1) (Scenario.st BY_CPU 10 5))).
Proof.
  intros cache fs0.
  apply (first_tick_after_load cache (Some Scenario.cpu_line_1) fs0
           (Scenario.st BY_CPU 10 5) (Scenario.src Scenario.fs_1)
           (Scenario.st' BY_CPU [Scenario.p_1]) (Scenario.frame [Scenario.p_1])).
  - vm_compute. reflexivity.
  - vm_compute. reflexivity.
Defined.

Lemma sort_processes_ordered_witness :
  let a := Scenario.proc 7 "alice" (percent 10 40) 20 15 in
  let b := Scenario.proc 3 "root" (percent 30 40) 1 1 in
  StronglySorted (fun p q => geb (cpuPercent p) (cpuPercent q) = true)
    (sort_processes BY_CPU [a; b]).
Proof.
  intros a b.
  destruct (sort_processes_ordered [a; b]) as (_ & Hcpu & _).
  apply Hcpu. repeat constructor.
Defined.

Lemma sort_by_pid_determined_witness :
  let a := Scenario.proc 7 "alice" (percent 10 40) 20 15 in
  let b := Scenario.proc 3 "root" (percent 30 40) 1 1 in
  [b; a] = sort_processes BY_PID [a; b].
Proof.
  intros a b.
  apply (sort_by_pid_determined [a; b] [b; a]).
  - repeat constructor; [|apply not_elem_of_nil].
    intros H. apply list_elem_of_singleton in H. discriminate H.
  - split; [apply perm_swap|]. repeat constructor.
Defined.

Lemma kill_window_edits_text_witness :
  killProcessWindow ([49; 50; 263; 51] ++ [KEY_ENTER]) (replicate 20 "x"%char)
  = Some [(13, SIGTERM)].
Proof.
  destruct (kill_window_edits_text [49; 50; 263; 51] [] (replicate 20 "x"%char))
    as (_ & _ & Henter).
  - reflexivity.
  - repeat constructor; vm_compute; discriminate.
  - etrans; [apply Henter | vm_compute; reflexivity].
Defined.

Lemma kill_window_sends_typed_pid_witness :
  killProcessWindow (keys_of (decimal 1234) ++ KEY_ENTER :: [113]) (replicate 20 "x"%char)
  = Some [(1234, SIGTERM)].
Proof.
  apply (kill_window_sends_typed_pid 1234 [113] (replicate 20 "x"%char)).
  - reflexivity.
  - unfold INT_MAX, smax. lia.
Defined.

Lemma kill_window_signals_witness :
  killProcessWindow (keys_of (decimal 3000000000) ++ [KEY_ENTER]) (replicate 20 "x"%char)
  = Some [].
Proof.
  destruct (kill_window_signals [] (replicate 20 "x"%char)) as [_ Hbig]; [reflexivity|].
  apply (Hbig 3000000000 []).
  - unfold INT_MAX, smax. lia.
  - vm_compute. lia.
Defined.

Lemma main_iteration_key_witness :
  main_iteration 113 [] (replicate 20 "x"%char)
    (Scenario.src Scenario.fs_1) (Scenario.st BY_CPU 10 5) = Returned Quit
  /\ currentSortMode (Scenario.st' BY_PID [Scenario.p_1]) = select_mode 112 BY_CPU.
Proof.
  destruct (main_iteration_key 113 [] (replicate 20 "x"%char)
              (Scenario.src Scenario.fs_1) (Scenario.st BY_CPU 10 5)) as [Hquit _];
    [reflexivity|].
  destruct (main_iteration_key 112 [] (replicate 20 "x"%char)
              (Scenario.src Scenario.fs_1) (Scenario.st BY_CPU 10 5)) as [_ Hdrawn];
    [reflexivity|].
  split; [by apply Hquit|].
  destruct (Hdrawn (Scenario.st' BY_PID [Scenario.p_1]) [] (Scenario.frame [Scenario.p_1]))
    as [Hmode _]; [vm_compute; reflexivity|].
  exact Hmode.
Defined.

Lemma display_name_cases_witness :
  display_name 40 "systemd-journald" = "syst..."%string
  /\ Z.of_nat (String.length (display_name 40 "systemd-journald")) = 7.
Proof.
  destruct (display_name_cases 40 "systemd-journald") as (_ & Hcut & _).
  - unfold INT_MAX, smax. lia.
  - vm_compute. discriminate.
  - apply Hcut. vm_compute. split; [discriminate | reflexivity].
Defined.

Lemma drawProcessList_rows_witness :
  let a := Scenario.proc 7 "alice" (percent 10 40) 20 15 in
  let b := Scenario.proc 3 "root" (percent 30 40) 1 1 in
  (fun r => r.1.2) <$> drawProcessList 6 80 [a; b] = [a].
Proof.
  intros a b.
  destruct (drawProcessList_rows 6 80 [a; b]) as [Hshown _].
  - unfold INT_MAX, smax. lia.
  - exact Hshown.
Defined.

Lemma frame_memory_percentage_witness :
  drawSystemInfo_memPercent 6000000 8000000 = percent 6000000 8000000
  /\ is_nan (drawSystemInfo_memPercent 6000000 8000000) = false.
Proof.
  destruct (frame_memory_percentage
              (Scenario.src Scenario.fs_1) (Scenario.st BY_CPU 10 5)
              (Scenario.st' BY_CPU [Scenario.p_1]) (Scenario.frame [Scenario.p_1]))
    as [_ Hpos].
  - vm_compute. reflexivity.
  - apply Hpos.
    + vm_compute. split; discriminate.
    + reflexivity.
Defined.
